(** * picobot: the thread loop, the mailbox and the tool dispatch of
    [src/4-agent-loop.ts], embedded in Rocq.

    The program is single-threaded JavaScript.  Code between two [await]s
    runs to completion, so the embedding is a state machine whose steps are
    those uninterrupted segments.  What the outside world answers (the model
    provider, Slack, the shell, the disk) is an explicit argument of each
    step.

    Conventions:
    - a JavaScript exception is a value [Throw msg] of type [Result];
    - [loadThread] returns whatever [JSON.parse] gives and TypeScript's
      [Thread] annotation is not checked at run time; the functions of the
      loop return [None] when the record on disk is valid JSON of another
      shape than a thread, a situation this model does not follow further
      ([run_defined] shows it never arises from records the program wrote);
    - JSON numbers are integers and strings are sequences of 8-bit
      characters; a text with a fraction, an exponent, a negative zero or a
      [\u] escape above 255 is JSON ([Json.accepts]) for which [Json.parse]
      has no value:
      a record holding one is outside the model, statements on stored
      records speak of what [Json.parse] reads, and the theorem on loading
      speaks only of records the program wrote and of texts outside the
      grammar;
    - the paths are appended where the program calls [path.resolve]; the two
      agree for a home directory in normal form and conversation ids without
      a path separator ([resolve_thread_file]), which is what the handler
      forms from Slack timestamps;
    - files that tools write are assumed to lie outside the threads
      directory. *)

From Stdlib Require Import ZArith Ascii String DecimalZ DecimalPos DecimalFacts.
From stdpp Require Import base option list strings gmap.

#[local] Arguments String.append !_ _ : simpl nomatch.

(** ** Characters that cannot be written inside a string literal *)

Definition dquote : ascii := "034"%char.
Definition newline : ascii := "010"%char.
Definition NL : string := String newline "".

(** ** JSON values, [JSON.stringify (v, null, 2)] and [JSON.parse]

    Numbers are the integers (a JS number with a fractional part or an
    exponent is outside this model), strings are sequences of 8-bit
    characters. *)

Module Json.

Unset Elimination Schemes.
Inductive value : Type :=
| JNull
| JBool (b : bool)
| JNum (z : Z)
| JStr (s : string)
| JArr (items : list value)
| JObj (members : list (string * value)).
Set Elimination Schemes.

(** *** Serialisation *)

Definition hex_digit (n : N) : ascii :=
  match n with
  | 0 => "0" | 1 => "1" | 2 => "2" | 3 => "3" | 4 => "4" | 5 => "5"
  | 6 => "6" | 7 => "7" | 8 => "8" | 9 => "9" | 10 => "a" | 11 => "b"
  | 12 => "c" | 13 => "d" | 14 => "e" | _ => "f"
  end%N%char.

(** QuoteJSONString, one character at a time. *)
Definition quote_char (c : ascii) : string :=
  match c with
  | "008"%char => "\b"
  | "009"%char => "\t"
  | "010"%char => "\n"
  | "012"%char => "\f"
  | "013"%char => "\r"
  | "034"%char => String "\" (String dquote "")
  | "\"%char => "\\"
  | _ =>
    let n := N_of_ascii c in
    if (n <? 32)%N
    then "\u00" +:+ String (hex_digit (n / 16)) (String (hex_digit (n mod 16)) "")
    else String c ""
  end.

Fixpoint quote_body (s : string) : string :=
  match s with
  | "" => ""
  | String c s' => quote_char c +:+ quote_body s'
  end.

Definition quote (s : string) : string :=
  String dquote (quote_body s +:+ String dquote "").

Fixpoint digits (d : Decimal.uint) : string :=
  match d with
  | Decimal.Nil => ""
  | Decimal.D0 d => String "0" (digits d)
  | Decimal.D1 d => String "1" (digits d)
  | Decimal.D2 d => String "2" (digits d)
  | Decimal.D3 d => String "3" (digits d)
  | Decimal.D4 d => String "4" (digits d)
  | Decimal.D5 d => String "5" (digits d)
  | Decimal.D6 d => String "6" (digits d)
  | Decimal.D7 d => String "7" (digits d)
  | Decimal.D8 d => String "8" (digits d)
  | Decimal.D9 d => String "9" (digits d)
  end.

Definition number_to_string (z : Z) : string :=
  match Z.to_int z with
  | Decimal.Pos d => digits d
  | Decimal.Neg d => String "-" (digits d)
  end.

Fixpoint spaces (n : nat) : string :=
  match n with
  | O => ""
  | S n => String " " (spaces n)
  end.

(** [join sep [a; b; c] = a sep b sep c] *)
Fixpoint join (sep : string) (parts : list string) : string :=
  match parts with
  | [] => ""
  | [p] => p
  | p :: rest => p +:+ sep +:+ join sep rest
  end.

(** SerializeJSONProperty with gap of two spaces: [indent] is the current
    indentation, members and items sit two columns further in. *)
Fixpoint stringify_at (indent : nat) (v : value) : string :=
  match v with
  | JNull => "null"
  | JBool true => "true"
  | JBool false => "false"
  | JNum z => number_to_string z
  | JStr s => quote s
  | JArr [] => "[]"
  | JArr items =>
    "[" +:+ NL +:+ spaces (2 + indent)
    +:+ join ("," +:+ NL +:+ spaces (2 + indent))
             (map (stringify_at (2 + indent)) items)
    +:+ NL +:+ spaces indent +:+ "]"
  | JObj [] => "{}"
  | JObj members =>
    "{" +:+ NL +:+ spaces (2 + indent)
    +:+ join ("," +:+ NL +:+ spaces (2 + indent))
             (map (fun kv => quote (fst kv) +:+ ": " +:+ stringify_at (2 + indent) (snd kv))
                  members)
    +:+ NL +:+ spaces indent +:+ "}"
  end.

Definition stringify (v : value) : string := stringify_at 0 v.

(** *** Parsing *)

Definition is_ws (c : ascii) : bool :=
  match c with
  | " " | "009" | "010" | "013" => true
  | _ => false
  end%char.

Fixpoint skip_ws (s : string) : string :=
  match s with
  | String c s' => if is_ws c then skip_ws s' else s
  | "" => ""
  end.

Definition hex_value (c : ascii) : option N :=
  let n := N_of_ascii c in
  if ((48 <=? n) && (n <=? 57))%N then Some (n - 48)%N          (* 0-9 *)
  else if ((97 <=? n) && (n <=? 102))%N then Some (n - 87)%N    (* a-f *)
  else if ((65 <=? n) && (n <=? 70))%N then Some (n - 55)%N     (* A-F *)
  else None.

(** A [\uXXXX] escape; code units above 255 have no 8-bit character. *)
Definition unicode_escape (a b c d : ascii) : option ascii :=
  match hex_value a, hex_value b, hex_value c, hex_value d with
  | Some 0%N, Some 0%N, Some h, Some l => Some (ascii_of_N (16 * h + l))
  | _, _, _, _ => None
  end.

(** The characters of a string literal after its opening quote, up to and
    including the closing quote. *)
Fixpoint parse_string (s : string) : option (string * string) :=
  match s with
  | "" => None
  | String c rest =>
    if Ascii.eqb c dquote then Some ("", rest)
    else if Ascii.eqb c "\" then
      match rest with
      | String e rest' =>
        let lit (x : ascii) :=
          match parse_string rest' with
          | Some (str, r) => Some (String x str, r)
          | None => None
          end in
        match e with
        | "034" => lit dquote
        | "\" => lit "\"
        | "/" => lit "/"
        | "b" => lit "008"
        | "f" => lit "012"
        | "n" => lit "010"
        | "r" => lit "013"
        | "t" => lit "009"
        | "u" =>
          match rest' with
          | String h1 (String h2 (String h3 (String h4 rest''))) =>
            match unicode_escape h1 h2 h3 h4, parse_string rest'' with
            | Some x, Some (str, r) => Some (String x str, r)
            | _, _ => None
            end
          | _ => None
          end
        | _ => None
        end%char
      | "" => None
      end
    else if (N_of_ascii c <? 32)%N then None
    else
      match parse_string rest with
      | Some (str, r) => Some (String c str, r)
      | None => None
      end
  end.

Definition digit_of (c : ascii) : option (Decimal.uint -> Decimal.uint) :=
  match c with
  | "0" => Some Decimal.D0 | "1" => Some Decimal.D1 | "2" => Some Decimal.D2
  | "3" => Some Decimal.D3 | "4" => Some Decimal.D4 | "5" => Some Decimal.D5
  | "6" => Some Decimal.D6 | "7" => Some Decimal.D7 | "8" => Some Decimal.D8
  | "9" => Some Decimal.D9
  | _ => None
  end%char.

(** The longest run of decimal digits at the head of [s]. *)
Fixpoint parse_digits (s : string) : Decimal.uint * string :=
  match s with
  | "" => (Decimal.Nil, "")
  | String c rest =>
    match digit_of c with
    | Some D => let '(d, r) := parse_digits rest in (D d, r)
    | None => (Decimal.Nil, s)
    end
  end.

Definition canonical (i : Decimal.int) : bool :=
  if Decimal.int_eq_dec (Decimal.norm i) i then true else false.

(** An integer literal: no leading zeros, no negative zero.  A fraction or an
    exponent after the digits is left in the rest, where the caller rejects
    it. *)
Definition parse_number (s : string) : option (Z * string) :=
  let '(neg, body) :=
    match s with
    | String "-" r => (true, r)
    | _ => (false, s)
    end in
  match parse_digits body with
  | (Decimal.Nil, _) => None
  | (d, r) =>
    let i := if neg then Decimal.Neg d else Decimal.Pos d in
    if canonical i then Some (Z.of_int i, r) else None
  end.

Fixpoint expect (word s : string) : option string :=
  match word, s with
  | "", _ => Some s
  | String a word', String b s' => if Ascii.eqb a b then expect word' s' else None
  | String _ _, "" => None
  end.

(** Items of a non-empty array after the opening bracket. *)
Fixpoint parse_items (pv : string -> option (value * string)) (n : nat) (s : string)
  : option (list value * string) :=
  match n with
  | O => None
  | S n =>
    match pv s with
    | None => None
    | Some (v, r) =>
      match skip_ws r with
      | String c r' =>
        if Ascii.eqb c "," then
          match parse_items pv n r' with
          | Some (vs, r'') => Some (v :: vs, r'')
          | None => None
          end
        else if Ascii.eqb c "]" then Some ([v], r')
        else None
      | "" => None
      end
    end
  end.

(** Members of a non-empty object after the opening brace. *)
Fixpoint parse_members (pv : string -> option (value * string)) (n : nat) (s : string)
  : option (list (string * value) * string) :=
  match n with
  | O => None
  | S n =>
    match skip_ws s with
    | String q r0 =>
      if Ascii.eqb q dquote then
        match parse_string r0 with
        | None => None
        | Some (k, r1) =>
          match skip_ws r1 with
          | String colon r2 =>
            if Ascii.eqb colon ":" then
              match pv r2 with
              | None => None
              | Some (v, r3) =>
                match skip_ws r3 with
                | String c r4 =>
                  if Ascii.eqb c "," then
                    match parse_members pv n r4 with
                    | Some (kvs, r5) => Some ((k, v) :: kvs, r5)
                    | None => None
                    end
                  else if Ascii.eqb c "}" then Some ([(k, v)], r4)
                  else None
                | "" => None
                end
              end
            else None
          | "" => None
          end
        end
      else None
    | "" => None
    end
  end.

(** Whether [s] starts with the character [c]. *)
Definition starts_with (c : ascii) (s : string) : option string :=
  match s with
  | String c' r => if Ascii.eqb c' c then Some r else None
  | "" => None
  end.

Fixpoint parse_value (fuel : nat) (s : string) : option (value * string) :=
  match fuel with
  | O => None
  | S fuel =>
    match skip_ws s with
    | "" => None
    | String c r as s0 =>
      if Ascii.eqb c dquote then
        match parse_string r with
        | Some (str, r') => Some (JStr str, r')
        | None => None
        end
      else if Ascii.eqb c "n" then
        match expect "ull" r with Some r' => Some (JNull, r') | None => None end
      else if Ascii.eqb c "t" then
        match expect "rue" r with Some r' => Some (JBool true, r') | None => None end
      else if Ascii.eqb c "f" then
        match expect "alse" r with Some r' => Some (JBool false, r') | None => None end
      else if Ascii.eqb c "[" then
        match starts_with "]" (skip_ws r) with
        | Some r' => Some (JArr [], r')
        | None =>
          match parse_items (parse_value fuel) fuel r with
          | Some (vs, r') => Some (JArr vs, r')
          | None => None
          end
        end
      else if Ascii.eqb c "{" then
        match starts_with "}" (skip_ws r) with
        | Some r' => Some (JObj [], r')
        | None =>
          match parse_members (parse_value fuel) fuel r with
          | Some (kvs, r') => Some (JObj kvs, r')
          | None => None
          end
        end
      else
        match parse_number s0 with
        | Some (z, r') => Some (JNum z, r')
        | None => None
        end
    end
  end.

(** [JSON.parse]: [None] stands for the SyntaxError it throws. *)
Definition parse (text : string) : option value :=
  match parse_value (S (String.length text)) text with
  | Some (v, r) => if decide (skip_ws r = "") then Some v else None
  | None => None
  end.

(** *** Notions used to state the round trip *)

(** Number of nodes of a value; the fuel [parse_value] needs for it. *)
Fixpoint size (v : value) : nat :=
  match v with
  | JArr items => S (list_sum (map size items))
  | JObj members => S (list_sum (map (fun kv => size (snd kv)) members))
  | _ => 1
  end.

(** The text after a number must not go on with a digit. *)
Definition no_digit_head (s : string) : Prop :=
  match s with
  | String c _ => digit_of c = None
  | "" => True
  end.

(** The characters a number can start with. *)
Definition number_head (c : ascii) : bool :=
  Ascii.eqb c "-" || match digit_of c with Some _ => true | None => false end.

(** The text of the items of an array (of the members of an object) from the
    line break after the opening bracket on, followed by [tail]. *)
Fixpoint items_text (k : nat) (items : list value) (tail : string) : string :=
  match items with
  | [] => tail
  | [x] => NL +:+ spaces k +:+ stringify_at k x +:+ tail
  | x :: rest => NL +:+ spaces k +:+ stringify_at k x +:+ "," +:+ items_text k rest tail
  end.

Fixpoint members_text (k : nat) (members : list (string * value)) (tail : string) : string :=
  match members with
  | [] => tail
  | [(key, x)] => NL +:+ spaces k +:+ quote key +:+ ": " +:+ stringify_at k x +:+ tail
  | (key, x) :: rest =>
    NL +:+ spaces k +:+ quote key +:+ ": " +:+ stringify_at k x +:+ ","
    +:+ members_text k rest tail
  end.

(** The round trip for one value at any indentation, before any rest, with
    enough fuel. *)
Definition parses_back (v : value) : Prop :=
  forall (ind : nat) (rest : string) (fuel : nat),
    size v ≤ fuel -> no_digit_head rest ->
    parse_value fuel (stringify_at ind v +:+ rest) = Some (v, rest).

(** *** The JSON grammar

    [JSON.parse] throws on exactly the texts outside the JSON grammar.
    [parse] above follows the grammar except in two places, where it has no
    value to return: a number must be an integer literal other than [-0],
    and a [\u] escape must name a character below 256.  [accepts] follows
    the grammar in full: it tells whether [JSON.parse] returns at all. *)

(** The rest after the closing quote of a string literal. *)
Fixpoint scan_string (s : string) : option string :=
  match s with
  | "" => None
  | String c rest =>
    if Ascii.eqb c dquote then Some rest
    else if Ascii.eqb c "\" then
      match rest with
      | String e rest' =>
        match e with
        | "034" | "\" | "/" | "b" | "f" | "n" | "r" | "t" => scan_string rest'
        | "u" =>
          match rest' with
          | String h1 (String h2 (String h3 (String h4 rest''))) =>
            match hex_value h1, hex_value h2, hex_value h3, hex_value h4 with
            | Some _, Some _, Some _, Some _ => scan_string rest''
            | _, _, _, _ => None
            end
          | _ => None
          end
        | _ => None
        end%char
      | "" => None
      end
    else if (N_of_ascii c <? 32)%N then None
    else scan_string rest
  end.

(** One or more digits. *)
Definition scan_digits (s : string) : option string :=
  match parse_digits s with
  | (Decimal.Nil, _) => None
  | (_, r) => Some r
  end.

(** An optional fraction. *)
Definition scan_fraction (s : string) : option string :=
  match starts_with "." s with
  | Some r => scan_digits r
  | None => Some s
  end.

(** An optional exponent, with an optional sign. *)
Definition scan_exponent (s : string) : option string :=
  match s with
  | String c r =>
    if Ascii.eqb c "e" || Ascii.eqb c "E" then
      scan_digits
        match r with
        | String sign r' => if Ascii.eqb sign "+" || Ascii.eqb sign "-" then r' else r
        | "" => r
        end
    else Some s
  | "" => Some s
  end.

(** A number: an optional minus, then a zero or digits that do not start
    with a zero, then the optional fraction and exponent. *)
Definition scan_number (s : string) : option string :=
  let body := default s (starts_with "-" s) in
  let whole :=
    match starts_with "0" body with
    | Some r => Some r
    | None => scan_digits body
    end in
  match whole with
  | None => None
  | Some r =>
    match scan_fraction r with
    | None => None
    | Some r' => scan_exponent r'
    end
  end.

Fixpoint scan_items (sv : string -> option string) (n : nat) (s : string) : option string :=
  match n with
  | O => None
  | S n =>
    match sv s with
    | None => None
    | Some r =>
      match skip_ws r with
      | String c r' =>
        if Ascii.eqb c "," then scan_items sv n r'
        else if Ascii.eqb c "]" then Some r'
        else None
      | "" => None
      end
    end
  end.

Fixpoint scan_members (sv : string -> option string) (n : nat) (s : string) : option string :=
  match n with
  | O => None
  | S n =>
    match skip_ws s with
    | String q r0 =>
      if Ascii.eqb q dquote then
        match scan_string r0 with
        | None => None
        | Some r1 =>
          match skip_ws r1 with
          | String colon r2 =>
            if Ascii.eqb colon ":" then
              match sv r2 with
              | None => None
              | Some r3 =>
                match skip_ws r3 with
                | String c r4 =>
                  if Ascii.eqb c "," then scan_members sv n r4
                  else if Ascii.eqb c "}" then Some r4
                  else None
                | "" => None
                end
              end
            else None
          | "" => None
          end
        end
      else None
    | "" => None
    end
  end.

Fixpoint scan_value (fuel : nat) (s : string) : option string :=
  match fuel with
  | O => None
  | S fuel =>
    match skip_ws s with
    | "" => None
    | String c r as s0 =>
      if Ascii.eqb c dquote then scan_string r
      else if Ascii.eqb c "n" then expect "ull" r
      else if Ascii.eqb c "t" then expect "rue" r
      else if Ascii.eqb c "f" then expect "alse" r
      else if Ascii.eqb c "[" then
        match starts_with "]" (skip_ws r) with
        | Some r' => Some r'
        | None => scan_items (scan_value fuel) fuel r
        end
      else if Ascii.eqb c "{" then
        match starts_with "}" (skip_ws r) with
        | Some r' => Some r'
        | None => scan_members (scan_value fuel) fuel r
        end
      else scan_number s0
    end
  end.

(** Whether [JSON.parse (text)] returns. *)
Definition accepts (text : string) : bool :=
  match scan_value (S (String.length text)) text with
  | Some r => String.eqb (skip_ws r) ""
  | None => false
  end.

(** The text after a number does not go on with a fraction or an
    exponent. *)
Definition number_end (s : string) : bool :=
  match s with
  | String c _ => negb (Ascii.eqb c "." || Ascii.eqb c "e" || Ascii.eqb c "E")
  | "" => true
  end.

End Json.

(** ** Data model: [Thread] and [Anthropic.MessageParam] *)

Inductive Role := user | assistant.

Inductive ContentBlock :=
| TextBlock (text : string)
| ToolUseBlock (id name : string) (input : Json.value)
| ToolResultBlock (tool_use_id content : string) (is_error : option bool).

(** [content: string | ContentBlock[]] *)
Inductive Content :=
| Text (s : string)
| Blocks (blocks : list ContentBlock).

Record MessageParam := { role : Role; content : Content }.

Record Thread := {
  threadTs : string;
  channel : string;
  messages : list MessageParam;
}.

Global Instance Role_eq_dec : EqDecision Role.
Proof. solve_decision. Defined.

(** [block.type] *)
Definition block_type (b : ContentBlock) : string :=
  match b with
  | TextBlock _ => "text"
  | ToolUseBlock _ _ _ => "tool_use"
  | ToolResultBlock _ _ _ => "tool_result"
  end.

Definition with_messages (msgs : list MessageParam) (t : Thread) : Thread :=
  {| threadTs := threadTs t; channel := channel t; messages := msgs |}.

(** *** The thread as the JS object that [JSON.stringify] walks *)

Import Json.

Definition role_to_json (r : Role) : value :=
  match r with user => JStr "user" | assistant => JStr "assistant" end.

Definition block_to_json (b : ContentBlock) : value :=
  match b with
  | TextBlock t => JObj [("type", JStr "text"); ("text", JStr t)]
  | ToolUseBlock i n input =>
    JObj [("type", JStr "tool_use"); ("id", JStr i); ("name", JStr n); ("input", input)]
  | ToolResultBlock i c e =>
    JObj ([("type", JStr "tool_result"); ("tool_use_id", JStr i); ("content", JStr c)]
          ++ match e with Some b => [("is_error", JBool b)] | None => [] end)
  end.

Definition content_to_json (c : Content) : value :=
  match c with
  | Text s => JStr s
  | Blocks bs => JArr (map block_to_json bs)
  end.

Definition message_to_json (m : MessageParam) : value :=
  JObj [("role", role_to_json (role m)); ("content", content_to_json (content m))].

Definition thread_to_json (t : Thread) : value :=
  JObj [("threadTs", JStr (threadTs t)); ("channel", JStr (channel t));
        ("messages", JArr (map message_to_json (messages t)))].

(** *** Reading a parsed value as a [Thread]

    [loadThread] returns what [JSON.parse] gives, typed [Thread] without a
    check.  [as_thread] is the property reads the program then performs;
    [None] means the value has another shape, which this model does not
    follow further. *)

(** A property read.  When the text repeated a key, the object [JSON.parse]
    built has the value of the last occurrence. *)
Fixpoint field (k : string) (members : list (string * value)) : option value :=
  match members with
  | [] => None
  | (k', v) :: rest =>
    match field k rest with
    | Some later => Some later
    | None => if String.eqb k' k then Some v else None
    end
  end.

Definition as_block (v : value) : option ContentBlock :=
  match v with
  | JObj ms =>
    match field "type" ms with
    | Some (JStr ty) =>
      if String.eqb ty "text" then
        match field "text" ms with
        | Some (JStr t) => Some (TextBlock t)
        | _ => None
        end
      else if String.eqb ty "tool_use" then
        match field "id" ms, field "name" ms, field "input" ms with
        | Some (JStr i), Some (JStr n), Some input => Some (ToolUseBlock i n input)
        | _, _, _ => None
        end
      else if String.eqb ty "tool_result" then
        match field "tool_use_id" ms, field "content" ms, field "is_error" ms with
        | Some (JStr i), Some (JStr c), None => Some (ToolResultBlock i c None)
        | Some (JStr i), Some (JStr c), Some (JBool b) => Some (ToolResultBlock i c (Some b))
        | _, _, _ => None
        end
      else None
    | _ => None
    end
  | _ => None
  end.

Definition as_role (v : value) : option Role :=
  match v with
  | JStr r =>
    if String.eqb r "user" then Some user
    else if String.eqb r "assistant" then Some assistant
    else None
  | _ => None
  end.

Definition as_content (v : value) : option Content :=
  match v with
  | JStr s => Some (Text s)
  | JArr items => Blocks <$> mapM as_block items
  | _ => None
  end.

Definition as_message (v : value) : option MessageParam :=
  match v with
  | JObj ms =>
    match field "role" ms, field "content" ms with
    | Some r, Some c =>
      match as_role r, as_content c with
      | Some r, Some c => Some {| role := r; content := c |}
      | _, _ => None
      end
    | _, _ => None
    end
  | _ => None
  end.

Definition as_thread (v : value) : option Thread :=
  match v with
  | JObj ms =>
    match field "threadTs" ms, field "channel" ms, field "messages" ms with
    | Some (JStr ts), Some (JStr ch), Some (JArr items) =>
      match mapM as_message items with
      | Some msgs => Some {| threadTs := ts; channel := ch; messages := msgs |}
      | None => None
      end
    | _, _, _ => None
    end
  | _ => None
  end.

(** ** Exceptions *)

Inductive Result (A : Type) :=
| Ok (a : A)
| Throw (message : string).
Arguments Ok {A} a.
Arguments Throw {A} message.

(** ** The disk: [fs.mkdirSync], [fs.writeFileSync], [fs.readFileSync]

    Conversation ids are Slack timestamps; they hold no path separator, and
    for such ids [path.resolve (threadsDir, id + ".json")] is the
    concatenation written here ([resolve_thread_file] below; with a
    separator in the id it is not, see [path_resolve_aliases]). *)

Record FS := {
  homedir : string;
  dirs : gset string;
  files : gmap string string;
}.

Definition configDir (fs : FS) : string := homedir fs +:+ "/.picobot".
Definition threadsDir (fs : FS) : string := configDir fs +:+ "/threads".
Definition thread_file (fs : FS) (threadTs : string) : string :=
  threadsDir fs +:+ "/" +:+ threadTs +:+ ".json".

(** What the device answers to one write. *)
Inductive Disk :=
| DiskOk
| DiskError (message : string).

Definition mkdirSync_recursive (fs : FS) : FS :=
  {| homedir := homedir fs;
     dirs := {[ configDir fs; threadsDir fs ]} ∪ dirs fs;
     files := files fs |}.

Definition writeFileSync (dir file data : string) (fs : FS) : Result FS :=
  if decide (dir ∈ dirs fs)
  then Ok {| homedir := homedir fs; dirs := dirs fs; files := <[file := data]> (files fs) |}
  else Throw "ENOENT: no such file or directory".

Definition saveThread (threadTs : string) (thread : Thread) (dev : Disk) (fs : FS)
  : Result FS :=
  match dev with
  | DiskError msg => Throw msg
  | DiskOk =>
    writeFileSync (threadsDir fs) (thread_file fs threadTs)
                  (stringify (thread_to_json thread))
                  (mkdirSync_recursive fs)
  end.

(** [undefined] when [readFileSync] throws (no such file) or [JSON.parse]
    throws (the text is not JSON). *)
Definition loadThread (threadTs : string) (fs : FS) : option value :=
  match files fs !! thread_file fs threadTs with
  | None => None
  | Some text => parse text
  end.

(** ** Paths: [path.resolve] on POSIX

    [configDir], [threadsDir] and [thread_file] above append where the
    program calls [path.resolve].  The two agree for a home directory in
    normal form and an id without a separator ([resolve_thread_file]); the
    function itself is given here to say so. *)

(** The pieces of a path between separators. *)
Fixpoint split_path (s : string) : list string :=
  match s with
  | "" => [""]
  | String c rest =>
    if Ascii.eqb c "/" then "" :: split_path rest
    else match split_path rest with
         | piece :: pieces => String c piece :: pieces
         | [] => [String c ""]
         end
  end.

(** One piece of [normalizeString] on an absolute path: an empty piece and
    ["."] are skipped, [".."] drops the piece before it, if there is one. *)
Definition normalize_step (kept : list string) (piece : string) : list string :=
  if String.eqb piece "" || String.eqb piece "." then kept
  else if String.eqb piece ".." then removelast kept
  else kept ++ [piece].

Definition is_absolute (p : string) : bool :=
  match p with
  | String c _ => Ascii.eqb c "/"
  | "" => false
  end.

(** The arguments of [path.resolve] from the right, up to and including the
    first absolute one, each followed by a separator; whether one was
    absolute. *)
Fixpoint resolve_join (paths : list string) : string * bool :=
  match paths with
  | [] => ("", false)
  | p :: rest =>
    let '(tail, absolute) := resolve_join rest in
    if absolute then (tail, true)
    else if String.eqb p "" then (tail, false)
    else (p +:+ "/" +:+ tail, is_absolute p)
  end.

(** [path.resolve (...paths)] in the working directory [cwd], which is
    absolute. *)
Definition path_resolve (cwd : string) (paths : list string) : string :=
  let '(joined, absolute) := resolve_join paths in
  let full := if absolute then joined else cwd +:+ "/" +:+ joined in
  String "/" (join "/" (foldl normalize_step [] (split_path full))).

Fixpoint has_separator (s : string) : bool :=
  match s with
  | "" => false
  | String c rest => Ascii.eqb c "/" || has_separator rest
  end.

(** A piece that normalisation keeps as it is. *)
Definition proper_piece (s : string) : Prop :=
  has_separator s = false ∧ s ≠ "" ∧ s ≠ "." ∧ s ≠ "..".

(** The home directory is an absolute path in normal form below the root, as
    [os.homedir ()] gives it: [path.resolve] returns it unchanged. *)
Definition normal_home (cwd : string) (fs : FS) : Prop :=
  path_resolve cwd [homedir fs] = homedir fs ∧ homedir fs ≠ "/".

(** ** Tools

    A tool hands its input to one primitive of the outside world.  What
    that primitive returns or throws for this input is the world's answer,
    given in [Outside].  Every failure of the four tools is an [Error]
    object, so the [e.message] read by the dispatcher is a string. *)

(** The error [child_process.execSync] throws: the result of [spawnSync]
    copied onto an [Error].  [status] is the exit code, [signal] the signal
    that ended the child, [code] the code of a spawn error (["ETIMEDOUT"]
    when the deadline killed the child, ["ENOBUFS"] when the output
    overflowed).  [killed] is the property line 144 reads, [None] when the
    error has no such property. *)
Record ExecError := {
  stdout : option string;
  stderr : option string;
  status : option Z;
  signal : option string;
  code : option string;
  killed : option bool;
  message : string;
}.

(** The result of [spawnSync] has [pid], [output], [stdout], [stderr],
    [status], [signal] and [error], and the error of a spawn failure has
    [code], [errno], [syscall], [path] and [spawnargs]: the error [execSync]
    throws never has a [killed] property.  (That property belongs to the
    error of the asynchronous [exec].) *)
Definition thrown_by_execSync (e : ExecError) : Prop := killed e = None.

(** The child was killed at the deadline. *)
Definition deadline_exceeded (e : ExecError) : Prop := code e = Some "ETIMEDOUT".

Inductive ExecSync :=
| Exited (output : string)
| Failed (e : ExecError).

(** The options object passed to [execSync]. *)
Record ExecOptions := {
  timeout : Z;       (* milliseconds *)
  maxBuffer : Z;     (* bytes *)
  encoding : string;
}.

(** What the outside world answers to the one primitive a tool calls. *)
Record Outside := {
  chat_postMessage : Result unit;
  fs_readFileSync : Result string;
  fs_writeFileSync : Result unit;
  child_execSync : ExecOptions -> ExecSync;
}.

Record Tool := {
  name : string;
  execute : value -> Outside -> Result string;
}.

(** JS truthiness of a string, [Boolean (s)]. *)
Definition Boolean (s : string) : bool := negb (String.eqb s "").

Definition truthy (o : option string) : bool :=
  match o with
  | Some s => Boolean s
  | None => false
  end.

Definition send_slack_message (input : value) (o : Outside) : Result string :=
  match chat_postMessage o with
  | Ok _ => Ok "Message sent."
  | Throw msg => Throw msg
  end.

Definition read_file (input : value) (o : Outside) : Result string :=
  fs_readFileSync o.

Definition write_file (input : value) (o : Outside) : Result string :=
  match fs_writeFileSync o with
  | Ok _ => Ok "File written."
  | Throw msg => Throw msg
  end.

Definition exec_options : ExecOptions :=
  {| timeout := 120000; maxBuffer := 1024 * 1024; encoding := "utf-8" |}.

Definition execute_bash (input : value) (o : Outside) : Result string :=
  match child_execSync o exec_options with
  | Exited output => Ok (if Boolean output then output else "(no output)")
  | Failed e =>
    let parts :=
      List.filter Boolean
        [ if truthy (stdout e) then "stdout:" +:+ NL +:+ default "" (stdout e) else "";
          if truthy (stderr e) then "stderr:" +:+ NL +:+ default "" (stderr e) else "";
          if default false (killed e) then "Error: command timed out" else "" ] in
    Ok (if (0 <? length parts)%nat then join NL parts else "Error: " +:+ message e)
  end.

Definition createTools (channel threadTs : string) : list Tool :=
  [ {| name := "send_slack_message"; execute := send_slack_message |};
    {| name := "read_file"; execute := read_file |};
    {| name := "write_file"; execute := write_file |};
    {| name := "execute_bash"; execute := execute_bash |} ].

(** [new Map (tools.map (t => [t.name, t]))]: a later entry replaces an
    earlier one of the same name. *)
Definition toolsByName (tools : list Tool) : gmap string Tool :=
  foldl (fun m t => <[name t := t]> m) ∅ tools.

(** ** The generation round *)

Inductive ProviderReply :=
| Responded (content : list ContentBlock)
| Rejected (message : string).

(** The body of the [for] loop for one [tool_use] block: the [try] and its
    [catch]. *)
Definition run_tool_use (tools : gmap string Tool) (o : Outside)
    (id name : string) (input : value) : ContentBlock :=
  let attempt :=
    match tools !! name with
    | None => Throw ("tool " +:+ String dquote name +:+ String dquote " not found")
    | Some tool => execute tool input o
    end in
  match attempt with
  | Ok result => ToolResultBlock id result None
  | Throw msg => ToolResultBlock id ("Error: " +:+ msg) (Some true)
  end.

(** [toolResults] after the loop over [response.content]; [outside k] is the
    world as the [k]-th call of the round finds it. *)
Fixpoint tool_results (tools : gmap string Tool) (outside : nat -> Outside) (k : nat)
    (content : list ContentBlock) : list ContentBlock :=
  match content with
  | [] => []
  | ToolUseBlock id name input :: rest =>
    run_tool_use tools (outside k) id name input
    :: tool_results tools outside (S k) rest
  | _ :: rest => tool_results tools outside k rest
  end.

Definition generateMessages (channel threadTs : string) (messages : list MessageParam)
    (reply : ProviderReply) (outside : nat -> Outside) : Result (list MessageParam) :=
  match reply with
  | Rejected msg => Throw msg
  | Responded content =>
    let tools := createTools channel threadTs in
    let toolResults := tool_results (toolsByName tools) outside 0 content in
    let messages := messages ++ [ {| role := assistant; content := Blocks content |} ] in
    Ok (if (0 <? length toolResults)%nat
        then messages ++ [ {| role := user; content := Blocks toolResults |} ]
        else messages)
  end.

(** ** The mailbox: [pendingUserMessages] *)

(** Lines 287-292 of the message handler: get, push, set. *)
Definition enqueue (threadTs : string) (m : MessageParam)
    (pend : gmap string (list MessageParam)) : gmap string (list MessageParam) :=
  <[threadTs := default [] (pend !! threadTs) ++ [m]]> pend.

(** Lines 232-234 of the loop: get, then delete. *)
Definition drainAndClear (threadTs : string) (pend : gmap string (list MessageParam))
  : list MessageParam * gmap string (list MessageParam) :=
  (default [] (pend !! threadTs), delete threadTs pend).

(** ** The scheduler *)

(** A loop suspended at [await generateMessages (...)], with its locals. *)
Record Task := {
  task_threadTs : string;
  task_channel : string;
  task_thread : Thread;
}.

Record State := {
  SLACK_USER_ID : option string;
  activeThreadLoops : gset string;
  pendingUserMessages : gmap string (list MessageParam);
  disk : FS;
  (** the loops waiting for their generation round *)
  awaiting : list Task;
  (** every request sent to the provider so far, oldest first *)
  requests : list (string * list MessageParam);
}.

Definition set_active (a : gset string) (st : State) : State :=
  {| SLACK_USER_ID := SLACK_USER_ID st; activeThreadLoops := a;
     pendingUserMessages := pendingUserMessages st; disk := disk st;
     awaiting := awaiting st; requests := requests st |}.

Definition set_pending (p : gmap string (list MessageParam)) (st : State) : State :=
  {| SLACK_USER_ID := SLACK_USER_ID st; activeThreadLoops := activeThreadLoops st;
     pendingUserMessages := p; disk := disk st;
     awaiting := awaiting st; requests := requests st |}.

Definition set_disk (fs : FS) (st : State) : State :=
  {| SLACK_USER_ID := SLACK_USER_ID st; activeThreadLoops := activeThreadLoops st;
     pendingUserMessages := pendingUserMessages st; disk := fs;
     awaiting := awaiting st; requests := requests st |}.

Definition set_awaiting (ts : list Task) (st : State) : State :=
  {| SLACK_USER_ID := SLACK_USER_ID st; activeThreadLoops := activeThreadLoops st;
     pendingUserMessages := pendingUserMessages st; disk := disk st;
     awaiting := ts; requests := requests st |}.

Definition log_request (threadTs : string) (msgs : list MessageParam) (st : State) : State :=
  {| SLACK_USER_ID := SLACK_USER_ID st; activeThreadLoops := activeThreadLoops st;
     pendingUserMessages := pendingUserMessages st; disk := disk st;
     awaiting := awaiting st; requests := requests st ++ [(threadTs, msgs)] |}.

(** The test of lines 238-242 on [lastMessage]. *)
Definition loop_done (lastMessage : MessageParam) : bool :=
  match role lastMessage, content lastMessage with
  | assistant, Blocks blocks =>
    negb (existsb (fun block => String.eqb (block_type block) "tool_result") blocks)
  | _, _ => false
  end.

(** How one pass over lines 226-244 ends. *)
Inductive PassEnd :=
| Break
| TypeError                   (* [lastMessage] is [undefined]; reading [.role] throws *)
| Generate (thread : Thread). (* go on to [generateMessages] with this thread *)

(** Line 226: [loadThread (threadTs) ?? { threadTs, channel, messages: [] }],
    read as a [Thread]. *)
Definition load_or_fresh (threadTs channel : string) (fs : FS) : option Thread :=
  match loadThread threadTs fs with
  | None | Some JNull =>
    Some {| threadTs := threadTs; channel := channel; messages := [] |}
  | Some v => as_thread v
  end.

(** Lines 226-244: load, merge the mailbox, test the last message. *)
Definition loop_head (threadTs channel : string) (st : State) : option (State * PassEnd) :=
  thread ← load_or_fresh threadTs channel (disk st);
  let '(pending, rest) := drainAndClear threadTs (pendingUserMessages st) in
  let thread := with_messages (messages thread ++ pending) thread in
  let st := set_pending rest st in
  Some (st,
        match last (messages thread) with
        | None => TypeError
        | Some lastMessage => if loop_done lastMessage then Break else Generate thread
        end).

(** The [finally] block. *)
Definition finally (threadTs : string) (st : State) : State :=
  set_active (activeThreadLoops st ∖ {[threadTs]}) st.

(** How a call or a resumption of [runThreadLoop] leaves the loop. *)
Inductive Outcome :=
| Skipped                    (* a loop was already active: immediate return *)
| Finished                   (* [break], then [finally] *)
| Threw (message : string)   (* an exception left the loop through [finally] *)
| Suspended.                 (* waiting for the provider *)

(** From the top of the [while] body to the next suspension or to the exit. *)
Definition loop_from_head (threadTs channel : string) (st : State)
  : option (State * Outcome) :=
  '(st, c) ← loop_head threadTs channel st;
  Some match c with
       | Break => (finally threadTs st, Finished)
       | TypeError =>
         (finally threadTs st, Threw "Cannot read properties of undefined (reading 'role')")
       | Generate thread =>
         (set_awaiting
            (awaiting st ++ [ {| task_threadTs := threadTs; task_channel := channel;
                                 task_thread := thread |} ])
            (log_request threadTs (messages thread) st),
          Suspended)
       end.

Definition runThreadLoop (threadTs channel : string) (st : State)
  : option (State * Outcome) :=
  if decide (threadTs ∈ activeThreadLoops st) then Some (st, Skipped)
  else loop_from_head threadTs channel (set_active ({[threadTs]} ∪ activeThreadLoops st) st).

(** The rest of the [while] body once the provider has answered: the tool
    calls, [saveThread], and the next pass from the top.  Between the answer
    and the save the program touches neither the mailbox nor the active set,
    so that stretch is one step here. *)
Definition resume (t : Task) (reply : ProviderReply) (outside : nat -> Outside)
    (dev : Disk) (st : State) : option (State * Outcome) :=
  let threadTs := task_threadTs t in
  match generateMessages (task_channel t) threadTs (messages (task_thread t)) reply outside with
  | Throw msg => Some (finally threadTs st, Threw msg)
  | Ok messages =>
    match saveThread threadTs (with_messages messages (task_thread t)) dev (disk st) with
    | Throw msg => Some (finally threadTs st, Threw msg)
    | Ok fs => loop_from_head threadTs (task_channel t) (set_disk fs st)
    end
  end.

(** ** The message handler and the events of a run *)

Record SlackEvent := {
  subtype : option string;
  channel_type : string;
  ev_channel : string;
  thread_ts : option string;
  ts : string;
  ev_user : string;
  ev_text : string;
}.

Definition inbound (ev : SlackEvent) : MessageParam :=
  {| role := user;
     content :=
       Text ("User <@" +:+ ev_user ev +:+ "> sent this message (timestamp: " +:+ ts ev
             +:+ ") in Slack:" +:+ NL +:+ "```" +:+ NL +:+ ev_text ev +:+ NL +:+ "```"
             +:+ NL +:+ NL +:+ "You must respond using the `send_slack_message` tool.") |}.

(** [app.event ("message", ...)]; [setStatus_ok] tells whether the awaited
    typing indicator call resolved. *)
Definition on_message (ev : SlackEvent) (setStatus_ok : bool) (st : State)
  : option State :=
  if truthy (subtype ev) || negb (String.eqb (channel_type ev) "im") then Some st
  else if negb (bool_decide (Some (ev_user ev) = SLACK_USER_ID st)) then Some st
  else if negb setStatus_ok then Some st
  else
    let threadTs := default (ts ev) (thread_ts ev) in
    let st := set_pending (enqueue threadTs (inbound ev) (pendingUserMessages st)) st in
    fst <$> runThreadLoop threadTs (ev_channel ev) st.

Inductive Event :=
| Message (ev : SlackEvent) (setStatus_ok : bool)
| Trigger (threadTs channel : string)
| Settle (k : nat) (reply : ProviderReply) (outside : nat -> Outside) (dev : Disk).

(** One uninterrupted segment of the program.  [Settle k] resumes the
    [k]-th suspended loop. *)
Definition resume_at (k : nat) (reply : ProviderReply) (outside : nat -> Outside)
    (dev : Disk) (st : State) : option (State * Outcome) :=
  match awaiting st !! k with
  | None => Some (st, Skipped)
  | Some t => resume t reply outside dev (set_awaiting (delete k (awaiting st)) st)
  end.

Definition step (e : Event) (st : State) : option State :=
  match e with
  | Message ev ok => on_message ev ok st
  | Trigger threadTs channel => fst <$> runThreadLoop threadTs channel st
  | Settle k reply outside dev => fst <$> resume_at k reply outside dev st
  end.

Fixpoint run (events : list Event) (st : State) : option State :=
  match events with
  | [] => Some st
  | e :: rest => st' ← step e st; run rest st'
  end.

(** The process at start-up: both module-level collections are empty. *)
Definition boot (uid : option string) (fs : FS) : State :=
  {| SLACK_USER_ID := uid; activeThreadLoops := ∅; pendingUserMessages := ∅;
     disk := fs; awaiting := []; requests := [] |}.

(** ** Vocabulary of the specification *)

(** The [tool_use] blocks of a response, in the order the model issued them. *)
Fixpoint tool_uses (content : list ContentBlock) : list (string * string * value) :=
  match content with
  | [] => []
  | ToolUseBlock id name input :: rest => (id, name, input) :: tool_uses rest
  | _ :: rest => tool_uses rest
  end.

(** The call a [tool_result] block answers. *)
Definition answers (b : ContentBlock) : option string :=
  match b with
  | ToolResultBlock id _ _ => Some id
  | _ => None
  end.

Definition has_tool_call (m : MessageParam) : bool :=
  match content m with
  | Text _ => false
  | Blocks blocks => existsb (fun b => String.eqb (block_type b) "tool_use") blocks
  end.

(** Section 4.3 of the specification: the last message has role assistant
    and holds no tool call left unanswered.  Nothing follows the last
    message, so each of its tool calls is unanswered. *)
Definition turn_complete (msgs : list MessageParam) : bool :=
  match last msgs with
  | Some m => bool_decide (role m = assistant) && negb (has_tool_call m)
  | None => false
  end.

(** [part] occurs in [s]. *)
Definition occurs_in (part s : string) : Prop :=
  exists before after, s = before +:+ part +:+ after.

(** The same, as a test. *)
Fixpoint contains (part s : string) : bool :=
  String.prefix part s
  || match s with
     | String _ s' => contains part s'
     | "" => false
     end.

(** Operations on the mailbox, for stating its queue discipline. *)
Inductive MailOp :=
| Enq (threadTs : string) (m : MessageParam)
| Drain (threadTs : string).

(** Runs the operations; returns what each drain handed over, oldest first. *)
Fixpoint mailbox_run (ops : list MailOp) (pend : gmap string (list MessageParam))
  : list (string * list MessageParam) * gmap string (list MessageParam) :=
  match ops with
  | [] => ([], pend)
  | Enq id m :: rest => mailbox_run rest (enqueue id m pend)
  | Drain id :: rest =>
    let '(got, pend') := drainAndClear id pend in
    let '(log, final) := mailbox_run rest pend' in
    ((id, got) :: log, final)
  end.

Definition enqueued_for (id : string) (ops : list MailOp) : list MessageParam :=
  flat_map (fun op => match op with
                      | Enq id' m => if decide (id' = id) then [m] else []
                      | Drain _ => []
                      end) ops.

Definition drained_for (id : string) (log : list (string * list MessageParam))
  : list MessageParam :=
  flat_map (fun e => if decide (fst e = id) then snd e else []) log.

(** ** Vocabulary of the scheduler's state machine *)

Definition task_ids (st : State) : list string := map task_threadTs (awaiting st).

(** At most one loop per conversation: no two suspended loops share an id,
    and the active set is exactly the set of ids with a loop. *)
Definition single_flight (st : State) : Prop :=
  NoDup (task_ids st) ∧ forall id, id ∈ activeThreadLoops st <-> id ∈ task_ids st.

(** The loop has left the [while] and passed through [finally]. *)
Definition exits (o : Outcome) : Prop := o = Finished ∨ exists msg, o = Threw msg.

(** The conversation an event belongs to. *)
Definition event_thread (e : Event) (st : State) : option string :=
  match e with
  | Message ev _ => Some (default (ts ev) (thread_ts ev))
  | Trigger id _ => Some id
  | Settle k _ _ _ => task_threadTs <$> awaiting st !! k
  end.

(** All the state there is about one conversation. *)
Record View := {
  view_active : bool;
  view_pending : option (list MessageParam);
  view_record : option string;
  view_tasks : list Task;
  view_requests : list (string * list MessageParam);
}.

Definition view (id : string) (st : State) : View :=
  {| view_active := bool_decide (id ∈ activeThreadLoops st);
     view_pending := pendingUserMessages st !! id;
     view_record := files (disk st) !! thread_file (disk st) id;
     view_tasks := List.filter (fun t => bool_decide (task_threadTs t = id)) (awaiting st);
     view_requests := List.filter (fun r => bool_decide (r.1 = id)) (requests st) |}.

(** Every record on the disk is missing, not JSON, or a thread. *)
Definition readable (fs : FS) : Prop :=
  forall id ch, is_Some (load_or_fresh id ch fs).

(** ** Concrete threads, events and worlds *)

Definition bot_home : FS :=
  {| homedir := "/home/bot"; dirs := ∅; files := ∅ |}.

Definition store (id : string) (t : Thread) (fs : FS) : FS :=
  {| homedir := homedir fs; dirs := {[ threadsDir fs ]} ∪ dirs fs;
     files := <[thread_file fs id := stringify (thread_to_json t)]> (files fs) |}.

(** A stored thread whose last message is an assistant message with a tool
    call that nothing answers. *)
Definition dangling_call : Thread :=
  {| threadTs := "17.5"; channel := "D1";
     messages :=
       [ {| role := user; content := Text "list the files" |};
         {| role := assistant;
            content := Blocks [ TextBlock "Let me look.";
                                ToolUseBlock "t1" "execute_bash"
                                             (JObj [("command", JStr "ls")]) ] |} ] |}.

(** A stored thread whose last message is an assistant message in plain
    text. *)
Definition plain_answer : Thread :=
  {| threadTs := "17.5"; channel := "D1";
     messages :=
       [ {| role := user; content := Text "hello" |};
         {| role := assistant; content := Text "Hello!" |} ] |}.

(** A record cut short by an interrupted write: the beginning of the record
    of conversation 17.5. *)
Definition truncated_record : string :=
  "{" +:+ NL +:+ "  " +:+ String dquote "threadTs" +:+ String dquote ": "
  +:+ String dquote "17".

Definition truncated : FS :=
  {| homedir := "/home/bot"; dirs := {[ "/home/bot/.picobot/threads" ]};
     files := {[ "/home/bot/.picobot/threads/17.5.json" := truncated_record ]} |}.

Definition hello : SlackEvent :=
  {| subtype := None; channel_type := "im"; ev_channel := "D1"; thread_ts := None;
     ts := "17.5"; ev_user := "U1"; ev_text := "hi" |}.

Definition again : SlackEvent :=
  {| subtype := None; channel_type := "im"; ev_channel := "D1"; thread_ts := Some "17.5";
     ts := "18.1"; ev_user := "U1"; ev_text := "are you there?" |}.

(** Start-up followed by the handler's enqueue of [hello]. *)
Definition queued : State :=
  set_pending (enqueue "17.5" (inbound hello) ∅) (boot (Some "U1") bot_home).

Definition quiet : Outside :=
  {| chat_postMessage := Ok tt; fs_readFileSync := Throw "ENOENT";
     fs_writeFileSync := Ok tt; child_execSync := fun _ => Exited "" |}.

Definition says_hello : Outside :=
  {| chat_postMessage := Ok tt; fs_readFileSync := Throw "ENOENT";
     fs_writeFileSync := Ok tt; child_execSync := fun _ => Exited ("hello" +:+ NL) |}.

Definition exits_nonzero : Outside :=
  {| chat_postMessage := Ok tt; fs_readFileSync := Throw "ENOENT";
     fs_writeFileSync := Ok tt;
     child_execSync := fun _ =>
       Failed {| stdout := Some ""; stderr := Some ""; status := Some 1%Z;
                 signal := None; code := None; killed := None;
                 message := "Command failed: false" |} |}.

(** [execSync] of a command that prints ["partial"] and then outlives the
    deadline: the child is killed with SIGTERM. *)
Definition timed_out : Outside :=
  {| chat_postMessage := Ok tt; fs_readFileSync := Throw "ENOENT";
     fs_writeFileSync := Ok tt;
     child_execSync := fun _ =>
       Failed {| stdout := Some "partial"; stderr := Some ""; status := None;
                 signal := Some "SIGTERM"; code := Some "ETIMEDOUT"; killed := None;
                 message := "spawnSync /bin/sh ETIMEDOUT" |} |}.

Create HintDb occurs.

(** ** Vocabulary of the handler and of whole runs *)

(** The handler lets the event through to the mailbox: no subtype, a direct
    message, the configured user, and the typing indicator call resolved. *)
Definition accepted (uid : option string) (ev : SlackEvent) (setStatus_ok : bool) : bool :=
  negb (truthy (subtype ev)) && String.eqb (channel_type ev) "im"
  && bool_decide (Some (ev_user ev) = uid) && setStatus_ok.

(** [event.thread_ts ?? event.ts] *)
Definition conversation (ev : SlackEvent) : string := default (ts ev) (thread_ts ev).

(** The messages of the record of a conversation, none for a missing one. *)
Definition stored_messages (id : string) (fs : FS) : option (list MessageParam) :=
  messages <$> load_or_fresh id "" fs.

(** The state after the handler accepted [hello] at start-up: the loop of
    conversation 17.5 waits for its first round. *)
Definition waiting : State :=
  default (boot (Some "U1") bot_home) (on_message hello true (boot (Some "U1") bot_home)).

(** The message leaves no tool call open: it is a user message, or an
    assistant message without a [tool_use] block. *)
Definition answered (m : MessageParam) : bool :=
  match role m with
  | user => true
  | assistant => negb (has_tool_call m)
  end.

(** A sequence that does not end in an open tool call. *)
Definition settled (msgs : list MessageParam) : bool :=
  match last msgs with
  | Some m => answered m
  | None => true
  end.

(** Every record on the disk that reads as a thread is settled. *)
Definition settled_store (fs : FS) : Prop :=
  forall id ch th, load_or_fresh id ch fs = Some th -> settled (messages th) = true.

(** Every queued message was built by the handler. *)
Definition inbound_only (pend : gmap string (list MessageParam)) : Prop :=
  forall id q m, pend !! id = Some q -> m ∈ q -> exists ev, m = inbound ev.


(** The plain-text messages of a sequence: the ones the handler builds. *)
Definition is_text (m : MessageParam) : bool :=
  match content m with
  | Text _ => true
  | Blocks _ => false
  end.

Definition texts (msgs : list MessageParam) : list MessageParam := List.filter is_text msgs.

(** The suspended loop of a conversation, if there is one. *)
Definition task_of (id : string) (st : State) : option Task :=
  List.find (fun t => bool_decide (task_threadTs t = id)) (awaiting st).

(** All the program holds of a conversation: the thread of its loop when one
    is in flight and the stored messages otherwise, followed by its
    mailbox. *)
Definition history (id : string) (st : State) : option (list MessageParam) :=
  base ← match task_of id st with
         | Some t => Some (messages (task_thread t))
         | None => stored_messages id (disk st)
         end;
  Some (base ++ default [] (pendingUserMessages st !! id)).

(** The messages the handler accepts for a conversation in a run, in order
    of arrival. *)
Definition arrivals (uid : option string) (id : string) (events : list Event)
  : list MessageParam :=
  flat_map (fun e => match e with
                     | Message ev ok =>
                       if accepted uid ev ok && bool_decide (conversation ev = id)
                       then [inbound ev] else []
                     | _ => []
                     end) events.

(** The event is not a round that fails. *)
Definition no_failure (e : Event) : Prop :=
  match e with
  | Settle _ (Rejected _) _ _ => False
  | Settle _ _ _ (DiskError _) => False
  | _ => True
  end.


(** A conversation without a loop has nothing in the mailbox. *)
Definition idle_mailbox_empty (st : State) : Prop :=
  forall id, id ∉ activeThreadLoops st -> pendingUserMessages st !! id = None.

(** ** The handler without a loop

    [src/unnamed/part_000], lines 1-190: the step before the agent loop.
    The record functions are the same; there is one tool, no mailbox and no
    loop: the handler loads the thread, sends it with the new message to
    the provider, and saves what comes back. *)
Module Direct.

Definition createTools (channel threadTs : string) : list Tool :=
  [ {| name := "send_slack_message"; execute := send_slack_message |} ].

Definition generateMessages (channel threadTs : string) (messages : list MessageParam)
    (reply : ProviderReply) (outside : nat -> Outside) : Result (list MessageParam) :=
  match reply with
  | Rejected msg => Throw msg
  | Responded content =>
    let tools := createTools channel threadTs in
    let toolResults := tool_results (toolsByName tools) outside 0 content in
    let messages := messages ++ [ {| role := assistant; content := Blocks content |} ] in
    Ok (if (0 <? length toolResults)%nat
        then messages ++ [ {| role := user; content := Blocks toolResults |} ]
        else messages)
  end.

(** A handler suspended in the provider call: the thread it loaded and the
    messages it sent. *)
Record Call := {
  call_threadTs : string;
  call_channel : string;
  call_thread : Thread;
  call_messages : list MessageParam;
}.

(** Lines 141-172, up to the provider call.  [Some None]: the handler
    returned before loading. *)
Definition on_message_start (uid : option string) (ev : SlackEvent) (setStatus_ok : bool)
    (fs : FS) : option (option Call) :=
  if truthy (subtype ev) || negb (String.eqb (channel_type ev) "im") then Some None
  else if negb (bool_decide (Some (ev_user ev) = uid)) then Some None
  else if negb setStatus_ok then Some None
  else
    let threadTs := default (ts ev) (thread_ts ev) in
    thread ← load_or_fresh threadTs (ev_channel ev) fs;
    Some (Some {| call_threadTs := threadTs; call_channel := ev_channel ev;
                  call_thread := thread;
                  call_messages := messages thread ++ [inbound ev] |}).

(** Lines 172-186: the provider's answer, the tool calls, the save. *)
Definition on_message_finish (c : Call) (reply : ProviderReply) (outside : nat -> Outside)
    (dev : Disk) (fs : FS) : Result FS :=
  match generateMessages (call_channel c) (call_threadTs c) (call_messages c) reply outside with
  | Throw msg => Throw msg
  | Ok messages => saveThread (call_threadTs c) (with_messages messages (call_thread c)) dev fs
  end.

End Direct.

(** * Properties *)

(** ** Strings *)

Lemma append_assoc (a b c : string) : (a +:+ b) +:+ c = a +:+ (b +:+ c).
Proof. induction a as [|x a IH]; simpl; [reflexivity | now rewrite IH]. Qed.

Lemma append_empty_r (a : string) : a +:+ "" = a.
Proof. induction a as [|x a IH]; simpl; [reflexivity | now rewrite IH]. Qed.

Lemma length_append (a b : string) :
  String.length (a +:+ b) = String.length a + String.length b.
Proof. induction a as [|x a IH]; simpl; [reflexivity | now rewrite IH]. Qed.

Lemma occurs_in_intro (before part after : string) :
  occurs_in part (before +:+ part +:+ after).
Proof. now exists before, after. Qed.

Lemma Boolean_true (s : string) : Boolean s = true <-> s ≠ "".
Proof. destruct s; cbv; split; intros; congruence. Qed.

(** ** The generation round *)

Lemma run_tool_use_answers (tools : gmap string Tool) (o : Outside) id nm input :
  answers (run_tool_use tools o id nm input) = Some id.
Proof.
  unfold run_tool_use.
  destruct (tools !! nm) as [t|]; [destruct (execute t input o)|]; reflexivity.
Qed.

Section GenerationRound.

Variables (tools : gmap string Tool) (outside : nat -> Outside).

Lemma tool_results_answers (content : list ContentBlock) (k : nat) :
  map answers (tool_results tools outside k content)
  = map (fun u => Some u.1.1) (tool_uses content).
Proof.
  revert k. induction content as [|b content IH]; intros k; [reflexivity|].
  destruct b; simpl; rewrite ?IH, ?run_tool_use_answers; reflexivity.
Qed.

Lemma tool_results_length (content : list ContentBlock) (k : nat) :
  length (tool_results tools outside k content) = length (tool_uses content).
Proof.
  rewrite <- (length_map answers), tool_results_answers. apply length_map.
Qed.

(** Each call is dispatched on its own: the [j]-th result is the body of
    the loop run on the [j]-th call, whatever the other calls did. *)
Lemma tool_results_lookup (content : list ContentBlock) (k j : nat) id nm input :
  tool_uses content !! j = Some (id, nm, input) ->
  tool_results tools outside k content !! j
  = Some (run_tool_use tools (outside (k + j)) id nm input).
Proof.
  revert k j. induction content as [|b content IH]; intros k j H; [discriminate|].
  destruct b; simpl in *; try now apply IH.
  destruct j as [|j]; simpl in *.
  - injection H as -> -> ->. now rewrite Nat.add_0_r.
  - rewrite (IH (S k) j H). do 3 f_equal. lia.
Qed.

End GenerationRound.

Lemma toolsByName_acc (tools : list Tool) (acc : gmap string Tool) (nm : string) :
  foldl (fun m t => <[name t := t]> m) acc tools !! nm = None
  <-> acc !! nm = None ∧ nm ∉ map name tools.
Proof.
  revert acc. induction tools as [|t tools IH]; intros acc; simpl.
  - split; [intros H; split; [exact H | apply not_elem_of_nil] | tauto].
  - rewrite IH, lookup_insert_None, not_elem_of_cons. intuition congruence.
Qed.

Lemma toolsByName_unknown (tools : list Tool) (nm : string) :
  toolsByName tools !! nm = None <-> nm ∉ map name tools.
Proof.
  unfold toolsByName. rewrite toolsByName_acc, lookup_empty. tauto.
Qed.

Lemma registry_execute_bash (ch ts : string) :
  toolsByName (createTools ch ts) !! "execute_bash"
  = Some {| name := "execute_bash"; execute := execute_bash |}.
Proof. reflexivity. Qed.

Lemma generateMessages_responded (ch ts : string) (msgs : list MessageParam)
    (content : list ContentBlock) (outside : nat -> Outside) :
  generateMessages ch ts msgs (Responded content) outside
  = Ok (msgs ++ {| role := assistant; content := Blocks content |}
          :: (if decide (tool_uses content = []) then []
              else [ {| role := user;
                        content := Blocks (tool_results (toolsByName (createTools ch ts))
                                                        outside 0 content) |} ])).
Proof.
  unfold generateMessages.
  set (results := tool_results (toolsByName (createTools ch ts)) outside 0 content).
  pose proof (tool_results_length (toolsByName (createTools ch ts)) outside content 0) as Hlen.
  fold results in Hlen. f_equal.
  destruct (decide (tool_uses content = [])) as [E|E].
  - rewrite E in Hlen. simpl in Hlen. rewrite Hlen. reflexivity.
  - destruct (tool_uses content) as [|u us]; [congruence|].
    rewrite Hlen. simpl. now rewrite <- app_assoc.
Qed.

(** C4.  For every provider response the round returns the given sequence
    extended by exactly one assistant message holding the response's blocks
    as they came, followed, exactly when the response has a tool call, by one
    user message whose blocks are tool results answering the calls one for
    one in the order of issue.  The round writes nothing to the disk: when
    the write that follows it is refused, the disk is as it was. *)
Theorem generation_round_appends (ch ts : string) (msgs : list MessageParam)
    (content : list ContentBlock) (outside : nat -> Outside) :
  let results := tool_results (toolsByName (createTools ch ts)) outside 0 content in
  generateMessages ch ts msgs (Responded content) outside
  = Ok (msgs ++ {| role := assistant; content := Blocks content |}
          :: (if decide (tool_uses content = []) then []
              else [ {| role := user; content := Blocks results |} ]))
  ∧ map answers results = map (fun u => Some u.1.1) (tool_uses content)
  ∧ length results = length (tool_uses content)
  ∧ (forall (t : Task) (st : State) (msg : string),
       exists st' o, resume t (Responded content) outside (DiskError msg) st = Some (st', o)
                     ∧ disk st' = disk st).
Proof.
  intros results. split; [|split; [|split]].
  - apply generateMessages_responded.
  - apply tool_results_answers.
  - apply tool_results_length.
  - intros t st msg. unfold resume. simpl.
    eexists _, _. split; [reflexivity|]. reflexivity.
Qed.

(** C5.  A call whose tool is not registered, or whose tool throws, yields
    at its own position an error result carrying the failure's message (for
    an unknown tool the message names it).  The round still returns, and every
    other call of the response gets the result of its own dispatch. *)
Theorem tool_failure_is_local (ch ts : string) (msgs : list MessageParam)
    (content : list ContentBlock) (outside : nat -> Outside)
    (k : nat) (id nm : string) (input : value) (msg : string) :
  let tools := toolsByName (createTools ch ts) in
  tool_uses content !! k = Some (id, nm, input) ->
  (tools !! nm = None
     ∧ msg = "tool " +:+ String dquote nm +:+ String dquote " not found")
  ∨ (exists tool, tools !! nm = Some tool ∧ execute tool input (outside k) = Throw msg) ->
  tool_results tools outside 0 content !! k
  = Some (ToolResultBlock id ("Error: " +:+ msg) (Some true))
  ∧ occurs_in msg ("Error: " +:+ msg)
  ∧ (tools !! nm = None -> occurs_in nm msg)
  ∧ (exists out, generateMessages ch ts msgs (Responded content) outside = Ok out
                 ∧ last out = Some {| role := user;
                                      content := Blocks (tool_results tools outside 0 content) |})
  ∧ (forall j id' nm' input', tool_uses content !! j = Some (id', nm', input') ->
       tool_results tools outside 0 content !! j
       = Some (run_tool_use tools (outside j) id' nm' input')).
Proof.
  intros tools Hk Hfail.
  assert (Hall : forall j id' nm' input', tool_uses content !! j = Some (id', nm', input') ->
       tool_results tools outside 0 content !! j
       = Some (run_tool_use tools (outside j) id' nm' input')).
  { intros j id' nm' input' Hj. apply (tool_results_lookup tools outside content 0 j), Hj. }
  split; [|split; [|split; [|split]]]; [| | | |exact Hall].
  - rewrite (Hall _ _ _ _ Hk). f_equal. unfold run_tool_use.
    destruct Hfail as [[-> ->]|[tool [-> ->]]]; reflexivity.
  - exists "Error: ", "". now rewrite append_empty_r.
  - intros Hnone. destruct Hfail as [[_ ->]|[tool [Hsome _]]]; [|congruence].
    exists ("tool " +:+ String dquote ""), (String dquote " not found").
    reflexivity.
  - rewrite generateMessages_responded. eexists; split; [reflexivity|].
    destruct (decide (tool_uses content = [])) as [E|E]; [now rewrite E in Hk|].
    change (?a :: [?b]) with ([a] ++ [b]). now rewrite app_assoc, last_snoc.
Qed.

Lemma tool_failure_is_local_witness :
  tool_results (toolsByName (createTools "D1" "17.5"))
               (fun _ => {| chat_postMessage := Ok tt; fs_readFileSync := Throw "ENOENT";
                            fs_writeFileSync := Ok tt;
                            child_execSync := fun _ => Exited "" |})
               0 [TextBlock "hm"; ToolUseBlock "t1" "frobnicate" JNull] !! 0
  = Some (ToolResultBlock "t1" ("Error: " +:+ "tool " +:+ String dquote "frobnicate"
                                 +:+ String dquote " not found") (Some true)).
Proof.
  apply (tool_failure_is_local "D1" "17.5" [] _ _ 0 "t1" "frobnicate" JNull).
  - reflexivity.
  - left. split; reflexivity.
Defined.

(** ** The command executor *)

Lemma occurs_in_refl (s : string) : occurs_in s s.
Proof. exists "", "". simpl. now rewrite append_empty_r. Qed.

Lemma occurs_in_app_l (part s t : string) : occurs_in part s -> occurs_in part (s +:+ t).
Proof.
  intros (b & a & ->). exists b, (a +:+ t). now rewrite !append_assoc.
Qed.

Lemma occurs_in_app_r (part s t : string) : occurs_in part t -> occurs_in part (s +:+ t).
Proof.
  intros (b & a & ->). exists (s +:+ b), a. now rewrite !append_assoc.
Qed.

#[local] Hint Resolve occurs_in_refl occurs_in_app_l occurs_in_app_r : occurs.

Lemma Boolean_labelled (label : string) (x : option string) :
  label ≠ "" ->
  Boolean (if truthy x then label +:+ NL +:+ default "" x else "") = truthy x.
Proof.
  intros Hl. destruct (truthy x); [|reflexivity].
  apply Boolean_true. destruct label; [congruence | discriminate].
Qed.

Lemma truthy_Some (x : option string) (s : string) :
  x = Some s -> s ≠ "" -> truthy x = true ∧ default "" x = s.
Proof. intros -> H. split; [now apply Boolean_true | reflexivity]. Qed.

Lemma prefix_append (part after : string) : String.prefix part (part +:+ after) = true.
Proof.
  induction part as [|c part IH]; simpl; [now destruct after|].
  destruct (ascii_dec c c); [exact IH | congruence].
Qed.

Lemma contains_prefix (part s : string) : String.prefix part s = true -> contains part s = true.
Proof. intros H. destruct s; cbn [contains]; now rewrite H. Qed.

Lemma occurs_in_contains (part s : string) : occurs_in part s -> contains part s = true.
Proof.
  intros (before & after & ->). induction before as [|c before IH].
  - apply (contains_prefix part (part +:+ after)), prefix_append.
  - change (String c before +:+ part +:+ after) with (String c (before +:+ part +:+ after)).
    cbn [contains]. rewrite IH. apply orb_true_r.
Qed.

(** Line 144 appends the marker when the error it caught has a true
    [killed] property. *)
Lemma command_exec_marker_needs_killed (input : value) (o : Outside) (e : ExecError) :
  child_execSync o exec_options = Failed e ->
  killed e = Some true ->
  exists s, execute_bash input o = Ok s ∧ occurs_in "Error: command timed out" s.
Proof.
  intros He Hk. unfold execute_bash. rewrite He, Hk. eexists. split; [reflexivity|].
  change (default false (Some true)) with true.
  cbn [List.filter]. rewrite !Boolean_labelled by discriminate.
  destruct (truthy (stdout e)), (truthy (stderr e));
    cbn [Boolean String.eqb negb join length Nat.ltb Nat.leb]; eauto 8 with occurs.
Qed.

(** C6.  The command tool never throws, so its tool result never carries
    the error flag.  After a clean exit the result is the captured output,
    or ["(no output)"] when that is empty.  After a failed run the result
    holds the captured standard output and the captured standard error.
    The time-out marker is missing: line 144 reads [e.killed], and no error
    thrown by [execSync] has that property, so for all of them, the ones of
    a run killed at the deadline included, the result is the labelled output
    alone, or the error's own message when nothing was captured.  The
    deadline handed to the shell is 120 seconds and the capture limit
    1 MiB. *)
Theorem command_exec_result (ch ts id : string) (input : value) (o : Outside) :
  exists s : string,
    execute_bash input o = Ok s
    ∧ run_tool_use (toolsByName (createTools ch ts)) o id "execute_bash" input
      = ToolResultBlock id s None
    ∧ timeout exec_options = (120 * 1000)%Z
    ∧ maxBuffer exec_options = (1024 * 1024)%Z
    ∧ match child_execSync o exec_options with
      | Exited output => s = if decide (output = "") then "(no output)" else output
      | Failed e =>
        (forall out, stdout e = Some out -> out ≠ "" -> occurs_in out s)
        ∧ (forall err, stderr e = Some err -> err ≠ "" -> occurs_in err s)
        ∧ (thrown_by_execSync e ->
           s = if truthy (stdout e)
               then if truthy (stderr e)
                    then "stdout:" +:+ NL +:+ default "" (stdout e) +:+ NL
                         +:+ "stderr:" +:+ NL +:+ default "" (stderr e)
                    else "stdout:" +:+ NL +:+ default "" (stdout e)
               else if truthy (stderr e)
                    then "stderr:" +:+ NL +:+ default "" (stderr e)
                    else "Error: " +:+ message e)
        ∧ (thrown_by_execSync e -> deadline_exceeded e ->
           forall out, stdout e = Some out -> out ≠ "" -> truthy (stderr e) = false ->
             s = "stdout:" +:+ NL +:+ out)
      end.
Proof.
  assert (Hrun : forall s, execute_bash input o = Ok s ->
            run_tool_use (toolsByName (createTools ch ts)) o id "execute_bash" input
            = ToolResultBlock id s None).
  { intros s Hs. unfold run_tool_use. rewrite registry_execute_bash.
    cbn [execute]. now rewrite Hs. }
  unfold execute_bash in *.
  destruct (child_execSync o exec_options) as [output|e].
  - eexists. split; [reflexivity|]. split; [now apply Hrun|].
    split; [reflexivity|]. split; [reflexivity|].
    destruct output; reflexivity.
  - eexists. split; [reflexivity|]. split; [now apply Hrun|].
    split; [reflexivity|]. split; [reflexivity|].
    clear Hrun. cbn [List.filter]. unfold thrown_by_execSync.
    rewrite !Boolean_labelled by discriminate.
    assert (Hout : forall out, stdout e = Some out -> out ≠ "" ->
                     truthy (stdout e) = true ∧ default "" (stdout e) = out)
      by (intros; now apply truthy_Some).
    assert (Herr : forall err, stderr e = Some err -> err ≠ "" ->
                     truthy (stderr e) = true ∧ default "" (stderr e) = err)
      by (intros; now apply truthy_Some).
    destruct (truthy (stdout e)), (truthy (stderr e)), (killed e) as [[]|];
      change (default false (@None bool)) with false;
      change (default false (Some true)) with true;
      change (default false (Some false)) with false;
      cbn [Boolean String.eqb negb join length Nat.ltb Nat.leb];
      (split; [intros out H1 H2; destruct (Hout out H1 H2) as [? <-]; try discriminate
              |split; [intros err H1 H2; destruct (Herr err H1 H2) as [? <-]; try discriminate
                      |split; [intros ?; try discriminate; try (now rewrite !append_assoc)
                              |intros ? _ out H1 H2 ?; try discriminate;
                               destruct (Hout out H1 H2) as [? <-]; try discriminate;
                               try reflexivity]]]);
      eauto 8 with occurs.
Qed.

(** The scenarios of section 8 of the specification. *)
Example command_exec_hello :
  execute_bash JNull says_hello = Ok ("hello" +:+ NL).
Proof. reflexivity. Qed.

Example command_exec_empty :
  execute_bash JNull quiet = Ok "(no output)".
Proof. reflexivity. Qed.

(** The third scenario, a command that exceeds the deadline: the result has
    the partial output and no time-out marker. *)
Example command_exec_timeout :
  execute_bash JNull timed_out = Ok ("stdout:" +:+ NL +:+ "partial")
  ∧ ¬ occurs_in "Error: command timed out" ("stdout:" +:+ NL +:+ "partial").
Proof.
  split; [reflexivity|]. intros H. apply occurs_in_contains in H. discriminate H.
Qed.

Example command_exec_bare_failure :
  execute_bash JNull exits_nonzero = Ok "Error: Command failed: false".
Proof. reflexivity. Qed.

(** ** The mailbox *)

Lemma drainAndClear_spec (id : string) (pend : gmap string (list MessageParam)) :
  (drainAndClear id pend).1 = default [] (pend !! id)
  ∧ (drainAndClear id pend).2 !! id = None
  ∧ (forall id', id' ≠ id -> (drainAndClear id pend).2 !! id' = pend !! id').
Proof.
  unfold drainAndClear. simpl. split; [reflexivity|]. split.
  - apply lookup_delete_eq.
  - intros id' Hne. now apply lookup_delete_ne.
Qed.

Lemma enqueue_lookup (id id' : string) (m : MessageParam)
    (pend : gmap string (list MessageParam)) :
  default [] (enqueue id m pend !! id')
  = default [] (pend !! id') ++ (if decide (id = id') then [m] else []).
Proof.
  unfold enqueue. destruct (decide (id = id')) as [->|Hne].
  - now rewrite lookup_insert_eq.
  - rewrite lookup_insert_ne by exact Hne. now rewrite app_nil_r.
Qed.

Lemma mailbox_run_conserves (ops : list MailOp) :
  forall (pend : gmap string (list MessageParam)) (id : string),
    drained_for id (mailbox_run ops pend).1 ++ default [] ((mailbox_run ops pend).2 !! id)
    = default [] (pend !! id) ++ enqueued_for id ops.
Proof.
  induction ops as [|op ops IH]; intros pend id.
  - simpl. now rewrite app_nil_r.
  - destruct op as [id' m|id']; simpl.
    + rewrite IH, enqueue_lookup, <- app_assoc. reflexivity.
    + destruct (mailbox_run ops (delete id' pend)) as [log final] eqn:E.
      specialize (IH (delete id' pend) id). rewrite E in IH. simpl in *.
      destruct (decide (id' = id)) as [->|Hne].
      * rewrite lookup_delete_eq in IH. simpl in IH.
        now rewrite <- app_assoc, IH.
      * rewrite lookup_delete_ne in IH by exact Hne. exact IH.
Qed.

Lemma loop_head_inv (id ch : string) (st st' : State) (c : PassEnd) :
  loop_head id ch st = Some (st', c) ->
  exists thread,
    load_or_fresh id ch (disk st) = Some thread
    ∧ st' = set_pending (delete id (pendingUserMessages st)) st
    ∧ c = match last (messages thread ++ default [] (pendingUserMessages st !! id)) with
          | None => TypeError
          | Some m =>
            if loop_done m then Break
            else Generate (with_messages
                             (messages thread ++ default [] (pendingUserMessages st !! id))
                             thread)
          end.
Proof.
  unfold loop_head. destruct (load_or_fresh id ch (disk st)) as [thread|]; [|discriminate].
  simpl. intros [= <- <-]. exists thread. auto.
Qed.

(** C3.  Whatever the interleaving of enqueues and drains, for each
    conversation the messages handed over by its drains, in drain order,
    followed by what is still queued, are exactly the messages enqueued for
    it, in enqueue order: each message is handed over by one drain, none is
    lost, none is handed over twice.  A drain takes the whole queue and
    leaves none of it, and the loop appends what it drained after the
    stored messages. *)
Theorem mailbox_fifo_exactly_once (ops : list MailOp)
    (pend : gmap string (list MessageParam)) (id : string) :
  drained_for id (mailbox_run ops pend).1 ++ default [] ((mailbox_run ops pend).2 !! id)
  = default [] (pend !! id) ++ enqueued_for id ops
  ∧ (drainAndClear id pend).1 = default [] (pend !! id)
  ∧ (drainAndClear id pend).2 !! id = None
  ∧ (forall (ch : string) (st st' : State) (thread : Thread),
       loop_head id ch st = Some (st', Generate thread) ->
       pendingUserMessages st' = (drainAndClear id (pendingUserMessages st)).2
       ∧ exists stored, load_or_fresh id ch (disk st) = Some stored
                        ∧ messages thread
                          = messages stored ++ (drainAndClear id (pendingUserMessages st)).1).
Proof.
  split; [apply mailbox_run_conserves|].
  destruct (drainAndClear_spec id pend) as (H1 & H2 & _).
  split; [exact H1|]. split; [exact H2|].
  intros ch st st' thread H. apply loop_head_inv in H as (stored & Hl & -> & Hc).
  split; [reflexivity|]. exists stored. split; [exact Hl|].
  destruct (last _) as [m|]; [|discriminate].
  destruct (loop_done m); [discriminate|]. now injection Hc as ->.
Qed.

(** ** One pass of the loop *)

Lemma loop_head_total (id ch : string) (st : State) (thread : Thread) :
  load_or_fresh id ch (disk st) = Some thread ->
  loop_head id ch st
  = Some (set_pending (delete id (pendingUserMessages st)) st,
          match last (messages thread ++ default [] (pendingUserMessages st !! id)) with
          | None => TypeError
          | Some m =>
            if loop_done m then Break
            else Generate (with_messages
                             (messages thread ++ default [] (pendingUserMessages st !! id))
                             thread)
          end).
Proof. intros H. unfold loop_head. rewrite H. reflexivity. Qed.

Lemma load_or_fresh_absent (id ch : string) (fs : FS) :
  loadThread id fs = None ->
  load_or_fresh id ch fs = Some {| threadTs := id; channel := ch; messages := [] |}.
Proof. intros H. unfold load_or_fresh. now rewrite H. Qed.

Lemma finally_not_active (id : string) (st : State) :
  id ∉ activeThreadLoops (finally id st).
Proof.
  unfold finally. simpl. intros [_ H]%elem_of_difference.
  apply H, elem_of_singleton. reflexivity.
Qed.

(** C9.  When the stored thread (or the fresh one standing in for a
    missing record) has no message and the mailbox of the conversation is
    empty, the read of the last message finds none and the read of its role
    throws: the pass ends in a TypeError, the call of the loop is rejected
    without any request to the provider.  With at least one message the
    test is defined: the pass ends in [break] or goes on to the round. *)
Theorem empty_thread_faults (id ch : string) (st : State) (thread : Thread) :
  load_or_fresh id ch (disk st) = Some thread ->
  let merged := messages thread ++ default [] (pendingUserMessages st !! id) in
  (merged = [] ->
     loop_head id ch st
     = Some (set_pending (delete id (pendingUserMessages st)) st, TypeError)
     ∧ (id ∉ activeThreadLoops st ->
        exists st' msg, runThreadLoop id ch st = Some (st', Threw msg)
                        ∧ (id ∉ activeThreadLoops st')
                        ∧ requests st' = requests st
                        ∧ awaiting st' = awaiting st))
  ∧ (merged ≠ [] ->
     exists st' c, loop_head id ch st = Some (st', c) ∧ c ≠ TypeError).
Proof.
  intros Hload merged. split.
  - intros Hempty.
    assert (Hh : forall s, disk s = disk st -> pendingUserMessages s = pendingUserMessages st ->
              loop_head id ch s = Some (set_pending (delete id (pendingUserMessages s)) s, TypeError)).
    { intros s Hd Hp. rewrite (loop_head_total id ch s thread) by now rewrite Hd.
      rewrite Hp. fold merged. now rewrite Hempty. }
    split; [now apply Hh|].
    intros Hidle. unfold runThreadLoop. rewrite decide_False by exact Hidle.
    unfold loop_from_head. rewrite Hh by reflexivity. simpl.
    eexists _, _. split; [reflexivity|]. split; [|split; reflexivity].
    apply finally_not_active.
  - intros Hne. rewrite (loop_head_total id ch st thread Hload). fold merged.
    destruct (last merged) as [m|] eqn:El.
    + eexists _, _. split; [reflexivity|]. now destruct (loop_done m).
    + now apply last_None in El.
Qed.

(** *** The termination test against the specification's predicate *)


(** The converse miss: the turn is complete in the specification's sense
    and the loop asks the provider for one more round, because the test
    requires a block list. *)
Lemma loop_continues_after_plain_answer :
  let st := boot (Some "U1") (store "17.5" plain_answer bot_home) in
  turn_complete (messages plain_answer) = true
  ∧ exists st', runThreadLoop "17.5" "D1" st = Some (st', Suspended)
                ∧ requests st' = [("17.5", messages plain_answer)]
                ∧ ("17.5" ∈ activeThreadLoops st').
Proof.
  split; [vm_compute; reflexivity|].
  eexists. split; [vm_compute; reflexivity|].
  split; [reflexivity|]. apply (bool_decide_unpack _). vm_compute. exact I.
Qed.

(** On the threads the two cases above leave out, the test and the
    predicate agree. *)
Lemma loop_done_turn_complete (msgs : list MessageParam) (m : MessageParam)
    (blocks : list ContentBlock) :
  last msgs = Some m ->
  content m = Blocks blocks ->
  existsb (fun b => String.eqb (block_type b) "tool_result") blocks
  = existsb (fun b => String.eqb (block_type b) "tool_use") blocks ->
  loop_done m = turn_complete msgs.
Proof.
  intros Hl Hc He. unfold turn_complete, loop_done, has_tool_call. rewrite Hl, Hc, He.
  destruct (role m); reflexivity.
Qed.

(** ** Failure after the drain *)

Lemma enqueue_all_lookup (id : string) (later : list MessageParam) :
  forall pend : gmap string (list MessageParam),
    default [] (foldl (fun p m => enqueue id m p) pend later !! id)
    = default [] (pend !! id) ++ later.
Proof.
  induction later as [|m later IH]; intros pend; simpl.
  - now rewrite app_nil_r.
  - rewrite IH, enqueue_lookup, decide_True by reflexivity. now rewrite <- app_assoc.
Qed.

Lemma runThreadLoop_suspended (id ch : string) (st st1 : State) :
  runThreadLoop id ch st = Some (st1, Suspended) ->
  (id ∉ activeThreadLoops st)
  ∧ exists stored,
      load_or_fresh id ch (disk st) = Some stored
      ∧ let thread := with_messages
                        (messages stored ++ default [] (pendingUserMessages st !! id)) stored in
        st1 = {| SLACK_USER_ID := SLACK_USER_ID st;
                 activeThreadLoops := {[id]} ∪ activeThreadLoops st;
                 pendingUserMessages := delete id (pendingUserMessages st);
                 disk := disk st;
                 awaiting := awaiting st ++ [ {| task_threadTs := id; task_channel := ch;
                                                 task_thread := thread |} ];
                 requests := requests st ++ [(id, messages thread)] |}.
Proof.
  unfold runThreadLoop. destruct (decide (id ∈ activeThreadLoops st)) as [|Hidle];
    [discriminate|].
  unfold loop_from_head.
  destruct (loop_head id ch _) as [[st' c]|] eqn:Eh; [|discriminate].
  apply loop_head_inv in Eh as (stored & Hl & -> & ->). simpl in *.
  destruct (last _) as [m|]; [|discriminate].
  destruct (loop_done m); [discriminate|].
  intros [= <-]. split; [exact Hidle|]. exists stored. split; [exact Hl | reflexivity].
Qed.

(** C10.  A loop has drained the mailbox and waits for its round; further
    messages arrive; then the round fails, or the round succeeds and the
    write fails.  Afterwards the conversation is idle, the disk is what it
    was before the drain, and the mailbox holds the messages that arrived
    after the drain and nothing else: the drained ones were only in the
    thread of the aborted loop. *)
Theorem drained_messages_lost (id ch : string) (st st1 : State)
    (later : list MessageParam) (reply : ProviderReply) (outside : nat -> Outside)
    (dev : Disk) :
  runThreadLoop id ch st = Some (st1, Suspended) ->
  (match reply with
   | Rejected _ => True
   | Responded _ => exists msg, dev = DiskError msg
   end) ->
  let st2 := set_pending (foldl (fun p m => enqueue id m p) (pendingUserMessages st1) later) st1 in
  pendingUserMessages st1 !! id = None
  ∧ (exists stored task,
       load_or_fresh id ch (disk st) = Some stored
       ∧ awaiting st2 !! length (awaiting st) = Some task
       ∧ messages (task_thread task)
         = messages stored ++ default [] (pendingUserMessages st !! id))
  ∧ exists st3 msg,
      resume_at (length (awaiting st)) reply outside dev st2 = Some (st3, Threw msg)
      ∧ step (Settle (length (awaiting st)) reply outside dev) st2 = Some st3
      ∧ disk st3 = disk st
      ∧ default [] (pendingUserMessages st3 !! id) = later
      ∧ (id ∉ activeThreadLoops st3)
      ∧ awaiting st3 = awaiting st.
Proof.
  intros Hrun Hfail st2.
  apply runThreadLoop_suspended in Hrun as (Hidle & stored & Hl & Hst1). simpl in Hst1.
  subst st1. simpl in *.
  split; [apply lookup_delete_eq|]. split.
  { eexists stored, _. split; [exact Hl|]. split.
    - subst st2. simpl. apply list_lookup_middle. reflexivity.
    - reflexivity. }
  assert (Hpend : default [] (pendingUserMessages st2 !! id) = later).
  { subst st2. simpl. now rewrite enqueue_all_lookup, lookup_delete_eq. }
  unfold step, resume_at. subst st2. simpl in *.
  rewrite list_lookup_middle by reflexivity. rewrite delete_middle, app_nil_r.
  unfold resume. simpl.
  destruct reply as [content|msg].
  - destruct Hfail as [msg ->]. simpl.
    eexists _, _. split; [reflexivity|]. split; [reflexivity|]. simpl.
    split; [reflexivity|]. split; [exact Hpend|]. split; [|reflexivity].
    intros [_ H]%elem_of_difference. apply H, elem_of_singleton. reflexivity.
  - simpl.
    eexists _, _. split; [reflexivity|]. split; [reflexivity|]. simpl.
    split; [reflexivity|]. split; [exact Hpend|]. split; [|reflexivity].
    intros [_ H]%elem_of_difference. apply H, elem_of_singleton. reflexivity.
Qed.

(** ** Single flight *)

Lemma loop_from_head_effect (id ch : string) (st st' : State) (o : Outcome) :
  loop_from_head id ch st = Some (st', o) ->
  SLACK_USER_ID st' = SLACK_USER_ID st
  ∧ disk st' = disk st
  ∧ pendingUserMessages st' = delete id (pendingUserMessages st)
  ∧ ((o = Suspended
      ∧ activeThreadLoops st' = activeThreadLoops st
      ∧ exists thread,
          awaiting st' = awaiting st ++ [ {| task_threadTs := id; task_channel := ch;
                                             task_thread := thread |} ]
          ∧ requests st' = requests st ++ [(id, messages thread)])
     ∨ (exits o
        ∧ activeThreadLoops st' = activeThreadLoops st ∖ {[id]}
        ∧ awaiting st' = awaiting st
        ∧ requests st' = requests st)).
Proof.
  unfold loop_from_head.
  destruct (loop_head id ch st) as [[s c]|] eqn:Eh; [|discriminate].
  apply loop_head_inv in Eh as (thread & _ & -> & _). simpl.
  destruct c as [| |th]; intros [= <- <-]; simpl; repeat split.
  - right. unfold exits. auto.
  - right. unfold exits. eauto 6.
  - left. eauto 6.
Qed.

Lemma loop_from_head_single_flight (id ch : string) (st st' : State) (o : Outcome) :
  NoDup (task_ids st) ->
  id ∉ task_ids st ->
  (forall x, x ∈ activeThreadLoops st <-> x = id ∨ x ∈ task_ids st) ->
  loop_from_head id ch st = Some (st', o) ->
  single_flight st' ∧ (exits o -> id ∉ activeThreadLoops st').
Proof.
  intros Hnd Hfresh Hact H.
  apply loop_from_head_effect in H as (_ & _ & _ & [(-> & Ha & th & Hw & _)|(Ho & Ha & Hw & _)]).
  - unfold single_flight, task_ids in *. rewrite Hw, Ha, map_app. simpl. split; [split|].
    + apply NoDup_app. split; [exact Hnd|]. split; [|apply NoDup_singleton].
      intros x Hx Hx'. apply list_elem_of_singleton in Hx'. now subst.
    + intros x. rewrite Hact, elem_of_app, list_elem_of_singleton. tauto.
    + intros [|[? ?]]; discriminate.
  - unfold single_flight, task_ids in *. rewrite Hw, Ha. split; [split; [exact Hnd|]|].
    + intros x. rewrite elem_of_difference, elem_of_singleton, Hact.
      split; [intros [[|] ?]; congruence|]. intros Hx. split; [now right|]. now intros ->.
    + intros _. rewrite elem_of_difference, elem_of_singleton. tauto.
Qed.

Lemma runThreadLoop_single_flight (id ch : string) (st st' : State) (o : Outcome) :
  single_flight st ->
  runThreadLoop id ch st = Some (st', o) ->
  single_flight st' ∧ (exits o -> id ∉ activeThreadLoops st').
Proof.
  intros [Hnd Hact] H. unfold runThreadLoop in H.
  destruct (decide (id ∈ activeThreadLoops st)) as [Hin|Hidle].
  - injection H as <- <-. split; [now split|]. intros [|[? ?]]; discriminate.
  - apply loop_from_head_single_flight in H; [exact H|exact Hnd| |].
    + now rewrite <- Hact.
    + intros x. simpl. rewrite elem_of_union, elem_of_singleton, Hact. tauto.
Qed.

Lemma resume_effect (t : Task) reply outside dev (st st' : State) (o : Outcome) :
  resume t reply outside dev st = Some (st', o) ->
  (exits o ∧ st' = finally (task_threadTs t) st)
  ∨ (exists msgs fs,
       generateMessages (task_channel t) (task_threadTs t) (messages (task_thread t))
                        reply outside = Ok msgs
       ∧ saveThread (task_threadTs t) (with_messages msgs (task_thread t)) dev (disk st) = Ok fs
       ∧ loop_from_head (task_threadTs t) (task_channel t) (set_disk fs st) = Some (st', o)).
Proof.
  unfold resume.
  destruct (generateMessages _ _ _ _ _) as [msgs|msg] eqn:Eg.
  - destruct (saveThread _ _ _ _) as [fs|msg] eqn:Es.
    + intros H. right. exists msgs, fs. auto.
    + intros [= <- <-]. left. unfold exits. eauto.
  - intros [= <- <-]. left. unfold exits. eauto.
Qed.

Lemma task_ids_delete (st : State) (k : nat) (t : Task) :
  NoDup (task_ids st) ->
  awaiting st !! k = Some t ->
  NoDup (map task_threadTs (delete k (awaiting st)))
  ∧ (task_threadTs t ∉ map task_threadTs (delete k (awaiting st)))
  ∧ (forall x, x ∈ task_ids st
               <-> x = task_threadTs t ∨ x ∈ map task_threadTs (delete k (awaiting st))).
Proof.
  unfold task_ids. intros Hnd Hk.
  assert (Hperm : map task_threadTs (awaiting st)
                  ≡ₚ task_threadTs t :: map task_threadTs (delete k (awaiting st))).
  { change (task_threadTs t :: map task_threadTs (delete k (awaiting st)))
      with (map task_threadTs (t :: delete k (awaiting st))).
    apply Permutation_map, delete_Permutation, Hk. }
  rewrite Hperm in Hnd. apply NoDup_cons in Hnd as [Hnotin Hnd'].
  split; [exact Hnd'|]. split; [exact Hnotin|].
  intros x. rewrite Hperm, elem_of_cons. tauto.
Qed.

Lemma resume_at_single_flight (k : nat) reply outside dev (st st' : State) (o : Outcome)
    (t : Task) :
  single_flight st ->
  awaiting st !! k = Some t ->
  resume_at k reply outside dev st = Some (st', o) ->
  single_flight st' ∧ (exits o -> task_threadTs t ∉ activeThreadLoops st').
Proof.
  intros [Hnd Hact] Hk H. unfold resume_at in H. rewrite Hk in H.
  destruct (task_ids_delete st k t Hnd Hk) as (Hnd' & Hnotin & Hids).
  apply resume_effect in H as [[Ho ->]|(msgs & fs & _ & _ & H)].
  - split; [|intros _; apply finally_not_active].
    unfold single_flight, task_ids, finally. simpl. split; [exact Hnd'|].
    intros x. rewrite elem_of_difference, elem_of_singleton, Hact, Hids.
    split; [intros [[|] ?]; congruence|]. intros Hx. split; [now right|]. now intros ->.
  - apply loop_from_head_single_flight in H; [exact H|exact Hnd'|exact Hnotin|].
    intros x. simpl. rewrite Hact. apply Hids.
Qed.

Lemma step_single_flight (e : Event) (st st' : State) :
  single_flight st -> step e st = Some st' -> single_flight st'.
Proof.
  intros Hsf H. destruct e as [ev ok|id ch|k reply outside dev]; simpl in H.
  - unfold on_message in H.
    destruct (_ || _); [now injection H as <-|].
    destruct (negb (bool_decide _)); [now injection H as <-|].
    destruct (negb ok); [now injection H as <-|].
    destruct (runThreadLoop _ _ _) as [[s o]|] eqn:E; [|discriminate].
    injection H as <-. now apply runThreadLoop_single_flight in E as [? _].
  - destruct (runThreadLoop id ch st) as [[s o]|] eqn:E; [|discriminate].
    injection H as <-. now apply runThreadLoop_single_flight in E as [? _].
  - destruct (resume_at k reply outside dev st) as [[s o]|] eqn:E; [|discriminate].
    injection H as <-. unfold resume_at in E.
    destruct (awaiting st !! k) as [t|] eqn:Ek.
    + eapply resume_at_single_flight; [exact Hsf|exact Ek|].
      unfold resume_at. rewrite Ek. exact E.
    + now injection E as <- <-.
Qed.

Lemma run_single_flight (events : list Event) :
  forall st st', single_flight st -> run events st = Some st' -> single_flight st'.
Proof.
  induction events as [|e events IH]; intros st st' Hsf H; simpl in H.
  - now injection H as <-.
  - destruct (step e st) as [s|] eqn:E; [|discriminate]. simpl in H.
    eapply IH; [|exact H]. eapply step_single_flight; eauto.
Qed.

Lemma boot_single_flight (uid : option string) (fs : FS) : single_flight (boot uid fs).
Proof.
  split; [apply NoDup_nil_2|]. intros id. simpl.
  split; [intros H; now apply not_elem_of_empty in H | intros H; now apply not_elem_of_nil in H].
Qed.

(** ** Independence of conversations *)

Lemma append_inj_r (a b s : string) : a +:+ s = b +:+ s -> a = b.
Proof.
  revert b. induction a as [|x a IH]; intros [|y b] H; simpl in H.
  - reflexivity.
  - apply (f_equal String.length) in H. simpl in H. rewrite length_append in H. lia.
  - apply (f_equal String.length) in H. simpl in H. rewrite length_append in H. lia.
  - injection H as -> H. f_equal. now apply IH.
Qed.

Lemma thread_file_inj (fs : FS) (id id' : string) :
  thread_file fs id = thread_file fs id' -> id = id'.
Proof.
  unfold thread_file. intros H.
  apply (inj (String.app (threadsDir fs))) in H.
  apply (inj (String.app "/")) in H.
  now apply append_inj_r in H.
Qed.

Lemma saveThread_ok (id : string) (t : Thread) (dev : Disk) (fs fs' : FS) :
  saveThread id t dev fs = Ok fs' ->
  dev = DiskOk
  ∧ fs' = {| homedir := homedir fs;
             dirs := {[ configDir fs; threadsDir fs ]} ∪ dirs fs;
             files := <[thread_file fs id := stringify (thread_to_json t)]> (files fs) |}.
Proof.
  unfold saveThread, writeFileSync. destruct dev; [|discriminate].
  destruct (decide _); [|discriminate]. intros [= <-]. auto.
Qed.

Lemma saveThread_DiskOk (id : string) (t : Thread) (fs : FS) :
  saveThread id t DiskOk fs
  = Ok {| homedir := homedir fs;
          dirs := {[ configDir fs; threadsDir fs ]} ∪ dirs fs;
          files := <[thread_file fs id := stringify (thread_to_json t)]> (files fs) |}.
Proof.
  unfold saveThread, writeFileSync. rewrite decide_True; [reflexivity|].
  simpl. change (threadsDir (mkdirSync_recursive fs)) with (threadsDir fs).
  apply elem_of_union_l, elem_of_union_r, elem_of_singleton. reflexivity.
Qed.

Lemma filter_delete_other {A : Type} (P : A -> bool) (l : list A) (k : nat) (x : A) :
  l !! k = Some x -> P x = false -> List.filter P (delete k l) = List.filter P l.
Proof.
  revert k. induction l as [|y l IH]; intros [|k] Hk Hx; simpl in *; try discriminate.
  - injection Hk as ->. now rewrite Hx.
  - now rewrite (IH k Hk Hx).
Qed.

Section Frame.

Variables (id id' : string).
Hypothesis Hne : id' ≠ id.

Lemma view_loop_from_head (ch : string) (st st' : State) (o : Outcome) :
  loop_from_head id ch st = Some (st', o) -> view id' st' = view id' st.
Proof.
  intros H.
  apply loop_from_head_effect in H as (_ & Hd & Hp & [(_ & Ha & th & Hw & Hr)|(_ & Ha & Hw & Hr)]);
    unfold view; rewrite Hd, Hp, Ha, Hw, Hr, lookup_delete_ne by congruence.
  - rewrite !List.filter_app. simpl.
    rewrite !(bool_decide_eq_false_2 (id = id')) by congruence. now rewrite !app_nil_r.
  - f_equal. apply bool_decide_ext.
    rewrite elem_of_difference, elem_of_singleton. tauto.
Qed.

Lemma view_runThreadLoop (ch : string) (st st' : State) (o : Outcome) :
  runThreadLoop id ch st = Some (st', o) -> view id' st' = view id' st.
Proof.
  unfold runThreadLoop. destruct (decide _); [now intros [= <- <-]|].
  intros H. apply view_loop_from_head in H. rewrite H. unfold view. simpl.
  f_equal. apply bool_decide_ext. rewrite elem_of_union, elem_of_singleton. tauto.
Qed.

Lemma view_resume_at (k : nat) reply outside dev (st st' : State) (o : Outcome) (t : Task) :
  awaiting st !! k = Some t ->
  task_threadTs t = id ->
  resume_at k reply outside dev st = Some (st', o) ->
  view id' st' = view id' st.
Proof.
  intros Hk Hid H. unfold resume_at in H. rewrite Hk in H.
  assert (Hdel : view id' (set_awaiting (delete k (awaiting st)) st) = view id' st).
  { unfold view. simpl. f_equal. apply (filter_delete_other _ _ _ _ Hk).
    apply bool_decide_eq_false_2. congruence. }
  apply resume_effect in H as [[_ ->]|(msgs & fs & _ & Hs & H)].
  - rewrite <- Hdel, Hid. unfold view. simpl. f_equal.
    apply bool_decide_ext. rewrite elem_of_difference, elem_of_singleton. tauto.
  - rewrite Hid in *. apply view_loop_from_head in H. rewrite H, <- Hdel.
    apply saveThread_ok in Hs as [_ ->]. unfold view. simpl. f_equal.
    change (thread_file {| homedir := homedir (disk st); dirs := _; files := _ |} id')
      with (thread_file (disk st) id').
    apply lookup_insert_ne. intros E. apply thread_file_inj in E. congruence.
Qed.

End Frame.

Lemma step_frame (e : Event) (st st' : State) (id' : string) :
  step e st = Some st' -> event_thread e st ≠ Some id' -> view id' st' = view id' st.
Proof.
  intros H Hev. destruct e as [ev ok|id ch|k reply outside dev]; simpl in *.
  - assert (Hne : id' ≠ default (ts ev) (thread_ts ev)) by congruence.
    unfold on_message in H.
    destruct (_ || _); [now injection H as <-|].
    destruct (negb (bool_decide _)); [now injection H as <-|].
    destruct (negb ok); [now injection H as <-|].
    destruct (runThreadLoop _ _ _) as [[s o]|] eqn:E; [|discriminate].
    injection H as <-. apply (view_runThreadLoop _ id' Hne) in E.
    rewrite E. unfold view, enqueue. simpl. f_equal.
    apply lookup_insert_ne. congruence.
  - assert (Hne : id' ≠ id) by congruence.
    destruct (runThreadLoop id ch st) as [[s o]|] eqn:E; [|discriminate].
    injection H as <-. exact (view_runThreadLoop _ id' Hne _ _ _ _ E).
  - destruct (resume_at k reply outside dev st) as [[s o]|] eqn:E; [|discriminate].
    injection H as <-.
    destruct (awaiting st !! k) as [t|] eqn:Ek.
    + assert (Hne : id' ≠ task_threadTs t) by (simpl in Hev; congruence).
      exact (view_resume_at _ id' Hne _ _ _ _ _ _ _ _ Ek eq_refl E).
    + unfold resume_at in E. rewrite Ek in E. now injection E as <- <-.
Qed.

(** C2.  In every state the program reaches from start-up, no two loops
    belong to the same conversation, and a conversation is in the active
    set exactly when a loop of it is in flight.  A trigger for an active
    conversation returns at once and changes nothing.  A loop that leaves
    through [break] or through an exception leaves its conversation idle.
    A step for one conversation changes nothing of what the state holds
    about another: its active flag, its mailbox, its record on disk, its
    loop, its requests. *)
Theorem single_flight_per_conversation (uid : option string) (fs : FS)
    (events : list Event) (st : State) :
  run events (boot uid fs) = Some st ->
  single_flight st
  ∧ (forall id ch, id ∈ activeThreadLoops st -> runThreadLoop id ch st = Some (st, Skipped))
  ∧ (forall id ch st' o, runThreadLoop id ch st = Some (st', o) ->
       single_flight st' ∧ (exits o -> id ∉ activeThreadLoops st'))
  ∧ (forall k t reply outside dev st' o,
       awaiting st !! k = Some t ->
       resume_at k reply outside dev st = Some (st', o) ->
       single_flight st' ∧ (exits o -> task_threadTs t ∉ activeThreadLoops st'))
  ∧ (forall e st' id, step e st = Some st' -> event_thread e st ≠ Some id ->
       view id st' = view id st).
Proof.
  intros Hrun.
  assert (Hsf : single_flight st)
    by (eapply run_single_flight; [apply boot_single_flight | exact Hrun]).
  split; [exact Hsf|]. split; [|split; [|split]].
  - intros id ch Hin. unfold runThreadLoop. now rewrite decide_True.
  - intros id ch st' o. now apply runThreadLoop_single_flight.
  - intros k t reply outside dev st' o. now apply resume_at_single_flight.
  - intros e st' id. apply step_frame.
Qed.

(** ** [JSON.parse] after [JSON.stringify] *)

Module JsonFacts.
Import Json.

Lemma skip_ws_spaces (n : nat) (s : string) : skip_ws (spaces n +:+ s) = skip_ws s.
Proof. induction n as [|n IH]; [reflexivity | exact IH]. Qed.

Lemma skip_ws_NL (s : string) : skip_ws (NL +:+ s) = skip_ws s.
Proof. reflexivity. Qed.

Lemma skip_ws_idem (s : string) : skip_ws (skip_ws s) = skip_ws s.
Proof.
  induction s as [|c s IH]; [reflexivity|].
  simpl. destruct (is_ws c) eqn:E; [exact IH|]. simpl. now rewrite E.
Qed.

Lemma skip_ws_token (c : ascii) (s : string) :
  is_ws c = false -> skip_ws (String c s) = String c s.
Proof. intros H. simpl. now rewrite H. Qed.

Lemma parse_value_skip (fuel : nat) (s : string) :
  parse_value fuel (skip_ws s) = parse_value fuel s.
Proof. destruct fuel; [reflexivity|]. cbn [parse_value]. now rewrite skip_ws_idem. Qed.

(** *** String literals *)

Lemma parse_string_quote_char (c : ascii) (s : string) :
  parse_string (quote_char c +:+ s)
  = match parse_string s with
    | Some (str, r) => Some (String c str, r)
    | None => None
    end.
Proof. destruct c as [[] [] [] [] [] [] [] []]; reflexivity. Qed.

Lemma parse_string_quote_body (s rest : string) :
  parse_string (quote_body s +:+ String dquote rest) = Some (s, rest).
Proof.
  induction s as [|c s IH]; [reflexivity|].
  cbn [quote_body]. now rewrite append_assoc, parse_string_quote_char, IH.
Qed.

Lemma quote_append (s rest : string) :
  quote s +:+ rest = String dquote (quote_body s +:+ String dquote rest).
Proof. unfold quote. simpl. now rewrite append_assoc. Qed.

(** *** Integer literals *)

Lemma parse_digits_digits (d : Decimal.uint) (rest : string) :
  no_digit_head rest -> parse_digits (digits d +:+ rest) = (d, rest).
Proof.
  intros H. induction d; simpl; rewrite ?IHd; try reflexivity.
  destruct rest as [|c rest]; [reflexivity|]. simpl in *. now rewrite H.
Qed.

Lemma to_int_canonical (z : Z) : canonical (Z.to_int z) = true.
Proof.
  unfold canonical.
  destruct (Decimal.int_eq_dec _ _) as [|Hn]; [reflexivity|].
  exfalso. apply Hn. rewrite <- DecimalZ.to_of. now rewrite DecimalZ.of_to.
Qed.

Lemma to_int_nonnil (z : Z) :
  Z.to_int z ≠ Decimal.Pos Decimal.Nil ∧ Z.to_int z ≠ Decimal.Neg Decimal.Nil.
Proof.
  destruct z as [|p|p]; simpl; split; try discriminate;
    intros [= H]; now apply DecimalPos.Unsigned.to_uint_nonnil in H.
Qed.

Lemma parse_number_to_string (z : Z) (rest : string) :
  no_digit_head rest ->
  parse_number (number_to_string z +:+ rest) = Some (z, rest).
Proof.
  intros H. unfold number_to_string.
  pose proof (to_int_canonical z) as Hc. pose proof (DecimalZ.of_to z) as Hz.
  destruct (to_int_nonnil z) as [Hp Hn].
  destruct (Z.to_int z) as [d|d].
  - assert (Hd : parse_number (digits d +:+ rest)
                 = match parse_digits (digits d +:+ rest) with
                   | (Decimal.Nil, _) => None
                   | (d, r) => if canonical (Decimal.Pos d) then Some (Z.of_int (Decimal.Pos d), r)
                               else None
                   end).
    { destruct d; try reflexivity. congruence. }
    rewrite Hd, parse_digits_digits by exact H.
    destruct d; try congruence; rewrite Hc, <- Hz; reflexivity.
  - unfold parse_number. cbn [String.append]. simpl.
    rewrite parse_digits_digits by exact H.
    destruct d; try congruence; rewrite Hc, <- Hz; reflexivity.
Qed.

Lemma number_to_string_head (z : Z) (rest : string) :
  exists c tl, number_to_string z +:+ rest = String c tl ∧ number_head c = true.
Proof.
  unfold number_to_string. destruct (to_int_nonnil z) as [Hp Hn].
  destruct (Z.to_int z) as [d|d].
  - destruct d; try congruence; simpl; eexists _, _; split; reflexivity.
  - simpl. eexists _, _; split; reflexivity.
Qed.

Lemma parse_value_number (fuel : nat) (c : ascii) (s : string) :
  number_head c = true ->
  parse_value (S fuel) (String c s)
  = match parse_number (String c s) with
    | Some (z, r) => Some (JNum z, r)
    | None => None
    end.
Proof.
  destruct c as [[] [] [] [] [] [] [] []]; try discriminate; intros _; reflexivity.
Qed.

(** *** Arrays and objects *)

Lemma value_ind (P : value -> Prop) :
  P JNull ->
  (forall b, P (JBool b)) ->
  (forall z, P (JNum z)) ->
  (forall s, P (JStr s)) ->
  (forall items, Forall P items -> P (JArr items)) ->
  (forall members, Forall (fun kv => P kv.2) members -> P (JObj members)) ->
  forall v, P v.
Proof.
  intros Hn Hb Hz Hs Ha Ho. fix IH 1. intros [ |b|z|s|items|members].
  - exact Hn.
  - apply Hb.
  - apply Hz.
  - apply Hs.
  - apply Ha. revert items. fix IHl 1. intros [|x items]; constructor; [apply IH | apply IHl].
  - apply Ho. revert members. fix IHl 1.
    intros [|[k x] members]; constructor; [apply IH | apply IHl].
Qed.

Lemma join_cons_append (sep p : string) (ps : list string) (tail : string) :
  join sep (p :: ps) +:+ tail
  = p +:+ match ps with
          | [] => tail
          | _ => sep +:+ join sep ps +:+ tail
          end.
Proof. destruct ps; [reflexivity|]. cbn [join]. now rewrite !append_assoc. Qed.

Lemma items_text_join (k : nat) (items : list value) (tail : string) :
  items ≠ [] ->
  NL +:+ spaces k
     +:+ join ("," +:+ NL +:+ spaces k) (map (stringify_at k) items) +:+ tail
  = items_text k items tail.
Proof.
  induction items as [|x items IH]; [congruence|]. intros _.
  cbn [map]. rewrite join_cons_append. destruct items as [|y items]; [reflexivity|].
  change (items_text k (x :: y :: items) tail)
    with (NL +:+ spaces k +:+ stringify_at k x +:+ "," +:+ items_text k (y :: items) tail).
  rewrite <- IH by congruence.
  cbn [map]. now rewrite !append_assoc.
Qed.

Lemma members_text_join (k : nat) (members : list (string * value)) (tail : string) :
  members ≠ [] ->
  NL +:+ spaces k
     +:+ join ("," +:+ NL +:+ spaces k)
              (map (fun kv => quote kv.1 +:+ ": " +:+ stringify_at k kv.2) members)
     +:+ tail
  = members_text k members tail.
Proof.
  induction members as [|[key x] members IH]; [congruence|]. intros _.
  cbn [map]. rewrite join_cons_append. destruct members as [|[key' y] members].
  - cbn [members_text fst snd]. now rewrite !append_assoc.
  - change (members_text k ((key, x) :: (key', y) :: members) tail)
      with (NL +:+ spaces k +:+ quote key +:+ ": " +:+ stringify_at k x +:+ ","
            +:+ members_text k ((key', y) :: members) tail).
    rewrite <- IH by congruence.
    cbn [map fst snd]. now rewrite !append_assoc.
Qed.

Lemma stringify_array (ind : nat) (x : value) (items : list value) (rest : string) :
  stringify_at ind (JArr (x :: items)) +:+ rest
  = String "[" (items_text (2 + ind) (x :: items) (NL +:+ spaces ind +:+ "]" +:+ rest)).
Proof.
  rewrite <- items_text_join by congruence.
  cbn [stringify_at]. now rewrite !append_assoc.
Qed.

Lemma stringify_object (ind : nat) (kx : string * value) (members : list (string * value))
    (rest : string) :
  stringify_at ind (JObj (kx :: members)) +:+ rest
  = String "{" (members_text (2 + ind) (kx :: members) (NL +:+ spaces ind +:+ "}" +:+ rest)).
Proof.
  rewrite <- members_text_join by congruence.
  cbn [stringify_at]. now rewrite !append_assoc.
Qed.

Lemma parse_value_string (fuel : nat) (s : string) :
  parse_value (S fuel) (String dquote s)
  = match parse_string s with
    | Some (str, r) => Some (JStr str, r)
    | None => None
    end.
Proof. reflexivity. Qed.

Lemma parse_value_array (fuel : nat) (s : string) :
  parse_value (S fuel) (String "[" s)
  = match starts_with "]" (skip_ws s) with
    | Some r => Some (JArr [], r)
    | None =>
      match parse_items (parse_value fuel) fuel s with
      | Some (vs, r) => Some (JArr vs, r)
      | None => None
      end
    end.
Proof. reflexivity. Qed.

Lemma parse_value_object (fuel : nat) (s : string) :
  parse_value (S fuel) (String "{" s)
  = match starts_with "}" (skip_ws s) with
    | Some r => Some (JObj [], r)
    | None =>
      match parse_members (parse_value fuel) fuel s with
      | Some (kvs, r) => Some (JObj kvs, r)
      | None => None
      end
    end.
Proof. reflexivity. Qed.

(** A serialised value starts with a character that is neither white space
    nor a closing bracket. *)
Lemma stringify_head (ind : nat) (v : value) (rest : string) :
  exists c tl, stringify_at ind v +:+ rest = String c tl
               ∧ is_ws c = false ∧ Ascii.eqb c "]" = false.
Proof.
  destruct v as [ |[]|z|s|[|x items]|[|kx members]];
    try (eexists _, _; split; [reflexivity | split; reflexivity]).
  - destruct (number_to_string_head z rest) as (c & tl & E & Hc).
    exists c, tl. split; [exact E|].
    destruct c as [[] [] [] [] [] [] [] []]; try discriminate; split; reflexivity.
Qed.

Lemma parse_value_indented (f k : nat) (x : value) (tail : string) :
  parses_back x -> size x ≤ f -> no_digit_head tail ->
  parse_value f (NL +:+ spaces k +:+ stringify_at k x +:+ tail) = Some (x, tail).
Proof.
  intros Hx Hf Ht.
  rewrite <- parse_value_skip, skip_ws_NL, skip_ws_spaces, parse_value_skip.
  now apply Hx.
Qed.

Lemma parse_items_text (f k : nat) (rest tail : string) (items : list value) :
  Forall parses_back items ->
  Forall (fun v => size v ≤ f) items ->
  items ≠ [] ->
  skip_ws tail = String "]" rest ->
  no_digit_head tail ->
  forall n, length items ≤ n ->
    parse_items (parse_value f) n (items_text k items tail) = Some (items, rest).
Proof.
  intros Hback Hsize Hne Htail Hnd.
  induction items as [|x items IH]; [congruence|]. intros n Hn.
  apply Forall_cons in Hback as [Hx Hback]. apply Forall_cons in Hsize as [Hfx Hsize].
  destruct n as [|n]; [simpl in Hn; lia|].
  destruct items as [|y items].
  - cbn [items_text parse_items].
    rewrite parse_value_indented by assumption. rewrite Htail. reflexivity.
  - change (items_text k (x :: y :: items) tail)
      with (NL +:+ spaces k +:+ stringify_at k x +:+ String "," (items_text k (y :: items) tail)).
    cbn [parse_items].
    rewrite parse_value_indented by (assumption || reflexivity).
    rewrite skip_ws_token by reflexivity.
    change (Ascii.eqb "," ",") with true. cbn iota.
    rewrite IH; [reflexivity|assumption|assumption|congruence|simpl in *; lia].
Qed.

Lemma parse_members_text (f k : nat) (rest tail : string) (members : list (string * value)) :
  Forall (fun kv => parses_back kv.2) members ->
  Forall (fun kv => size kv.2 ≤ f) members ->
  members ≠ [] ->
  skip_ws tail = String "}" rest ->
  no_digit_head tail ->
  forall n, length members ≤ n ->
    parse_members (parse_value f) n (members_text k members tail) = Some (members, rest).
Proof.
  intros Hback Hsize Hne Htail Hnd.
  induction members as [|[key x] members IH]; [congruence|]. intros n Hn.
  apply Forall_cons in Hback as [Hx Hback]. apply Forall_cons in Hsize as [Hfx Hsize].
  simpl in Hx, Hfx.
  destruct n as [|n]; [simpl in Hn; lia|].
  assert (Hkey : forall more,
    skip_ws (NL +:+ spaces k +:+ quote key +:+ ": " +:+ more)
    = String dquote (quote_body key +:+ String dquote (String ":" (String " " more)))).
  { intros more. rewrite skip_ws_NL, skip_ws_spaces, quote_append. reflexivity. }
  assert (Hval : forall T, no_digit_head T ->
    parse_value f (String " " (stringify_at k x +:+ T)) = Some (x, T)).
  { intros T HT. rewrite <- parse_value_skip.
    change (skip_ws (String " " (stringify_at k x +:+ T)))
      with (skip_ws (stringify_at k x +:+ T)).
    rewrite parse_value_skip. now apply Hx. }
  destruct members as [|[key' y] members].
  - cbn [members_text parse_members]. rewrite Hkey.
    change (Ascii.eqb dquote dquote) with true. cbn iota.
    rewrite parse_string_quote_body, skip_ws_token by reflexivity.
    change (Ascii.eqb ":" ":") with true. cbn iota.
    rewrite Hval by assumption. rewrite Htail. reflexivity.
  - change (members_text k ((key, x) :: (key', y) :: members) tail)
      with (NL +:+ spaces k +:+ quote key +:+ ": " +:+ stringify_at k x
            +:+ String "," (members_text k ((key', y) :: members) tail)).
    cbn [parse_members]. rewrite Hkey.
    change (Ascii.eqb dquote dquote) with true. cbn iota.
    rewrite parse_string_quote_body, skip_ws_token by reflexivity.
    change (Ascii.eqb ":" ":") with true. cbn iota.
    rewrite Hval by reflexivity.
    rewrite skip_ws_token by reflexivity.
    change (Ascii.eqb "," ",") with true. cbn iota.
    rewrite IH; [reflexivity|assumption|assumption|congruence|simpl in *; lia].
Qed.

Lemma size_pos (v : value) : 1 ≤ size v.
Proof. destruct v; simpl; lia. Qed.

Lemma sizes_bounded (items : list value) (f : nat) :
  list_sum (map size items) ≤ f ->
  Forall (fun v => size v ≤ f) items ∧ length items ≤ f.
Proof.
  revert f. induction items as [|x items IH]; intros f H; simpl in *.
  - split; [constructor | lia].
  - pose proof (size_pos x). destruct (IH (f - size x)) as [Hall Hlen]; [lia|]. split.
    + constructor; [lia|]. eapply Forall_impl; [exact Hall|]. simpl. intros; lia.
    + lia.
Qed.

Lemma member_sizes_bounded (members : list (string * value)) (f : nat) :
  list_sum (map (fun kv => size kv.2) members) ≤ f ->
  Forall (fun kv => size kv.2 ≤ f) members ∧ length members ≤ f.
Proof.
  revert f. induction members as [|[k x] members IH]; intros f H; simpl in *.
  - split; [constructor | lia].
  - pose proof (size_pos x). destruct (IH (f - size x)) as [Hall Hlen]; [lia|]. split.
    + constructor; [simpl; lia|]. eapply Forall_impl; [exact Hall|]. simpl. intros; lia.
    + lia.
Qed.

Lemma closing_tail (ind : nat) (c : ascii) (rest : string) :
  is_ws c = false ->
  skip_ws (NL +:+ spaces ind +:+ String c rest) = String c rest
  ∧ no_digit_head (NL +:+ spaces ind +:+ String c rest).
Proof.
  intros H. split; [|reflexivity].
  now rewrite skip_ws_NL, skip_ws_spaces, skip_ws_token.
Qed.

(** Parsing the text of a value gives the value back and leaves the rest. *)
Theorem parse_stringify_at (v : value) : parses_back v.
Proof.
  induction v as [ |b|z|s|items IH|members IH] using value_ind;
    intros ind rest fuel Hf Hnd;
    (destruct fuel as [|f]; [simpl in Hf; lia|]).
  - reflexivity.
  - destruct b; reflexivity.
  - cbn [stringify_at].
    destruct (number_to_string_head z rest) as (c & tl & E & Hc).
    rewrite E, parse_value_number by exact Hc.
    rewrite <- E, parse_number_to_string by exact Hnd. reflexivity.
  - cbn [stringify_at].
    now rewrite quote_append, parse_value_string, parse_string_quote_body.
  - destruct items as [|x items]; [reflexivity|].
    rewrite stringify_array, parse_value_array.
    set (tail := NL +:+ spaces ind +:+ "]" +:+ rest).
    assert (Hhd : starts_with "]" (skip_ws (items_text (2 + ind) (x :: items) tail)) = None).
    { assert (Hshape : exists more, items_text (2 + ind) (x :: items) tail
                = NL +:+ spaces (2 + ind) +:+ stringify_at (2 + ind) x +:+ more)
        by (destruct items; eexists; reflexivity).
      destruct Hshape as [more ->].
      rewrite skip_ws_NL, skip_ws_spaces.
      destruct (stringify_head (2 + ind) x more) as (c & tl & -> & Hws & Hc).
      rewrite skip_ws_token by exact Hws. unfold starts_with. now rewrite Hc. }
    rewrite Hhd.
    cbn [size] in Hf. apply le_S_n, sizes_bounded in Hf as [Hall Hlen].
    destruct (closing_tail ind "]" rest eq_refl) as [Htail Hdig].
    now rewrite (parse_items_text f (2 + ind) rest tail (x :: items)).
  - destruct members as [|[key x] members]; [reflexivity|].
    rewrite stringify_object, parse_value_object.
    set (tail := NL +:+ spaces ind +:+ "}" +:+ rest).
    assert (Hhd : starts_with "}"
                    (skip_ws (members_text (2 + ind) ((key, x) :: members) tail)) = None).
    { assert (Hshape : exists more, members_text (2 + ind) ((key, x) :: members) tail
                = NL +:+ spaces (2 + ind) +:+ quote key +:+ more)
        by (destruct members as [|[? ?] ?]; eexists; reflexivity).
      destruct Hshape as [more ->].
      now rewrite skip_ws_NL, skip_ws_spaces, quote_append. }
    rewrite Hhd.
    cbn [size] in Hf. apply le_S_n, member_sizes_bounded in Hf as [Hall Hlen].
    destruct (closing_tail ind "}" rest eq_refl) as [Htail Hdig].
    now rewrite (parse_members_text f (2 + ind) rest tail ((key, x) :: members)).
Qed.

(** *** Enough fuel *)

Lemma items_text_length (k : nat) (tail : string) (items : list value) :
  Forall (fun v => forall ind, size v ≤ String.length (stringify_at ind v)) items ->
  list_sum (map size items) ≤ String.length (items_text k items tail).
Proof.
  induction items as [|x items IH]; intros H; [simpl; lia|].
  apply Forall_cons in H as [Hx H]. specialize (IH H). specialize (Hx k).
  destruct items as [|y items].
  - cbn [items_text]. rewrite !length_append. simpl in *. lia.
  - change (items_text k (x :: y :: items) tail)
      with (NL +:+ spaces k +:+ stringify_at k x +:+ "," +:+ items_text k (y :: items) tail).
    change (list_sum (map size (x :: y :: items)))
      with (size x + list_sum (map size (y :: items))).
    rewrite !length_append. lia.
Qed.

Lemma members_text_length (k : nat) (tail : string) (members : list (string * value)) :
  Forall (fun kv => forall ind, size kv.2 ≤ String.length (stringify_at ind kv.2)) members ->
  list_sum (map (fun kv => size kv.2) members)
  ≤ String.length (members_text k members tail).
Proof.
  induction members as [|[key x] members IH]; intros H; [simpl; lia|].
  apply Forall_cons in H as [Hx H]. specialize (IH H). specialize (Hx k). simpl in Hx.
  destruct members as [|[key' y] members].
  - cbn [members_text]. rewrite !length_append. simpl in *. lia.
  - change (members_text k ((key, x) :: (key', y) :: members) tail)
      with (NL +:+ spaces k +:+ quote key +:+ ": " +:+ stringify_at k x +:+ ","
            +:+ members_text k ((key', y) :: members) tail).
    change (list_sum (map (fun kv => size kv.2) ((key, x) :: (key', y) :: members)))
      with (size x + list_sum (map (fun kv => size kv.2) ((key', y) :: members))).
    rewrite !length_append. lia.
Qed.

Lemma size_le_length (v : value) :
  forall ind, size v ≤ String.length (stringify_at ind v).
Proof.
  induction v as [ |b|z|s|items IH|members IH] using value_ind; intros ind.
  - simpl. lia.
  - destruct b; simpl; lia.
  - cbn [stringify_at size].
    destruct (number_to_string_head z "") as (c & tl & E & _).
    rewrite append_empty_r in E. rewrite E. simpl. lia.
  - simpl. lia.
  - destruct items as [|x items]; [simpl; lia|].
    rewrite <- (append_empty_r (stringify_at ind (JArr (x :: items)))), stringify_array.
    cbn [size String.length]. apply le_n_S, items_text_length, IH.
  - destruct members as [|kx members]; [simpl; lia|].
    rewrite <- (append_empty_r (stringify_at ind (JObj (kx :: members)))), stringify_object.
    cbn [size String.length]. apply le_n_S, members_text_length, IH.
Qed.

(** [JSON.parse (JSON.stringify (v, null, 2))] is [v]. *)
Theorem parse_stringify (v : value) : parse (stringify v) = Some v.
Proof.
  unfold parse, stringify.
  pose proof (parse_stringify_at v 0 "" (S (String.length (stringify_at 0 v)))) as H.
  rewrite append_empty_r in H. rewrite H.
  - reflexivity.
  - pose proof (size_le_length v 0). lia.
  - exact I.
Qed.

End JsonFacts.

(** ** The thread store *)

Lemma as_block_to_json (b : ContentBlock) : as_block (block_to_json b) = Some b.
Proof. destruct b as [t|i n input|i c [e|]]; reflexivity. Qed.

Lemma as_message_to_json (m : MessageParam) : as_message (message_to_json m) = Some m.
Proof.
  destruct m as [r c]. unfold message_to_json, as_message. cbn [field String.eqb Ascii.eqb Bool.eqb].
  simpl.
  assert (Hr : as_role (role_to_json r) = Some r) by (destruct r; reflexivity).
  assert (Hc : as_content (content_to_json c) = Some c).
  { destruct c as [s|bs]; [reflexivity|]. simpl.
    change (map block_to_json bs) with (block_to_json <$> bs).
    rewrite mapM_fmap_Some by apply as_block_to_json. reflexivity. }
  now rewrite Hr, Hc.
Qed.

Lemma as_thread_to_json (t : Thread) : as_thread (thread_to_json t) = Some t.
Proof.
  destruct t as [ts ch msgs]. unfold thread_to_json, as_thread. simpl.
  change (map message_to_json msgs) with (message_to_json <$> msgs).
  rewrite mapM_fmap_Some by apply as_message_to_json. reflexivity.
Qed.

Lemma save_then_load_core (id ch : string) (t : Thread) (fs : FS) :
  exists fs', saveThread id t DiskOk fs = Ok fs' ∧ load_or_fresh id ch fs' = Some t.
Proof.
  eexists. split; [apply saveThread_DiskOk|].
  unfold load_or_fresh, loadThread. cbn [files].
  change (thread_file {| homedir := homedir fs; dirs := _; files := _ |} id)
    with (thread_file fs id).
  rewrite lookup_insert_eq, JsonFacts.parse_stringify.
  cbn [thread_to_json]. apply as_thread_to_json.
Qed.

(** ** [parse] stays inside the JSON grammar *)

Lemma scan_string_parse_string (n : nat) :
  forall s str r, String.length s <= n -> parse_string s = Some (str, r) ->
                  scan_string s = Some r.
Proof.
  induction n as [|n IH]; intros s str r Hlen H.
  - destruct s; [discriminate | simpl in Hlen; lia].
  - destruct s as [|c rest]; [discriminate|]. simpl in Hlen.
    cbn [parse_string scan_string] in *.
    destruct (Ascii.eqb c dquote); [now injection H as _ <-|].
    destruct (Ascii.eqb c "\").
    + destruct rest as [|e rest']; [discriminate|]. simpl in Hlen.
      assert (Hlit : forall x, match parse_string rest' with
                               | Some (str0, r0) => Some (String x str0, r0)
                               | None => None
                               end = Some (str, r) -> scan_string rest' = Some r).
      { intros x Hx. destruct (parse_string rest') as [[str0 r0]|] eqn:E; [|discriminate].
        injection Hx as _ <-. apply (IH rest' str0 r0); [lia | exact E]. }
      destruct e as [[] [] [] [] [] [] [] []]; try discriminate H; try (exact (Hlit _ H)).
      destruct rest' as [|h1 [|h2 [|h3 [|h4 rest'']]]]; try discriminate H.
      simpl in Hlen. unfold unicode_escape in H.
      destruct (hex_value h1) as [[|?]|]; try discriminate H;
        destruct (hex_value h2) as [[|?]|]; try discriminate H;
        destruct (hex_value h3); try discriminate H;
        destruct (hex_value h4); try discriminate H.
      destruct (parse_string rest'') as [[str0 r0]|] eqn:E; [|discriminate].
      injection H as _ <-. apply (IH rest'' str0 r0); [lia | exact E].
    + destruct (N_of_ascii c <? 32)%N; [discriminate|].
      destruct (parse_string rest) as [[str0 r0]|] eqn:E; [|discriminate].
      injection H as _ <-. apply (IH rest str0 r0); [lia | exact E].
Qed.

Lemma scan_string_parsed (s str r : string) :
  parse_string s = Some (str, r) -> scan_string s = Some r.
Proof. apply (scan_string_parse_string (String.length s)). lia. Qed.

Lemma starts_with_Some (c : ascii) (s r : string) :
  starts_with c s = Some r -> s = String c r.
Proof.
  destruct s as [|a s]; [discriminate|]. simpl.
  destruct (Ascii.eqb a c) eqn:E; [|discriminate].
  apply Ascii.eqb_eq in E as ->. now intros [= ->].
Qed.

Lemma minus_head (s : string) :
  match s with
  | String "-" r => (true, r)
  | _ => (false, s)
  end = match starts_with "-" s with
        | Some r => (true, r)
        | None => (false, s)
        end.
Proof. destruct s as [|[[] [] [] [] [] [] [] []] s]; reflexivity. Qed.

Lemma nzhead_no_zero (d d' : Decimal.uint) : Decimal.nzhead d ≠ Decimal.D0 d'.
Proof. induction d; simpl; try discriminate. exact IHd. Qed.

Lemma canonical_zero_head (neg : bool) (d : Decimal.uint) :
  canonical (if neg then Decimal.Neg (Decimal.D0 d) else Decimal.Pos (Decimal.D0 d)) = true ->
  d = Decimal.Nil.
Proof.
  unfold canonical. destruct (Decimal.int_eq_dec _ _) as [E|]; [|discriminate]. intros _.
  destruct neg; simpl in E.
  - destruct (Decimal.nzhead d) eqn:Ed; try discriminate E.
    exfalso. now apply (nzhead_no_zero d u).
  - injection E as E. unfold Decimal.unorm in E. simpl in E.
    destruct (Decimal.nzhead d) eqn:Ed; try discriminate E.
    + now injection E.
    + exfalso. now apply (nzhead_no_zero d u).
Qed.

Lemma digit_of_nonnil (c : ascii) (D : Decimal.uint -> Decimal.uint) (d : Decimal.uint) :
  digit_of c = Some D -> D d ≠ Decimal.Nil.
Proof.
  destruct c as [[] [] [] [] [] [] [] []]; simpl; try discriminate; intros [= <-]; discriminate.
Qed.

Lemma parse_digits_nil (s r : string) : parse_digits s = (Decimal.Nil, r) -> r = s.
Proof.
  destruct s as [|c s]; simpl; [now intros [= <-]|].
  destruct (digit_of c) as [D|] eqn:Ed; [|now intros [= <-]].
  destruct (parse_digits s) as [d0 r0]. intros [= E _].
  now apply (digit_of_nonnil c D d0) in E.
Qed.

Lemma scan_number_parsed (s : string) (z : Z) (r : string) :
  parse_number s = Some (z, r) -> number_end r = true -> scan_number s = Some r.
Proof.
  unfold parse_number, scan_number. rewrite minus_head. intros H Hend.
  assert (Htail : match scan_fraction r with
                  | Some r' => scan_exponent r'
                  | None => None
                  end = Some r).
  { unfold scan_fraction, scan_exponent, number_end in *.
    destruct r as [|c r0]; [reflexivity|]. simpl.
    apply negb_true_iff in Hend. apply orb_false_iff in Hend as [Hend He2].
    apply orb_false_iff in Hend as [Hdot He1]. now rewrite Hdot, He1, He2. }
  set (neg_body := match starts_with "-" s with
                   | Some r0 => (true, r0)
                   | None => (false, s)
                   end) in H.
  assert (Hbody : default s (starts_with "-" s) = neg_body.2)
    by (subst neg_body; now destruct (starts_with "-" s)).
  rewrite Hbody. destruct neg_body as [neg body]. cbn [snd].
  destruct (parse_digits body) as [d r1] eqn:Ed.
  assert (Hd : d ≠ Decimal.Nil ∧ r1 = r
               ∧ canonical (if neg then Decimal.Neg d else Decimal.Pos d) = true).
  { destruct d; try discriminate H;
      (destruct (canonical _) eqn:Ec; [|discriminate H]);
      injection H as _ <-; repeat split; try discriminate; exact Ec. }
  destruct Hd as (Hnil & -> & Hc). clear H.
  destruct (starts_with "0" body) as [r0|] eqn:E0.
  - apply starts_with_Some in E0 as ->. simpl in Ed.
    destruct (parse_digits r0) as [d' r'] eqn:Ed'. injection Ed as <- <-.
    apply canonical_zero_head in Hc as ->. apply parse_digits_nil in Ed' as ->.
    exact Htail.
  - unfold scan_digits. rewrite Ed. destruct d; [congruence|..]; exact Htail.
Qed.

Lemma number_end_skip_ws (r : string) :
  match skip_ws r with
  | String c _ => number_end (skip_ws r) = true
  | "" => True
  end ->
  number_end r = true.
Proof.
  destruct r as [|a r0]; [reflexivity|]. cbn [skip_ws].
  destruct (is_ws a) eqn:Ews; [|now cbn [skip_ws]].
  intros _. cbn [number_end].
  destruct (Ascii.eqb a ".") eqn:E1; [apply Ascii.eqb_eq in E1 as ->; discriminate|].
  destruct (Ascii.eqb a "e") eqn:E2; [apply Ascii.eqb_eq in E2 as ->; discriminate|].
  destruct (Ascii.eqb a "E") eqn:E3; [apply Ascii.eqb_eq in E3 as ->; discriminate|].
  reflexivity.
Qed.

Lemma number_end_delimiter (r r' : string) (c : ascii) :
  skip_ws r = String c r' ->
  Ascii.eqb c "," || Ascii.eqb c "]" || Ascii.eqb c "}" = true ->
  number_end r = true.
Proof.
  intros Hws Hc. apply number_end_skip_ws. rewrite Hws. cbn [number_end].
  destruct (Ascii.eqb c ",") eqn:E1; [apply Ascii.eqb_eq in E1 as ->; reflexivity|].
  destruct (Ascii.eqb c "]") eqn:E2; [apply Ascii.eqb_eq in E2 as ->; reflexivity|].
  destruct (Ascii.eqb c "}") eqn:E3; [apply Ascii.eqb_eq in E3 as ->; reflexivity|].
  discriminate.
Qed.

Section Scan.
Variable pv : string -> option (value * string).
Variable sv : string -> option string.
Hypothesis sv_pv : forall s v r, pv s = Some (v, r) -> number_end r = true -> sv s = Some r.

Lemma scan_items_parsed (n : nat) :
  forall s vs r, parse_items pv n s = Some (vs, r) -> scan_items sv n s = Some r.
Proof.
  induction n as [|n IH]; intros s vs r H; [discriminate|].
  cbn [parse_items scan_items] in *.
  destruct (pv s) as [[v r0]|] eqn:Ev; [|discriminate].
  destruct (skip_ws r0) as [|c r'] eqn:Ews; [discriminate|].
  assert (Hend : Ascii.eqb c "," || Ascii.eqb c "]" || Ascii.eqb c "}" = true ->
                 sv s = Some r0)
    by (intros Hc; apply (sv_pv s v r0 Ev), (number_end_delimiter r0 r' c Ews Hc)).
  destruct (Ascii.eqb c ",") eqn:E1.
  - rewrite Hend, Ews, E1 by reflexivity.
    destruct (parse_items pv n r') as [[vs0 r1]|] eqn:Ei; [|discriminate].
    injection H as _ <-. exact (IH r' vs0 r1 Ei).
  - destruct (Ascii.eqb c "]") eqn:E2; [|discriminate].
    rewrite Hend, Ews, E1, E2 by reflexivity. now injection H as _ <-.
Qed.

Lemma scan_members_parsed (n : nat) :
  forall s kvs r, parse_members pv n s = Some (kvs, r) -> scan_members sv n s = Some r.
Proof.
  induction n as [|n IH]; intros s kvs r H; [discriminate|].
  cbn [parse_members scan_members] in *.
  destruct (skip_ws s) as [|q r0]; [discriminate|].
  destruct (Ascii.eqb q dquote); [|discriminate].
  destruct (parse_string r0) as [[k r1]|] eqn:Ek; [|discriminate].
  rewrite (scan_string_parsed r0 k r1 Ek).
  destruct (skip_ws r1) as [|colon r2]; [discriminate|].
  destruct (Ascii.eqb colon ":"); [|discriminate].
  destruct (pv r2) as [[v r3]|] eqn:Ev; [|discriminate].
  destruct (skip_ws r3) as [|c r4] eqn:Ews; [discriminate|].
  assert (Hend : Ascii.eqb c "," || Ascii.eqb c "]" || Ascii.eqb c "}" = true ->
                 sv r2 = Some r3)
    by (intros Hc; apply (sv_pv r2 v r3 Ev), (number_end_delimiter r3 r4 c Ews Hc)).
  destruct (Ascii.eqb c ",") eqn:E1.
  - rewrite Hend, Ews, E1 by reflexivity.
    destruct (parse_members pv n r4) as [[kvs0 r5]|] eqn:Ei; [|discriminate].
    injection H as _ <-. exact (IH r4 kvs0 r5 Ei).
  - destruct (Ascii.eqb c "}") eqn:E2; [|discriminate].
    rewrite Hend, Ews, E1, E2 by apply orb_true_r. now injection H as _ <-.
Qed.
End Scan.

Lemma scan_value_parsed (fuel : nat) :
  forall s v r, parse_value fuel s = Some (v, r) -> number_end r = true ->
                scan_value fuel s = Some r.
Proof.
  induction fuel as [|fuel IH]; intros s v r H Hend; [discriminate|].
  cbn [parse_value scan_value] in *.
  destruct (skip_ws s) as [|c r0]; [discriminate|].
  destruct (Ascii.eqb c dquote).
  { destruct (parse_string r0) as [[str r1]|] eqn:Es; [|discriminate].
    injection H as _ <-. exact (scan_string_parsed r0 str r1 Es). }
  destruct (Ascii.eqb c "n").
  { destruct (expect "ull" r0); [now injection H as _ <- | discriminate]. }
  destruct (Ascii.eqb c "t").
  { destruct (expect "rue" r0); [now injection H as _ <- | discriminate]. }
  destruct (Ascii.eqb c "f").
  { destruct (expect "alse" r0); [now injection H as _ <- | discriminate]. }
  destruct (Ascii.eqb c "[").
  { destruct (starts_with "]" (skip_ws r0)); [now injection H as _ <-|].
    destruct (parse_items (parse_value fuel) fuel r0) as [[vs r1]|] eqn:Ei; [|discriminate].
    injection H as _ <-. exact (scan_items_parsed _ _ IH fuel r0 vs r1 Ei). }
  destruct (Ascii.eqb c "{").
  { destruct (starts_with "}" (skip_ws r0)); [now injection H as _ <-|].
    destruct (parse_members (parse_value fuel) fuel r0) as [[kvs r1]|] eqn:Ei; [|discriminate].
    injection H as _ <-. exact (scan_members_parsed _ _ IH fuel r0 kvs r1 Ei). }
  destruct (parse_number (String c r0)) as [[z r1]|] eqn:En; [|discriminate].
  injection H as _ <-. exact (scan_number_parsed _ z r1 En Hend).
Qed.

(** Whatever [parse] returns a value for is a JSON text. *)
Lemma parse_accepts (text : string) (v : value) : parse text = Some v -> accepts text = true.
Proof.
  unfold parse, accepts.
  destruct (parse_value _ text) as [[v0 r]|] eqn:E; [|discriminate].
  destruct (decide (skip_ws r = "")) as [Hr|]; [|discriminate]. intros _.
  rewrite (scan_value_parsed _ text v0 r E), Hr; [reflexivity|].
  apply number_end_skip_ws. now rewrite Hr.
Qed.

(** A text outside the grammar makes [JSON.parse] throw. *)
Lemma rejected_not_parsed (text : string) : accepts text = false -> parse text = None.
Proof.
  intros H. destruct (parse text) as [v|] eqn:E; [|reflexivity].
  apply parse_accepts in E. congruence.
Qed.

(** ** Loading *)

(** C7.  [loadThread] returns the persisted thread: when the file of the
    conversation holds the text a save wrote for a thread, a load gives that
    thread and the pass works on its messages followed by the mailbox.  When
    the file is missing, and when its text is outside the JSON grammar so
    that [JSON.parse] throws, [loadThread] gives [undefined]; in both cases
    the pass works on the fresh thread (the id, the channel, no message)
    extended by the mailbox, so that a pass with a user message waiting goes
    on to the generation round with exactly the waiting messages. *)
Theorem load_thread_or_fresh (id ch : string) (st : State) :
  let pending := default [] (pendingUserMessages st !! id) in
  let fresh := {| threadTs := id; channel := ch; messages := [] |} in
  let record := files (disk st) !! thread_file (disk st) id in
  let drained := set_pending (delete id (pendingUserMessages st)) st in
  let starts_fresh :=
    loadThread id (disk st) = None
    ∧ load_or_fresh id ch (disk st) = Some fresh
    ∧ (exists c, loop_head id ch st = Some (drained, c))
    ∧ (forall m, last pending = Some m -> role m = user ->
         loop_head id ch st
         = Some (drained, Generate {| threadTs := id; channel := ch; messages := pending |})) in
  (forall t, record = Some (stringify (thread_to_json t)) ->
     loadThread id (disk st) = Some (thread_to_json t)
     ∧ load_or_fresh id ch (disk st) = Some t
     ∧ (exists c, loop_head id ch st = Some (drained, c))
     ∧ (forall m, last (messages t ++ pending) = Some m -> role m = user ->
          loop_head id ch st
          = Some (drained, Generate (with_messages (messages t ++ pending) t))))
  ∧ (record = None -> starts_fresh)
  ∧ (forall text, record = Some text -> accepts text = false -> starts_fresh).
Proof.
  intros pending fresh record drained starts_fresh.
  assert (Habs : loadThread id (disk st) = None -> starts_fresh).
  { intros Hnone. pose proof (load_or_fresh_absent id ch _ Hnone) as Hfresh.
    pose proof (loop_head_total id ch st _ Hfresh) as Hhead. simpl in Hhead.
    fold pending in Hhead.
    split; [exact Hnone|]. split; [exact Hfresh|]. split.
    - eexists. exact Hhead.
    - intros m Hm Hrole. rewrite Hhead, Hm. unfold loop_done. now rewrite Hrole. }
  split; [|split].
  - intros t Hrec.
    assert (Hload : loadThread id (disk st) = Some (thread_to_json t)).
    { unfold loadThread. fold record. rewrite Hrec. apply JsonFacts.parse_stringify. }
    assert (Hthread : load_or_fresh id ch (disk st) = Some t).
    { unfold load_or_fresh. rewrite Hload. cbn [thread_to_json]. apply as_thread_to_json. }
    pose proof (loop_head_total id ch st t Hthread) as Hhead. fold pending in Hhead.
    split; [exact Hload|]. split; [exact Hthread|]. split.
    + eexists. exact Hhead.
    + intros m Hm Hrole. rewrite Hhead, Hm. unfold loop_done. now rewrite Hrole.
  - intros Hrec. apply Habs. unfold loadThread. fold record. now rewrite Hrec.
  - intros text Hrec Hbad. apply Habs. unfold loadThread. fold record. rewrite Hrec.
    now apply rejected_not_parsed.
Qed.

(** A record cut short is outside the grammar and reads as absent. *)
Example corrupt_record_is_absent :
  accepts truncated_record = false
  ∧ String.prefix truncated_record (stringify (thread_to_json plain_answer)) = true
  ∧ loadThread "17.5" truncated = None
  ∧ load_or_fresh "17.5" "D1" truncated
    = Some {| threadTs := "17.5"; channel := "D1"; messages := [] |}.
Proof. repeat split; vm_compute; reflexivity. Qed.

(** A number with a fraction is JSON that [parse] has no value for: such a
    record is outside this model. *)
Example fraction_outside_model :
  accepts "[1.5]" = true ∧ parse "[1.5]" = None ∧ accepts "[15]" = true
  ∧ parse "[15]" = Some (JArr [JNum 15]).
Proof. repeat split; vm_compute; reflexivity. Qed.

(** C8.  A save that the disk accepts creates the threads directory,
    whatever was there before, and a load of the same conversation then gives
    the saved thread: the same id and channel, the same messages in the same
    order, each with its role and each block with all its fields, for text,
    tool call and tool result blocks and for plain text content.  Saving a
    thread over another leaves the disk as saving it alone would. *)
Theorem save_then_load (id ch : string) (t : Thread) (fs : FS) :
  exists fs',
    saveThread id t DiskOk fs = Ok fs'
    ∧ threadsDir fs' ∈ dirs fs'
    ∧ loadThread id fs' = Some (thread_to_json t)
    ∧ as_thread (thread_to_json t) = Some t
    ∧ load_or_fresh id ch fs' = Some t
    ∧ (forall t0 fs0, saveThread id t0 DiskOk fs = Ok fs0 ->
                      saveThread id t DiskOk fs0 = Ok fs').
Proof.
  eexists. split; [apply saveThread_DiskOk|].
  assert (Hload : loadThread id
            {| homedir := homedir fs; dirs := {[ configDir fs; threadsDir fs ]} ∪ dirs fs;
               files := <[thread_file fs id := stringify (thread_to_json t)]> (files fs) |}
          = Some (thread_to_json t)).
  { unfold loadThread. cbn [files].
    change (thread_file {| homedir := homedir fs; dirs := _; files := _ |} id)
      with (thread_file fs id).
    rewrite lookup_insert_eq. apply JsonFacts.parse_stringify. }
  split; [|split; [exact Hload|split; [apply as_thread_to_json|split]]].
  - cbn [dirs]. change (threadsDir {| homedir := homedir fs; dirs := _; files := _ |})
      with (threadsDir fs).
    apply elem_of_union_l, elem_of_union_r, elem_of_singleton. reflexivity.
  - unfold load_or_fresh. rewrite Hload. cbn [thread_to_json]. apply as_thread_to_json.
  - intros t0 fs0 H0. rewrite saveThread_DiskOk in H0. injection H0 as <-.
    rewrite saveThread_DiskOk. f_equal.
    change (thread_file {| homedir := homedir fs; dirs := _; files := _ |} id)
      with (thread_file fs id).
    change (configDir {| homedir := homedir fs; dirs := _; files := _ |})
      with (configDir fs).
    change (threadsDir {| homedir := homedir fs; dirs := _; files := _ |})
      with (threadsDir fs).
    cbn [homedir dirs files]. f_equal.
    + rewrite (assoc_L (∪)). now rewrite (idemp_L (∪)).
    + apply insert_insert_eq.
Qed.

(** ** Every step is defined on a readable disk *)

Lemma loadThread_saved_other (id id' : string) (t : Thread) (dev : Disk) (fs fs' : FS) :
  id' ≠ id -> saveThread id t dev fs = Ok fs' -> loadThread id' fs' = loadThread id' fs.
Proof.
  intros Hne H. apply saveThread_ok in H as [_ ->]. unfold loadThread. cbn [files].
  change (thread_file {| homedir := homedir fs; dirs := _; files := _ |} id')
    with (thread_file fs id').
  rewrite lookup_insert_ne; [reflexivity|].
  intros E. apply thread_file_inj in E. congruence.
Qed.

Lemma saveThread_readable (id : string) (t : Thread) (dev : Disk) (fs fs' : FS) :
  readable fs -> saveThread id t dev fs = Ok fs' -> readable fs'.
Proof.
  intros Hr H id' ch. destruct (decide (id' = id)) as [->|Hne].
  - pose proof H as H'. apply saveThread_ok in H' as [-> _].
    destruct (save_then_load_core id ch t fs) as (fs1 & H1 & H2).
    rewrite H in H1. injection H1 as <-. rewrite H2. eauto.
  - unfold load_or_fresh. rewrite (loadThread_saved_other id id' t dev fs fs' Hne H).
    apply Hr.
Qed.

Lemma loop_from_head_defined (id ch : string) (st : State) :
  readable (disk st) ->
  exists st' o, loop_from_head id ch st = Some (st', o) ∧ disk st' = disk st.
Proof.
  intros Hr. destruct (Hr id ch) as [thread Hl].
  unfold loop_from_head. rewrite (loop_head_total id ch st thread Hl). simpl.
  destruct (last _) as [m|]; [destruct (loop_done m)|]; eexists _, _; split; reflexivity.
Qed.

Lemma runThreadLoop_defined (id ch : string) (st : State) :
  readable (disk st) ->
  exists st' o, runThreadLoop id ch st = Some (st', o) ∧ disk st' = disk st.
Proof.
  intros Hr. unfold runThreadLoop. destruct (decide _); [eauto|].
  exact (loop_from_head_defined id ch (set_active _ st) Hr).
Qed.

Lemma step_defined (e : Event) (st : State) :
  readable (disk st) -> exists st', step e st = Some st' ∧ readable (disk st').
Proof.
  intros Hr. destruct e as [ev ok|id ch|k reply outside dev]; simpl.
  - unfold on_message.
    destruct (_ || _); [eauto|]. destruct (negb (bool_decide _)); [eauto|].
    destruct (negb ok); [eauto|].
    match goal with |- context [runThreadLoop ?i ?c ?s] =>
      destruct (runThreadLoop_defined i c s Hr) as (st' & o & -> & Hd) end.
    exists st'. split; [reflexivity|]. now rewrite Hd.
  - destruct (runThreadLoop_defined id ch st Hr) as (st' & o & -> & Hd).
    exists st'. split; [reflexivity|]. now rewrite Hd.
  - unfold resume_at. destruct (awaiting st !! k) as [t|]; [|eauto].
    unfold resume.
    destruct (generateMessages _ _ _ _ _) as [msgs|msg]; [|eauto].
    destruct (saveThread _ _ _ _) as [fs'|msg] eqn:Es; [|eauto].
    apply (saveThread_readable _ _ _ _ _ Hr) in Es.
    match goal with |- context [loop_from_head ?i ?c ?s] =>
      destruct (loop_from_head_defined i c s Es) as (st' & o & -> & Hd) end.
    exists st'. split; [reflexivity|]. now rewrite Hd.
Qed.

(** From a disk whose records are readable, every sequence of events runs
    to a state. *)
Lemma run_defined (events : list Event) :
  forall st, readable (disk st) -> exists st', run events st = Some st'.
Proof.
  induction events as [|e events IH]; intros st Hr; [simpl; eauto|].
  destruct (step_defined e st Hr) as (st1 & H1 & Hr1). simpl. rewrite H1. simpl.
  now apply IH.
Qed.

Lemma empty_disk_readable (home : string) (ds : gset string) :
  readable {| homedir := home; dirs := ds; files := ∅ |}.
Proof. intros id ch. unfold load_or_fresh, loadThread. simpl. rewrite lookup_empty. eauto. Qed.

(** ** Concrete runs *)

Lemma single_flight_per_conversation_witness :
  exists st,
    run [Message hello true; Trigger "17.5" "D1"; Message hello true]
        (boot (Some "U1") bot_home) = Some st
    ∧ single_flight st
    ∧ runThreadLoop "17.5" "D1" st = Some (st, Skipped).
Proof.
  eexists. split; [vm_compute; reflexivity|].
  destruct (single_flight_per_conversation (Some "U1") bot_home
              [Message hello true; Trigger "17.5" "D1"; Message hello true] _
              ltac:(vm_compute; reflexivity)) as (Hsf & Hskip & _).
  split; [exact Hsf|].
  apply Hskip. apply (bool_decide_unpack _). vm_compute. exact I.
Defined.

Lemma mailbox_fifo_exactly_once_witness :
  exists st' thread,
    loop_head "17.5" "D1" queued = Some (st', Generate thread)
    ∧ pendingUserMessages st' !! "17.5" = None
    ∧ messages thread = [inbound hello].
Proof.
  eexists _, _. split; [vm_compute; reflexivity|].
  destruct (mailbox_fifo_exactly_once [] (pendingUserMessages queued) "17.5")
    as (_ & _ & Hgone & Hloop).
  destruct (Hloop "D1" queued _ _ ltac:(vm_compute; reflexivity))
    as (Hp & stored & Hs & Hm).
  split; [rewrite Hp; exact Hgone|]. reflexivity.
Defined.

Lemma command_exec_result_witness :
  thrown_by_execSync
    {| stdout := Some "partial"; stderr := Some ""; status := None;
       signal := Some "SIGTERM"; code := Some "ETIMEDOUT"; killed := None;
       message := "spawnSync /bin/sh ETIMEDOUT" |}
  ∧ exists s,
      execute_bash JNull timed_out = Ok s
      ∧ s = "stdout:" +:+ NL +:+ "partial".
Proof.
  split; [reflexivity|].
  destruct (command_exec_result "D1" "17.5" "t1" JNull timed_out)
    as (s & Hs & _ & _ & _ & _ & _ & _ & Hlate).
  exists s. split; [exact Hs|].
  exact (Hlate eq_refl eq_refl "partial" eq_refl ltac:(discriminate) eq_refl).
Defined.

Lemma load_thread_or_fresh_witness :
  load_or_fresh "17.5" "D1" (store "17.5" plain_answer bot_home) = Some plain_answer
  ∧ loadThread "17.5" (disk queued) = None
  ∧ loop_head "17.5" "D1" queued
    = Some (set_pending (delete "17.5" (pendingUserMessages queued)) queued,
            Generate {| threadTs := "17.5"; channel := "D1"; messages := [inbound hello] |})
  ∧ accepts truncated_record = false
  ∧ load_or_fresh "17.5" "D1" truncated
    = Some {| threadTs := "17.5"; channel := "D1"; messages := [] |}.
Proof.
  destruct (load_thread_or_fresh "17.5" "D1" (boot None (store "17.5" plain_answer bot_home)))
    as (Hfound & _ & _).
  destruct (Hfound plain_answer ltac:(vm_compute; reflexivity)) as (_ & Hthread & _).
  destruct (load_thread_or_fresh "17.5" "D1" queued) as (_ & Hmissing & _).
  destruct (Hmissing ltac:(vm_compute; reflexivity)) as (Hnone & _ & _ & Hgo).
  destruct (load_thread_or_fresh "17.5" "D1" (boot None truncated)) as (_ & _ & Hcorrupt).
  destruct (Hcorrupt truncated_record ltac:(vm_compute; reflexivity)
                     ltac:(vm_compute; reflexivity)) as (_ & Hfresh & _).
  split; [exact Hthread|]. split; [exact Hnone|].
  split; [exact (Hgo (inbound hello) ltac:(vm_compute; reflexivity) eq_refl)|].
  split; [vm_compute; reflexivity | exact Hfresh].
Defined.

Lemma save_then_load_witness :
  exists fs0 fs',
    saveThread "17.5" plain_answer DiskOk bot_home = Ok fs0
    ∧ saveThread "17.5" dangling_call DiskOk fs0 = Ok fs'
    ∧ load_or_fresh "17.5" "D1" fs' = Some dangling_call.
Proof.
  destruct (save_then_load "17.5" "D1" dangling_call bot_home)
    as (fs' & _ & _ & _ & _ & Hload & Hover).
  destruct (save_then_load "17.5" "D1" plain_answer bot_home) as (fs0 & H0 & _).
  exists fs0, fs'. split; [exact H0|]. split; [exact (Hover plain_answer fs0 H0)|].
  exact Hload.
Defined.

Lemma empty_thread_faults_witness :
  loop_head "17.5" "D1" (boot (Some "U1") bot_home)
  = Some (set_pending (delete "17.5" ∅) (boot (Some "U1") bot_home), TypeError).
Proof.
  destruct (empty_thread_faults "17.5" "D1" (boot (Some "U1") bot_home)
              {| threadTs := "17.5"; channel := "D1"; messages := [] |}
              ltac:(vm_compute; reflexivity)) as [Hempty _].
  destruct (Hempty ltac:(vm_compute; reflexivity)) as [Hhead _].
  exact Hhead.
Defined.

Lemma drained_messages_lost_witness :
  exists st1 st3,
    runThreadLoop "17.5" "D1" queued = Some (st1, Suspended)
    ∧ step (Settle 0 (Rejected "overloaded") (fun _ => quiet) DiskOk)
           (set_pending (enqueue "17.5" (inbound again) (pendingUserMessages st1)) st1)
      = Some st3
    ∧ disk st3 = bot_home
    ∧ default [] (pendingUserMessages st3 !! "17.5") = [inbound again].
Proof.
  eexists _.
  destruct (drained_messages_lost "17.5" "D1" queued _ [inbound again]
              (Rejected "overloaded") (fun _ => quiet) DiskOk
              ltac:(vm_compute; reflexivity) I)
    as (_ & _ & st3 & msg & _ & Hstep & Hdisk & Hpend & _).
  exists st3. split; [vm_compute; reflexivity|].
  split; [exact Hstep|]. split; [exact Hdisk | exact Hpend].
Defined.

(** * Further properties of the handler, the tools, the store and whole runs *)

(** ** The message handler *)

Lemma on_message_cases (ev : SlackEvent) (ok : bool) (st : State) :
  on_message ev ok st
  = if accepted (SLACK_USER_ID st) ev ok
    then fst <$> runThreadLoop (conversation ev) (ev_channel ev)
                   (set_pending (enqueue (conversation ev) (inbound ev)
                                         (pendingUserMessages st)) st)
    else Some st.
Proof.
  unfold on_message, accepted.
  destruct (truthy (subtype ev)); [reflexivity|].
  destruct (String.eqb (channel_type ev) "im"); [|reflexivity].
  destruct (bool_decide (Some (ev_user ev) = SLACK_USER_ID st)); [|reflexivity].
  destruct ok; reflexivity.
Qed.

Lemma accepted_needs_user (ev : SlackEvent) (ok : bool) : accepted None ev ok = false.
Proof.
  unfold accepted. rewrite bool_decide_eq_false_2 by discriminate.
  now rewrite andb_false_r.
Qed.

(** X1.  Events the handler turns away leave no trace: after any number of
    them the state is the one before, with the same mailbox, active set,
    disk and request log.  When SLACK_USER_ID is not set every event is
    turned away. *)
Theorem rejected_events_change_nothing (st : State) (arrivals : list (SlackEvent * bool)) :
  SLACK_USER_ID st = None
  ∨ Forall (fun a => accepted (SLACK_USER_ID st) a.1 a.2 = false) arrivals ->
  run (map (fun a => Message a.1 a.2) arrivals) st = Some st.
Proof.
  intros H.
  assert (Hall : Forall (fun a => accepted (SLACK_USER_ID st) a.1 a.2 = false) arrivals).
  { destruct H as [Hnone|H]; [|exact H]. rewrite Hnone.
    apply Forall_forall. intros a _. apply accepted_needs_user. }
  clear H. induction Hall as [|a arrivals Ha _ IH]; [reflexivity|].
  simpl. rewrite on_message_cases, Ha. simpl. exact IH.
Qed.

Lemma rejected_events_change_nothing_witness :
  run [Message hello true; Message again true] (boot None bot_home)
  = Some (boot None bot_home).
Proof.
  apply (rejected_events_change_nothing (boot None bot_home) [(hello, true); (again, true)]).
  left. reflexivity.
Defined.

Lemma loop_from_head_generate (id ch : string) (st : State) (stored : Thread)
    (m : MessageParam) :
  load_or_fresh id ch (disk st) = Some stored ->
  last (messages stored ++ default [] (pendingUserMessages st !! id)) = Some m ->
  loop_done m = false ->
  let merged := messages stored ++ default [] (pendingUserMessages st !! id) in
  loop_from_head id ch st
  = Some ({| SLACK_USER_ID := SLACK_USER_ID st;
             activeThreadLoops := activeThreadLoops st;
             pendingUserMessages := delete id (pendingUserMessages st);
             disk := disk st;
             awaiting := awaiting st ++ [ {| task_threadTs := id; task_channel := ch;
                                             task_thread := with_messages merged stored |} ];
             requests := requests st ++ [(id, merged)] |}, Suspended).
Proof.
  intros Hload Hlast Hdone merged. unfold loop_from_head.
  rewrite (loop_head_total id ch st stored Hload). fold merged.
  fold merged in Hlast. rewrite Hlast, Hdone. reflexivity.
Qed.

Lemma loop_from_head_break (id ch : string) (st : State) (stored : Thread)
    (m : MessageParam) :
  load_or_fresh id ch (disk st) = Some stored ->
  last (messages stored ++ default [] (pendingUserMessages st !! id)) = Some m ->
  loop_done m = true ->
  loop_from_head id ch st
  = Some (finally id (set_pending (delete id (pendingUserMessages st)) st), Finished).
Proof.
  intros Hload Hlast Hdone. unfold loop_from_head.
  rewrite (loop_head_total id ch st stored Hload). rewrite Hlast, Hdone. reflexivity.
Qed.

(** X2.  An accepted message for a conversation with no loop starts one at
    once: the request sent to the provider is the stored messages, then what
    was already queued, then this message last; the mailbox of the
    conversation is empty afterwards, the conversation is active and the disk
    is untouched. *)
Theorem accepted_message_starts_round (ev : SlackEvent) (ok : bool) (st : State)
    (stored : Thread) :
  accepted (SLACK_USER_ID st) ev ok = true ->
  conversation ev ∉ activeThreadLoops st ->
  load_or_fresh (conversation ev) (ev_channel ev) (disk st) = Some stored ->
  let id := conversation ev in
  let sent := messages stored ++ default [] (pendingUserMessages st !! id) ++ [inbound ev] in
  exists st',
    on_message ev ok st = Some st'
    ∧ requests st' = requests st ++ [(id, sent)]
    ∧ awaiting st' = awaiting st ++ [ {| task_threadTs := id; task_channel := ev_channel ev;
                                         task_thread := with_messages sent stored |} ]
    ∧ pendingUserMessages st' = delete id (pendingUserMessages st)
    ∧ activeThreadLoops st' = {[id]} ∪ activeThreadLoops st
    ∧ disk st' = disk st.
Proof.
  intros Hacc Hidle Hload id sent.
  rewrite on_message_cases, Hacc. unfold runThreadLoop. cbn [activeThreadLoops set_pending].
  rewrite decide_False by exact Hidle. fold id.
  set (st1 := set_active _ _).
  assert (Hp : default [] (pendingUserMessages st1 !! id)
               = default [] (pendingUserMessages st !! id) ++ [inbound ev]).
  { subst st1. cbn [pendingUserMessages set_active set_pending]. unfold enqueue.
    now rewrite lookup_insert_eq. }
  rewrite (loop_from_head_generate id (ev_channel ev) st1 stored (inbound ev));
    [|exact Hload|rewrite Hp, app_assoc; apply last_snoc|reflexivity].
  rewrite Hp. fold sent.
  eexists. split; [reflexivity|]. cbn.
  repeat split. apply delete_insert_eq.
Qed.

Lemma accepted_message_starts_round_witness :
  exists st',
    on_message hello true (boot (Some "U1") bot_home) = Some st'
    ∧ requests st' = [("17.5", [inbound hello])].
Proof.
  destruct (accepted_message_starts_round hello true (boot (Some "U1") bot_home)
              {| threadTs := "17.5"; channel := "D1"; messages := [] |}
              eq_refl
              ltac:(apply (bool_decide_unpack _); vm_compute; exact I)
              ltac:(vm_compute; reflexivity))
    as (st' & H & Hreq & _).
  exists st'. split; [exact H | exact Hreq].
Defined.

(** X3.  An accepted message for a conversation whose loop is in flight only
    joins the tail of that conversation's queue: no request is sent, no loop
    is started, the disk and every other queue stay as they are. *)
Theorem accepted_message_waits (ev : SlackEvent) (ok : bool) (st : State) :
  accepted (SLACK_USER_ID st) ev ok = true ->
  conversation ev ∈ activeThreadLoops st ->
  exists st',
    on_message ev ok st = Some st'
    ∧ pendingUserMessages st' !! conversation ev
      = Some (default [] (pendingUserMessages st !! conversation ev) ++ [inbound ev])
    ∧ (forall id, id ≠ conversation ev ->
         pendingUserMessages st' !! id = pendingUserMessages st !! id)
    ∧ requests st' = requests st
    ∧ awaiting st' = awaiting st
    ∧ activeThreadLoops st' = activeThreadLoops st
    ∧ disk st' = disk st.
Proof.
  intros Hacc Hactive.
  rewrite on_message_cases, Hacc. unfold runThreadLoop. cbn [activeThreadLoops set_pending].
  rewrite decide_True by exact Hactive. cbn.
  eexists. split; [reflexivity|]. cbn. unfold enqueue.
  split; [apply lookup_insert_eq|]. split; [|repeat split].
  intros id Hne. now apply lookup_insert_ne.
Qed.

Lemma accepted_message_waits_witness :
  exists st',
    on_message again true waiting = Some st'
    ∧ pendingUserMessages st' !! "17.5" = Some [inbound again]
    ∧ requests st' = requests waiting.
Proof.
  destruct (accepted_message_waits again true waiting
              ltac:(vm_compute; reflexivity)
              ltac:(apply (bool_decide_unpack _); vm_compute; exact I))
    as (st' & H & Hq & _ & Hr & _).
  exists st'. split; [exact H|]. split; [|exact Hr].
  refine (eq_trans Hq _). vm_compute. reflexivity.
Defined.

(** ** The tool registry *)

Lemma toolsByName_acc_lookup (tools : list Tool) (acc : gmap string Tool) (nm : string) :
  foldl (fun m t => <[name t := t]> m) acc tools !! nm
  = match last (List.filter (fun t => bool_decide (name t = nm)) tools) with
    | Some t => Some t
    | None => acc !! nm
    end.
Proof.
  revert acc. induction tools as [|t tools IH]; intros acc; [reflexivity|].
  cbn [foldl List.filter]. rewrite IH.
  destruct (decide (name t = nm)) as [E|E].
  - rewrite bool_decide_eq_true_2 by exact E. rewrite last_cons.
    destruct (last _); [reflexivity|]. rewrite <- E. apply lookup_insert_eq.
  - rewrite bool_decide_eq_false_2 by exact E.
    destruct (last _); [reflexivity|]. now apply lookup_insert_ne.
Qed.

(** X4.  The name index built from a tool list finds, for every name, the
    last tool declared under that name, and nothing for a name no tool has;
    the tool found carries the name it was looked up by. *)
Theorem toolsByName_finds_last (tools : list Tool) (nm : string) :
  toolsByName tools !! nm
  = last (List.filter (fun t => bool_decide (name t = nm)) tools)
  ∧ (forall t, toolsByName tools !! nm = Some t -> name t = nm ∧ t ∈ tools)
  ∧ (toolsByName tools !! nm = None <-> forall t, t ∈ tools -> name t ≠ nm).
Proof.
  assert (H : toolsByName tools !! nm
              = last (List.filter (fun t => bool_decide (name t = nm)) tools)).
  { unfold toolsByName. rewrite toolsByName_acc_lookup, lookup_empty.
    now destruct (last _). }
  split; [exact H|]. split.
  - intros t Ht. rewrite H in Ht. apply last_Some_elem_of in Ht.
    apply list_elem_of_In, List.filter_In in Ht as [Hin Hn].
    apply bool_decide_eq_true_1 in Hn. split; [exact Hn|]. now apply list_elem_of_In.
  - rewrite toolsByName_unknown, list_elem_of_fmap. split.
    + intros Hn t Ht E. apply Hn. exists t. auto.
    + intros Hn (t & E & Ht). exact (Hn t Ht (eq_sym E)).
Qed.

(** X5.  What the model sees of the three input/output tools.  When Slack
    accepts the post, the result is ["Message sent."]; a read gives the file's
    text; an accepted write gives ["File written."]; none carries the error
    flag.  When the primitive throws, the result carries the error flag and
    ["Error: "] followed by the primitive's message. *)
Theorem io_tools_report (ch ts id : string) (input : value) (o : Outside) :
  let tools := toolsByName (createTools ch ts) in
  let report (r : Result string) :=
    match r with
    | Ok text => ToolResultBlock id text None
    | Throw msg => ToolResultBlock id ("Error: " +:+ msg) (Some true)
    end in
  run_tool_use tools o id "send_slack_message" input
  = report (match chat_postMessage o with Ok _ => Ok "Message sent." | Throw m => Throw m end)
  ∧ run_tool_use tools o id "read_file" input = report (fs_readFileSync o)
  ∧ run_tool_use tools o id "write_file" input
    = report (match fs_writeFileSync o with Ok _ => Ok "File written." | Throw m => Throw m end).
Proof.
  intros tools report. unfold run_tool_use.
  assert (H1 : tools !! "send_slack_message"
               = Some {| name := "send_slack_message"; execute := send_slack_message |})
    by reflexivity.
  assert (H2 : tools !! "read_file" = Some {| name := "read_file"; execute := read_file |})
    by reflexivity.
  assert (H3 : tools !! "write_file" = Some {| name := "write_file"; execute := write_file |})
    by reflexivity.
  rewrite H1, H2, H3. cbn [execute]. unfold send_slack_message, read_file, write_file.
  split; [|split].
  - now destruct (chat_postMessage o).
  - now destruct (fs_readFileSync o).
  - now destruct (fs_writeFileSync o).
Qed.

(** ** The thread store across conversations *)

(** ** Paths *)

Lemma split_path_sepfree (a : string) : has_separator a = false -> split_path a = [a].
Proof.
  induction a as [|c a IH]; [reflexivity|]. cbn [has_separator split_path].
  intros H. apply orb_false_iff in H as [Hc Ha]. rewrite Hc, (IH Ha). reflexivity.
Qed.

Lemma split_path_cons (a b : string) :
  has_separator a = false -> split_path (a +:+ String "/" b) = a :: split_path b.
Proof.
  induction a as [|c a IH]; [reflexivity|]. cbn [has_separator].
  intros H. apply orb_false_iff in H as [Hc Ha].
  change (String c a +:+ String "/" b) with (String c (a +:+ String "/" b)).
  cbn [split_path]. rewrite Hc, (IH Ha). reflexivity.
Qed.

Lemma split_path_join (pieces : list string) (b : string) :
  pieces ≠ [] -> Forall (fun p => has_separator p = false) pieces ->
  split_path (join "/" pieces +:+ String "/" b) = pieces ++ split_path b.
Proof.
  induction pieces as [|p pieces IH]; [congruence|]. intros _ H.
  apply Forall_cons in H as [Hp H]. destruct pieces as [|q pieces].
  - cbn [join app]. now apply split_path_cons.
  - change (join "/" (p :: q :: pieces)) with (p +:+ "/" +:+ join "/" (q :: pieces)).
    rewrite !append_assoc. change ("/" +:+ ?x) with (String "/" x).
    rewrite split_path_cons by exact Hp. rewrite IH by (congruence || exact H). reflexivity.
Qed.

Lemma split_path_pieces (s : string) : Forall (fun p => has_separator p = false) (split_path s).
Proof.
  induction s as [|c s IH]; [repeat constructor|]. cbn [split_path].
  destruct (Ascii.eqb c "/") eqn:Hc; [now constructor|].
  destruct (split_path s) as [|piece pieces]; [repeat constructor; simpl; now rewrite Hc|].
  apply Forall_cons in IH as [Hp H]. constructor; [|exact H]. simpl. now rewrite Hc, Hp.
Qed.

Lemma normalize_proper (pieces : list string) :
  forall kept, Forall proper_piece pieces ->
               foldl normalize_step kept pieces = kept ++ pieces.
Proof.
  induction pieces as [|p pieces IH]; intros kept H; [now rewrite app_nil_r|].
  apply Forall_cons in H as [(_ & H1 & H2 & H3) H]. cbn [foldl]. unfold normalize_step at 2.
  apply String.eqb_neq in H1, H2, H3. rewrite H1, H2, H3. cbn [orb].
  rewrite IH by exact H. now rewrite <- app_assoc.
Qed.

Lemma normalize_keeps_proper (pieces : list string) :
  forall kept, Forall proper_piece kept ->
               Forall (fun p => has_separator p = false) pieces ->
               Forall proper_piece (foldl normalize_step kept pieces).
Proof.
  induction pieces as [|p pieces IH]; intros kept Hk H; [exact Hk|].
  apply Forall_cons in H as [Hp H]. cbn [foldl]. apply IH; [|exact H].
  unfold normalize_step.
  destruct (String.eqb p "") eqn:E1; [exact Hk|].
  destruct (String.eqb p ".") eqn:E2; [exact Hk|]. cbn [orb].
  destruct (String.eqb p "..") eqn:E3.
  - destruct kept as [|k kept _] using rev_ind; [constructor|].
    rewrite removelast_last. now apply Forall_app in Hk as [Hk _].
  - apply Forall_app. split; [exact Hk|]. repeat constructor; try exact Hp;
      now apply String.eqb_neq.
Qed.

Lemma join_snoc (pieces : list string) (p : string) :
  pieces ≠ [] -> join "/" (pieces ++ [p]) = join "/" pieces +:+ "/" +:+ p.
Proof.
  induction pieces as [|q pieces IH]; [congruence|]. intros _.
  destruct pieces as [|r pieces]; [reflexivity|].
  change (join "/" ((q :: r :: pieces) ++ [p]))
    with (q +:+ "/" +:+ join "/" ((r :: pieces) ++ [p])).
  rewrite IH by congruence.
  change (join "/" (q :: r :: pieces)) with (q +:+ "/" +:+ join "/" (r :: pieces)).
  now rewrite !append_assoc.
Qed.

(** A directory in normal form is the root followed by proper pieces. *)
Lemma normal_dir_pieces (cwd d : string) :
  path_resolve cwd [d] = d -> d ≠ "/" ->
  exists pieces, pieces ≠ [] ∧ Forall proper_piece pieces ∧ d = String "/" (join "/" pieces).
Proof.
  unfold path_resolve. destruct (resolve_join [d]) as [joined absolute].
  set (pieces := foldl normalize_step [] _). intros Hd Hroot.
  exists pieces. split; [|split; [|now symmetry]].
  - intros E. rewrite E in Hd. now symmetry in Hd.
  - apply normalize_keeps_proper; [constructor | apply split_path_pieces].
Qed.

(** Resolving a proper piece against a directory in normal form appends it. *)
Lemma path_resolve_below (cwd : string) (pieces : list string) (name : string) :
  pieces ≠ [] -> Forall proper_piece pieces -> proper_piece name ->
  path_resolve cwd [String "/" (join "/" pieces); name]
  = String "/" (join "/" (pieces ++ [name]))
  ∧ String "/" (join "/" (pieces ++ [name])) = String "/" (join "/" pieces) +:+ "/" +:+ name.
Proof.
  intros Hne Hp Hname. split; [|now rewrite join_snoc].
  pose proof Hname as (Hsep & Hn1 & _ & _).
  unfold path_resolve. cbn [resolve_join].
  apply String.eqb_neq in Hn1. rewrite Hn1.
  assert (Hrel : is_absolute name = false).
  { destruct name as [|c name]; [reflexivity|]. simpl in Hsep |- *.
    now apply orb_false_iff in Hsep as [Hc _]. }
  rewrite Hrel. cbn [String.eqb is_absolute Ascii.eqb Bool.eqb]. f_equal. f_equal.
  change (String "/" (join "/" pieces) +:+ "/" +:+ name +:+ "/" +:+ "")
    with (String "/" (join "/" pieces +:+ String "/" (name +:+ String "/" ""))).
  cbn [split_path Ascii.eqb Bool.eqb].
  rewrite split_path_join; [|exact Hne|eapply Forall_impl; [exact Hp|now intros ? []]].
  rewrite (split_path_cons name "" Hsep).
  change (split_path "") with [""]. cbn [foldl].
  change (normalize_step [] "") with (@nil string).
  rewrite foldl_app, (normalize_proper pieces [] Hp). cbn [app foldl].
  change (normalize_step ?k "") with k.
  exact (normalize_proper [name] pieces (Forall_cons_2 _ _ _ Hname (Forall_nil_2 _))).
Qed.

Lemma has_separator_append (a b : string) :
  has_separator (a +:+ b) = has_separator a || has_separator b.
Proof.
  induction a as [|c a IH]; [reflexivity|].
  change (String c a +:+ b) with (String c (a +:+ b)). cbn [has_separator].
  now rewrite IH, orb_assoc.
Qed.

Lemma record_name_proper (id : string) :
  has_separator id = false -> proper_piece (id +:+ ".json").
Proof.
  intros H. split; [rewrite has_separator_append, H; reflexivity|].
  assert (Hlen : String.length (id +:+ ".json") = (String.length id + 5)%nat)
    by (rewrite length_append; reflexivity).
  repeat split; intros E; rewrite E in Hlen; simpl in Hlen; lia.
Qed.

(** The paths of the model are the paths the program resolves. *)
Lemma resolve_thread_file (cwd : string) (fs : FS) (id : string) :
  normal_home cwd fs -> has_separator id = false ->
  path_resolve cwd [homedir fs; ".picobot"] = configDir fs
  ∧ path_resolve cwd [configDir fs; "threads"] = threadsDir fs
  ∧ path_resolve cwd [threadsDir fs; id +:+ ".json"] = thread_file fs id.
Proof.
  intros [Hhome Hroot] Hid.
  destruct (normal_dir_pieces cwd (homedir fs) Hhome Hroot) as (pieces & Hne & Hp & Hd).
  assert (Hpico : proper_piece ".picobot") by (repeat split; discriminate).
  assert (Hthreads : proper_piece "threads") by (repeat split; discriminate).
  destruct (path_resolve_below cwd pieces ".picobot" Hne Hp Hpico) as [R1 E1].
  assert (Hp1 : Forall proper_piece (pieces ++ [".picobot"]))
    by (apply Forall_app; split; [exact Hp | now repeat constructor]).
  destruct (path_resolve_below cwd (pieces ++ [".picobot"]) "threads"
              ltac:(now destruct pieces) Hp1 Hthreads) as [R2 E2].
  assert (Hp2 : Forall proper_piece ((pieces ++ [".picobot"]) ++ ["threads"]))
    by (apply Forall_app; split; [exact Hp1 | now repeat constructor]).
  destruct (path_resolve_below cwd ((pieces ++ [".picobot"]) ++ ["threads"]) (id +:+ ".json")
              ltac:(now destruct pieces) Hp2 (record_name_proper id Hid)) as [R3 E3].
  assert (C : configDir fs = String "/" (join "/" (pieces ++ [".picobot"])))
    by (unfold configDir; rewrite Hd; exact (eq_sym E1)).
  assert (T : threadsDir fs = String "/" (join "/" ((pieces ++ [".picobot"]) ++ ["threads"])))
    by (unfold threadsDir; rewrite C; exact (eq_sym E2)).
  assert (F : thread_file fs id
              = String "/" (join "/" (((pieces ++ [".picobot"]) ++ ["threads"])
                                      ++ [id +:+ ".json"])))
    by (unfold thread_file; rewrite T; exact (eq_sym E3)).
  rewrite F, T, C, Hd. auto.
Qed.

(** Without the restriction on the id two ids can name one file. *)
Example path_resolve_aliases :
  path_resolve "/" ["/home/bot/.picobot/threads"; "x/../17.5.json"]
  = path_resolve "/" ["/home/bot/.picobot/threads"; "17.5.json"]
  ∧ path_resolve "/" ["/home/bot/.picobot/threads"; "17.5.json"]
    = "/home/bot/.picobot/threads/17.5.json".
Proof. split; vm_compute; reflexivity. Qed.

(** X6.  The file of a record is the path the program resolves, and two
    different conversation ids never share one, as long as the home
    directory is in normal form and the ids hold no path separator (the
    handler forms them from Slack timestamps).  A save for one conversation
    then leaves what a load returns for any other exactly as it was, and
    keeps the home directory the paths hang from.  With a separator in an
    id the resolved paths can coincide ([path_resolve_aliases]). *)
Theorem save_keeps_other_records (cwd id id' : string) (t : Thread) (dev : Disk)
    (fs fs' : FS) :
  normal_home cwd fs ->
  has_separator id = false ->
  has_separator id' = false ->
  id' ≠ id ->
  saveThread id t dev fs = Ok fs' ->
  let resolved (threadTs : string) :=
    path_resolve cwd
      [path_resolve cwd [path_resolve cwd [homedir fs; ".picobot"]; "threads"];
       threadTs +:+ ".json"] in
  resolved id = thread_file fs id
  ∧ resolved id' = thread_file fs id'
  ∧ resolved id' ≠ resolved id
  ∧ homedir fs' = homedir fs
  ∧ loadThread id' fs' = loadThread id' fs
  ∧ (forall ch, load_or_fresh id' ch fs' = load_or_fresh id' ch fs).
Proof.
  intros Hhome Hid Hid' Hne Hsave resolved.
  destruct (resolve_thread_file cwd fs id Hhome Hid) as (C & T & F).
  destruct (resolve_thread_file cwd fs id' Hhome Hid') as (_ & _ & F').
  assert (R : forall x, resolved x = path_resolve cwd [threadsDir fs; x +:+ ".json"])
    by (intros x; unfold resolved; now rewrite C, T).
  assert (Hload : loadThread id' fs' = loadThread id' fs)
    by exact (loadThread_saved_other id id' t dev fs fs' Hne Hsave).
  rewrite !R, F, F'. repeat split; try reflexivity.
  - intros E. now apply thread_file_inj in E.
  - now apply saveThread_ok in Hsave as [_ ->].
  - exact Hload.
  - intros ch. unfold load_or_fresh. now rewrite Hload.
Qed.

Lemma save_keeps_other_records_witness :
  normal_home "/" (store "18.1" dangling_call bot_home)
  ∧ exists fs',
      saveThread "17.5" plain_answer DiskOk (store "18.1" dangling_call bot_home) = Ok fs'
      ∧ load_or_fresh "18.1" "D1" fs' = Some dangling_call.
Proof.
  assert (Hhome : normal_home "/" (store "18.1" dangling_call bot_home))
    by (split; [vm_compute; reflexivity | discriminate]).
  split; [exact Hhome|].
  destruct (save_then_load_core "17.5" "D1" plain_answer (store "18.1" dangling_call bot_home))
    as (fs' & Hsave & _).
  exists fs'. split; [exact Hsave|].
  destruct (save_keeps_other_records "/" "17.5" "18.1" plain_answer DiskOk _ fs'
              Hhome eq_refl eq_refl ltac:(discriminate) Hsave) as (_ & _ & _ & _ & _ & H).
  rewrite H. vm_compute. reflexivity.
Defined.

Lemma toolsByName_finds_last_witness :
  exists t, toolsByName (createTools "D1" "17.5") !! "read_file" = Some t
            ∧ name t = "read_file".
Proof.
  eexists. split; [reflexivity|].
  exact (proj1 (proj1 (proj2 (toolsByName_finds_last (createTools "D1" "17.5") "read_file"))
                      _ eq_refl)).
Defined.

(** ** A round that succeeds *)

Lemma loop_from_head_cases (id ch : string) (st st' : State) (o : Outcome) :
  loop_from_head id ch st = Some (st', o) ->
  exists stored,
    load_or_fresh id ch (disk st) = Some stored
    ∧ let merged := messages stored ++ default [] (pendingUserMessages st !! id) in
      (last merged = None
       ∧ st' = finally id (set_pending (delete id (pendingUserMessages st)) st)
       ∧ exists msg, o = Threw msg)
      ∨ (exists m, last merged = Some m ∧ loop_done m = true
                   ∧ st' = finally id (set_pending (delete id (pendingUserMessages st)) st)
                   ∧ o = Finished)
      ∨ (exists m, last merged = Some m ∧ loop_done m = false
                   ∧ st' = {| SLACK_USER_ID := SLACK_USER_ID st;
                              activeThreadLoops := activeThreadLoops st;
                              pendingUserMessages := delete id (pendingUserMessages st);
                              disk := disk st;
                              awaiting := awaiting st
                                          ++ [ {| task_threadTs := id; task_channel := ch;
                                                  task_thread := with_messages merged stored |} ];
                              requests := requests st ++ [(id, merged)] |}
                   ∧ o = Suspended).
Proof.
  unfold loop_from_head.
  destruct (loop_head id ch st) as [[s c]|] eqn:Eh; [|discriminate].
  apply loop_head_inv in Eh as (stored & Hl & -> & ->). simpl. intros H.
  exists stored. split; [exact Hl|]. cbv zeta.
  set (merged := messages stored ++ default [] (pendingUserMessages st !! id)) in *.
  revert H. destruct (last merged) as [m|] eqn:El.
  - destruct (loop_done m) eqn:Ed; intros [= <- <-].
    + right. left. eauto.
    + right. right. exists m. auto.
  - intros [= <- <-]. left. eauto.
Qed.

Lemma resume_at_succeeds (k : nat) (t : Task) (content : list ContentBlock)
    (outside : nat -> Outside) (st : State) :
  awaiting st !! k = Some t ->
  let id := task_threadTs t in
  let results := tool_results (toolsByName (createTools (task_channel t) id)) outside 0 content in
  let saved :=
    with_messages
      (messages (task_thread t)
       ++ {| role := assistant; content := Blocks content |}
          :: (if decide (tool_uses content = []) then []
              else [ {| role := user; content := Blocks results |} ]))
      (task_thread t) in
  let merged := messages saved ++ default [] (pendingUserMessages st !! id) in
  exists st' o m,
    resume_at k (Responded content) outside DiskOk st = Some (st', o)
    ∧ (forall ch, load_or_fresh id ch (disk st') = Some saved)
    ∧ pendingUserMessages st' = delete id (pendingUserMessages st)
    ∧ last merged = Some m
    ∧ if loop_done m
      then o = Finished
           ∧ awaiting st' = delete k (awaiting st)
           ∧ requests st' = requests st
           ∧ activeThreadLoops st' = activeThreadLoops st ∖ {[id]}
      else o = Suspended
           ∧ awaiting st' = delete k (awaiting st)
                            ++ [ {| task_threadTs := id; task_channel := task_channel t;
                                    task_thread := with_messages merged saved |} ]
           ∧ requests st' = requests st ++ [(id, merged)]
           ∧ activeThreadLoops st' = activeThreadLoops st.
Proof.
  intros Hk id results saved merged.
  unfold resume_at. rewrite Hk. unfold resume. fold id.
  rewrite generateMessages_responded. fold results. fold saved.
  assert (Hsaved : with_messages (messages saved) (task_thread t) = saved) by reflexivity.
  change (with_messages _ (task_thread t)) with saved.
  rewrite saveThread_DiskOk.
  set (fs' := {| homedir := _; dirs := _; files := _ |}).
  assert (Hback : forall ch, load_or_fresh id ch fs' = Some saved).
  { intros ch. destruct (save_then_load_core id ch saved (disk st)) as (fs1 & H1 & H2).
    rewrite saveThread_DiskOk in H1. injection H1 as <-. exact H2. }
  set (st1 := set_disk fs' _).
  destruct (last merged) as [m|] eqn:El.
  2:{ apply last_None in El. subst merged saved. cbn [messages with_messages] in El.
      apply app_eq_nil in El as [El _]. apply app_eq_nil in El as [_ El]. discriminate. }
  destruct (loop_done m) eqn:Ed.
  - rewrite (loop_from_head_break id (task_channel t) st1 saved m);
      [|apply Hback|exact El|exact Ed].
    exists (finally id (set_pending (delete id (pendingUserMessages st1)) st1)), Finished, m.
    rewrite Ed. repeat split. exact Hback.
  - rewrite (loop_from_head_generate id (task_channel t) st1 saved m);
      [|apply Hback|exact El|exact Ed].
    eexists _, Suspended, m. rewrite Ed. split; [reflexivity|]. repeat split. exact Hback.
Qed.


(** X7.  When the provider answers and the disk takes the write, the record
    of the conversation becomes the thread the loop held, extended by the
    assistant message and, if there were tool calls, by their results.  The
    next pass reads exactly that record back, appends what arrived in the
    mailbox meanwhile and empties the mailbox; it ends the loop when the
    test on the last message says so and otherwise sends the whole sequence
    as the next request. *)
Theorem successful_round (k : nat) (t : Task) (content : list ContentBlock)
    (outside : nat -> Outside) (st : State) :
  awaiting st !! k = Some t ->
  let id := task_threadTs t in
  let results := tool_results (toolsByName (createTools (task_channel t) id)) outside 0 content in
  let saved :=
    with_messages
      (messages (task_thread t)
       ++ {| role := assistant; content := Blocks content |}
          :: (if decide (tool_uses content = []) then []
              else [ {| role := user; content := Blocks results |} ]))
      (task_thread t) in
  let merged := messages saved ++ default [] (pendingUserMessages st !! id) in
  exists st' o m,
    resume_at k (Responded content) outside DiskOk st = Some (st', o)
    ∧ (forall ch, load_or_fresh id ch (disk st') = Some saved)
    ∧ pendingUserMessages st' = delete id (pendingUserMessages st)
    ∧ last merged = Some m
    ∧ if loop_done m
      then o = Finished
           ∧ awaiting st' = delete k (awaiting st)
           ∧ requests st' = requests st
           ∧ activeThreadLoops st' = activeThreadLoops st ∖ {[id]}
      else o = Suspended
           ∧ awaiting st' = delete k (awaiting st)
                            ++ [ {| task_threadTs := id; task_channel := task_channel t;
                                    task_thread := with_messages merged saved |} ]
           ∧ requests st' = requests st ++ [(id, merged)]
           ∧ activeThreadLoops st' = activeThreadLoops st.
Proof. exact (resume_at_succeeds k t content outside st). Qed.

Lemma successful_round_witness :
  exists st',
    resume_at 0 (Responded [TextBlock "Hello!"]) (fun _ => quiet) DiskOk waiting
    = Some (st', Finished)
    ∧ stored_messages "17.5" (disk st')
      = Some [inbound hello;
              {| role := assistant; content := Blocks [TextBlock "Hello!"] |}].
Proof.
  destruct (successful_round 0 _ [TextBlock "Hello!"] (fun _ => quiet) waiting
              ltac:(vm_compute; reflexivity))
    as (st' & o & m & Hres & Hload & _ & Hlast & Hend).
  assert (Hm : m = {| role := assistant; content := Blocks [TextBlock "Hello!"] |}).
  { vm_compute in Hlast. now injection Hlast as <-. }
  subst m. cbn [loop_done role content existsb negb] in Hend. destruct Hend as (-> & _).
  exists st'. split; [exact Hres|].
  unfold stored_messages. change "17.5" with (task_threadTs {| task_threadTs := "17.5"; task_channel := "D1"; task_thread := with_messages [inbound hello] {| threadTs := "17.5"; channel := "D1"; messages := [] |} |}).
  rewrite Hload. reflexivity.
Defined.

(** ** What a round leaves behind *)

Lemma tool_uses_nil_no_tool_call (content : list ContentBlock) :
  tool_uses content = [] ->
  existsb (fun b => String.eqb (block_type b) "tool_use") content = false.
Proof.
  induction content as [|b content IH]; [reflexivity|].
  destruct b; simpl; try exact IH. discriminate.
Qed.

Lemma generateMessages_settled (ch ts : string) (msgs : list MessageParam)
    (content : list ContentBlock) (outside : nat -> Outside) (out : list MessageParam) :
  generateMessages ch ts msgs (Responded content) outside = Ok out ->
  settled out = true.
Proof.
  rewrite generateMessages_responded. intros [= <-]. unfold settled.
  destruct (decide (tool_uses content = [])) as [E|E].
  - rewrite last_snoc. unfold answered, has_tool_call. simpl.
    now rewrite tool_uses_nil_no_tool_call.
  - change (?a :: [?b]) with ([a] ++ [b]). now rewrite app_assoc, last_snoc.
Qed.

(** X8.  Whatever sequence a round starts from and whatever the provider
    answers, the sequence the round returns does not end in an open tool
    call: its last message is the assistant message when that holds no tool
    call, and the user message with the tool results otherwise. *)
Theorem round_leaves_no_open_call (ch ts : string) (msgs : list MessageParam)
    (content : list ContentBlock) (outside : nat -> Outside) :
  exists out last_message,
    generateMessages ch ts msgs (Responded content) outside = Ok out
    ∧ last out = Some last_message
    ∧ answered last_message = true
    ∧ settled out = true
    ∧ (role last_message = user <-> tool_uses content ≠ []).
Proof.
  pose proof (generateMessages_responded ch ts msgs content outside) as Hgen.
  pose proof (generateMessages_settled ch ts msgs content outside _ Hgen) as Hset.
  destruct (decide (tool_uses content = [])) as [E|E].
  - eexists _, _. split; [exact Hgen|]. split; [apply last_snoc|].
    unfold settled in Hset. rewrite last_snoc in Hset.
    split; [exact Hset|]. split; [unfold settled; now rewrite last_snoc|].
    cbn [role]. split; [discriminate | congruence].
  - eexists _, _. split; [exact Hgen|].
    change (?a :: [?b]) with ([a] ++ [b]). rewrite app_assoc.
    split; [apply last_snoc|]. split; [reflexivity|].
    split; [unfold settled; now rewrite last_snoc|]. cbn [role]. tauto.
Qed.

(** ** Invariants of whole runs *)

(** How a step can change the disk: not at all, or by the one save of a
    round that succeeded. *)
Lemma step_disk (e : Event) (st st' : State) :
  step e st = Some st' ->
  disk st' = disk st
  ∨ exists k t content outside out,
      e = Settle k (Responded content) outside DiskOk
      ∧ awaiting st !! k = Some t
      ∧ generateMessages (task_channel t) (task_threadTs t) (messages (task_thread t))
                         (Responded content) outside = Ok out
      ∧ saveThread (task_threadTs t) (with_messages out (task_thread t)) DiskOk (disk st)
        = Ok (disk st').
Proof.
  intros H. destruct e as [ev ok|id ch|k reply outside dev]; simpl in H.
  - rewrite on_message_cases in H.
    destruct (accepted _ _ _); [|injection H as <-; now left].
    destruct (runThreadLoop _ _ _) as [[s o]|] eqn:E; [|discriminate]. injection H as <-.
    unfold runThreadLoop in E. destruct (decide _); [injection E as <- _; now left|].
    apply loop_from_head_effect in E as (_ & Hd & _). left. exact Hd.
  - destruct (runThreadLoop _ _ _) as [[s o]|] eqn:E; [|discriminate]. injection H as <-.
    unfold runThreadLoop in E. destruct (decide _); [injection E as <- _; now left|].
    apply loop_from_head_effect in E as (_ & Hd & _). left. exact Hd.
  - destruct (resume_at _ _ _ _ _) as [[s o]|] eqn:E; [|discriminate]. injection H as <-.
    unfold resume_at in E. destruct (awaiting st !! k) as [t|] eqn:Ek;
      [|injection E as <- _; now left].
    apply resume_effect in E as [[_ ->]|(msgs & fs & Hg & Hs & E)]; [now left|].
    apply loop_from_head_effect in E as (_ & Hd & _). cbn [disk set_disk] in Hd.
    pose proof Hs as Hs'. apply saveThread_ok in Hs' as [-> _].
    destruct reply as [content|msg]; [|discriminate].
    right. exists k, t, content, outside, msgs. rewrite Hd. auto.
Qed.

Lemma save_settled (id : string) (t : Thread) (dev : Disk) (fs fs' : FS) :
  settled (messages t) = true ->
  settled_store fs -> saveThread id t dev fs = Ok fs' -> settled_store fs'.
Proof.
  intros Ht Hfs Hsave id' ch th Hload. destruct (decide (id' = id)) as [->|Hne].
  - pose proof Hsave as Hs. apply saveThread_ok in Hs as [-> _].
    destruct (save_then_load_core id ch t fs) as (fs1 & H1 & H2).
    rewrite Hsave in H1. injection H1 as <-. rewrite H2 in Hload. now injection Hload as <-.
  - unfold load_or_fresh in Hload.
    rewrite (loadThread_saved_other id id' t dev fs fs' Hne Hsave) in Hload.
    exact (Hfs id' ch th Hload).
Qed.

Lemma step_settled_store (e : Event) (st st' : State) :
  settled_store (disk st) -> step e st = Some st' -> settled_store (disk st').
Proof.
  intros Hfs H. apply step_disk in H as [->|(k & t & content & outside & out & _ & _ & Hg & Hs)];
    [exact Hfs|].
  eapply save_settled; [|exact Hfs|exact Hs].
  exact (generateMessages_settled _ _ _ _ _ _ Hg).
Qed.

Lemma step_user_id (e : Event) (st st' : State) :
  step e st = Some st' -> SLACK_USER_ID st' = SLACK_USER_ID st.
Proof.
  intros H. destruct e as [ev ok|id ch|k reply outside dev]; simpl in H.
  - rewrite on_message_cases in H.
    destruct (accepted _ _ _); [|now injection H as <-].
    destruct (runThreadLoop _ _ _) as [[s o]|] eqn:E; [|discriminate]. injection H as <-.
    unfold runThreadLoop in E. destruct (decide _); [now injection E as <- _|].
    now apply loop_from_head_effect in E as (Hu & _).
  - destruct (runThreadLoop _ _ _) as [[s o]|] eqn:E; [|discriminate]. injection H as <-.
    unfold runThreadLoop in E. destruct (decide _); [now injection E as <- _|].
    now apply loop_from_head_effect in E as (Hu & _).
  - destruct (resume_at _ _ _ _ _) as [[s o]|] eqn:E; [|discriminate]. injection H as <-.
    unfold resume_at in E. destruct (awaiting st !! k) as [t|]; [|now injection E as <- _].
    apply resume_effect in E as [[_ ->]|(msgs & fs & _ & _ & E)]; [reflexivity|].
    now apply loop_from_head_effect in E as (Hu & _).
Qed.

(** How a step can change the mailbox: by the handler's enqueue, by the
    loop's drain, or both in that order. *)
Lemma step_mailbox (e : Event) (st st' : State) :
  step e st = Some st' ->
  exists base,
    (base = pendingUserMessages st
     ∨ exists ev ok, e = Message ev ok ∧ accepted (SLACK_USER_ID st) ev ok = true
                     ∧ base = enqueue (conversation ev) (inbound ev) (pendingUserMessages st))
    ∧ (pendingUserMessages st' = base
       ∨ exists id, event_thread e st = Some id ∧ pendingUserMessages st' = delete id base).
Proof.
  intros H. destruct e as [ev ok|id ch|k reply outside dev]; simpl in H.
  - rewrite on_message_cases in H.
    destruct (accepted _ _ _) eqn:Ea; [|injection H as <-; eauto].
    destruct (runThreadLoop _ _ _) as [[s o]|] eqn:E; [|discriminate]. injection H as <-.
    exists (enqueue (conversation ev) (inbound ev) (pendingUserMessages st)).
    split; [right; eauto|].
    unfold runThreadLoop in E. destruct (decide _); [injection E as <- _; now left|].
    apply loop_from_head_effect in E as (_ & _ & Hp & _). right. eauto.
  - exists (pendingUserMessages st). split; [now left|].
    destruct (runThreadLoop _ _ _) as [[s o]|] eqn:E; [|discriminate]. injection H as <-.
    unfold runThreadLoop in E. destruct (decide _); [injection E as <- _; now left|].
    apply loop_from_head_effect in E as (_ & _ & Hp & _). right. eauto.
  - exists (pendingUserMessages st). split; [now left|].
    destruct (resume_at _ _ _ _ _) as [[s o]|] eqn:E; [|discriminate]. injection H as <-.
    unfold resume_at in E. simpl. destruct (awaiting st !! k) as [t|] eqn:Ek;
      [|injection E as <- _; now left].
    apply resume_effect in E as [[_ ->]|(msgs & fs & _ & _ & E)]; [now left|].
    apply loop_from_head_effect in E as (_ & _ & Hp & _). right. eauto.
Qed.

Lemma inbound_only_enqueue (id : string) (ev : SlackEvent)
    (pend : gmap string (list MessageParam)) :
  inbound_only pend -> inbound_only (enqueue id (inbound ev) pend).
Proof.
  intros H id' q m Hq Hm. unfold enqueue in Hq. destruct (decide (id = id')) as [->|Hne].
  - rewrite lookup_insert_eq in Hq. injection Hq as <-.
    apply elem_of_app in Hm as [Hm|Hm].
    + destruct (pend !! id') as [q0|] eqn:E; [exact (H id' q0 m E Hm)|].
      now apply not_elem_of_nil in Hm.
    + apply list_elem_of_singleton in Hm. eauto.
  - rewrite lookup_insert_ne in Hq by exact Hne. exact (H id' q m Hq Hm).
Qed.

Lemma inbound_only_delete (id : string) (pend : gmap string (list MessageParam)) :
  inbound_only pend -> inbound_only (delete id pend).
Proof.
  intros H id' q m Hq Hm. destruct (decide (id = id')) as [->|Hne].
  - now rewrite lookup_delete_eq in Hq.
  - rewrite lookup_delete_ne in Hq by exact Hne. exact (H id' q m Hq Hm).
Qed.

Lemma step_inbound_only (e : Event) (st st' : State) :
  inbound_only (pendingUserMessages st) -> step e st = Some st' ->
  inbound_only (pendingUserMessages st').
Proof.
  intros Hin H. apply step_mailbox in H as (base & Hbase & Hafter).
  assert (Hb : inbound_only base).
  { destruct Hbase as [->|(ev & ok & _ & _ & ->)]; [exact Hin|].
    now apply inbound_only_enqueue. }
  destruct Hafter as [->|(id & _ & ->)]; [exact Hb | now apply inbound_only_delete].
Qed.

Lemma run_invariant (P : State -> Prop) :
  (forall e st st', P st -> step e st = Some st' -> P st') ->
  forall events st st', P st -> run events st = Some st' -> P st'.
Proof.
  intros Hstep events. induction events as [|e events IH]; intros st st' HP H; simpl in H.
  - now injection H as <-.
  - destruct (step e st) as [s|] eqn:E; [|discriminate]. simpl in H.
    eapply IH; [|exact H]. eapply Hstep; eauto.
Qed.

Lemma inbound_message_not_done (ev : SlackEvent) :
  loop_done (inbound ev) = false ∧ role (inbound ev) = user.
Proof. split; reflexivity. Qed.

Lemma last_merged_inbound (stored q : list MessageParam) (m : MessageParam) :
  (forall x, x ∈ q -> exists ev, x = inbound ev) ->
  last (stored ++ q) = Some m ->
  (q = [] ∧ last stored = Some m) ∨ exists ev, m = inbound ev.
Proof.
  intros Hq Hl. destruct q as [|x q _] using rev_ind.
  - rewrite app_nil_r in Hl. now left.
  - rewrite app_assoc, last_snoc in Hl. injection Hl as <-.
    right. apply Hq, elem_of_app. right. now apply list_elem_of_singleton.
Qed.

(** X9.  Started on a disk whose records are all settled (an empty disk,
    for one), the program keeps them so through any run: no record it leaves
    ends in a tool call without its result.  In every state it reaches, a
    pass of the loop that ends in [break] therefore has, as last message, an
    assistant message with no tool call. *)
Theorem store_stays_settled (uid : option string) (fs : FS) (events : list Event)
    (st : State) :
  settled_store fs ->
  run events (boot uid fs) = Some st ->
  settled_store (disk st)
  ∧ forall id ch st',
      loop_head id ch st = Some (st', Break) ->
      exists stored,
        load_or_fresh id ch (disk st) = Some stored
        ∧ turn_complete (messages stored ++ default [] (pendingUserMessages st !! id)) = true.
Proof.
  intros Hfs Hrun.
  assert (Hinv : settled_store (disk st) ∧ inbound_only (pendingUserMessages st)).
  { apply (run_invariant (fun s => settled_store (disk s) ∧ inbound_only (pendingUserMessages s)))
      with (events := events) (st := boot uid fs).
    - intros e s s' [H1 H2] Hs. split;
        [eapply step_settled_store | eapply step_inbound_only]; eauto.
    - split; [exact Hfs|]. intros id q m Hq. simpl in Hq. now rewrite lookup_empty in Hq.
    - exact Hrun. }
  destruct Hinv as [Hset Hin]. split; [exact Hset|].
  intros id ch st' Hhead. apply loop_head_inv in Hhead as (stored & Hl & _ & Hc).
  exists stored. split; [exact Hl|]. unfold turn_complete.
  destruct (last _) as [m|] eqn:El; [|discriminate].
  destruct (loop_done m) eqn:Ed; [|discriminate].
  apply last_merged_inbound in El as [[Hq Hlast]|[ev ->]].
  - pose proof (Hset id ch stored Hl) as Hs. unfold settled in Hs. rewrite Hlast in Hs.
    unfold answered in Hs. unfold loop_done in Ed.
    destruct (role m); [discriminate|]. now rewrite Hs.
  - discriminate.
  - intros x Hx. destruct (pendingUserMessages st !! id) as [q|] eqn:Eq.
    + exact (Hin id q x Eq Hx).
    + now apply not_elem_of_nil in Hx.
Qed.

Lemma store_stays_settled_witness :
  exists st,
    run [Message hello true;
         Settle 0 (Responded [ToolUseBlock "t1" "execute_bash" (JObj [])]) (fun _ => quiet) DiskOk]
        (boot (Some "U1") bot_home) = Some st
    ∧ settled_store (disk st).
Proof.
  destruct (run_defined
              [Message hello true;
               Settle 0 (Responded [ToolUseBlock "t1" "execute_bash" (JObj [])])
                      (fun _ => quiet) DiskOk]
              (boot (Some "U1") bot_home) (empty_disk_readable _ _)) as [st Hst].
  exists st. split; [exact Hst|].
  refine (proj1 (store_stays_settled (Some "U1") bot_home _ st _ Hst)).
  intros id ch th H. unfold load_or_fresh, loadThread in H. simpl in H.
  rewrite lookup_empty in H. now injection H as <-.
Defined.

Lemma step_mailbox_provenance (e : Event) (st st' : State) (id : string)
    (q : list MessageParam) (m : MessageParam) :
  step e st = Some st' ->
  pendingUserMessages st' !! id = Some q -> m ∈ q ->
  (exists q0, pendingUserMessages st !! id = Some q0 ∧ m ∈ q0)
  ∨ exists ev ok, e = Message ev ok ∧ accepted (SLACK_USER_ID st) ev ok = true
                  ∧ conversation ev = id ∧ m = inbound ev.
Proof.
  intros H Hq Hm. apply step_mailbox in H as (base & Hbase & Hafter).
  assert (Hb : base !! id = Some q).
  { destruct Hafter as [<-|(id' & _ & E)]; [exact Hq|]. rewrite E in Hq.
    destruct (decide (id' = id)) as [->|Hne]; [now rewrite lookup_delete_eq in Hq|].
    now rewrite lookup_delete_ne in Hq. }
  destruct Hbase as [->|(ev & ok & -> & Ha & ->)]; [left; eauto|].
  unfold enqueue in Hb. destruct (decide (conversation ev = id)) as [E|Hne].
  - rewrite E, lookup_insert_eq in Hb. injection Hb as <-.
    apply elem_of_app in Hm as [Hm|Hm].
    + left. destruct (pendingUserMessages st !! id) as [q0|]; [eauto|].
      now apply not_elem_of_nil in Hm.
    + apply list_elem_of_singleton in Hm. right. exists ev, ok. auto.
  - rewrite lookup_insert_ne in Hb by exact Hne. left. eauto.
Qed.

Lemma run_user_id (events : list Event) :
  forall st st', run events st = Some st' -> SLACK_USER_ID st' = SLACK_USER_ID st.
Proof.
  induction events as [|e events IH]; intros st st' H; simpl in H.
  - now injection H as <-.
  - destruct (step e st) as [s|] eqn:E; [|discriminate]. simpl in H.
    rewrite (IH _ _ H). exact (step_user_id _ _ _ E).
Qed.

Lemma run_mailbox_provenance (events : list Event) :
  forall (st st' : State) (id : string) (q : list MessageParam) (m : MessageParam),
    run events st = Some st' ->
    pendingUserMessages st' !! id = Some q -> m ∈ q ->
    (exists q0, pendingUserMessages st !! id = Some q0 ∧ m ∈ q0)
    ∨ exists ev ok, Message ev ok ∈ events ∧ accepted (SLACK_USER_ID st) ev ok = true
                    ∧ conversation ev = id ∧ m = inbound ev.
Proof.
  induction events as [|e events IH]; intros st st' id q m H Hq Hm; simpl in H.
  - injection H as <-. left. eauto.
  - destruct (step e st) as [s|] eqn:E; [|discriminate]. simpl in H.
    destruct (IH s st' id q m H Hq Hm) as [(q1 & Hq1 & Hm1)|(ev & ok & Hin & Ha & Hc & ->)].
    + destruct (step_mailbox_provenance e st s id q1 m E Hq1 Hm1)
        as [Hold|(ev & ok & -> & Ha & Hc & ->)]; [now left|].
      right. exists ev, ok. split; [apply list_elem_of_here|]. auto.
    + right. exists ev, ok. split; [now apply list_elem_of_further|].
      rewrite <- (step_user_id _ _ _ E). auto.
Qed.

(** X10.  In every state reached from start-up, each message waiting in a
    mailbox is the text the handler built from an event of the run that it
    accepted for that conversation.  A pass of the loop that finds the
    mailbox of its conversation non-empty therefore never ends the loop: it
    goes on to a generation round. *)
Theorem mailbox_holds_accepted_messages (uid : option string) (fs : FS)
    (events : list Event) (st : State) :
  run events (boot uid fs) = Some st ->
  (forall id q m, pendingUserMessages st !! id = Some q -> m ∈ q ->
     exists ev ok, Message ev ok ∈ events ∧ accepted uid ev ok = true
                   ∧ conversation ev = id ∧ m = inbound ev)
  ∧ (forall id ch q st' c,
       pendingUserMessages st !! id = Some q -> q ≠ [] ->
       loop_head id ch st = Some (st', c) ->
       exists thread, c = Generate thread ∧ last (messages thread) = last q).
Proof.
  intros Hrun.
  assert (Hprov : forall id q m, pendingUserMessages st !! id = Some q -> m ∈ q ->
     exists ev ok, Message ev ok ∈ events ∧ accepted uid ev ok = true
                   ∧ conversation ev = id ∧ m = inbound ev).
  { intros id q m Hq Hm.
    destruct (run_mailbox_provenance events _ _ id q m Hrun Hq Hm)
      as [(q0 & Hq0 & _)|H]; [|exact H].
    simpl in Hq0. now rewrite lookup_empty in Hq0. }
  split; [exact Hprov|].
  intros id ch q st' c Hq Hne Hhead.
  apply loop_head_inv in Hhead as (stored & _ & _ & ->). rewrite Hq.
  destruct q as [|x q _] using rev_ind; [congruence|].
  change (default [] (Some (q ++ [x]))) with (q ++ [x]).
  rewrite app_assoc, !last_snoc.
  destruct (Hprov id (q ++ [x]) x Hq) as (ev & ok & _ & _ & _ & ->).
  { apply elem_of_app. right. now apply list_elem_of_singleton. }
  cbn [loop_done inbound role]. eexists. split; [reflexivity|].
  cbn [messages with_messages]. now rewrite last_snoc.
Qed.

Lemma mailbox_holds_accepted_messages_witness :
  exists st,
    run [Message hello true; Message again true] (boot (Some "U1") bot_home) = Some st
    ∧ exists ev ok, accepted (Some "U1") ev ok = true ∧ conversation ev = "17.5"
                    ∧ inbound again = inbound ev.
Proof.
  eexists. split; [vm_compute; reflexivity|].
  destruct (mailbox_holds_accepted_messages (Some "U1") bot_home
              [Message hello true; Message again true] _
              ltac:(vm_compute; reflexivity)) as [Hprov _].
  destruct (Hprov "17.5" [inbound again] (inbound again) ltac:(vm_compute; reflexivity)
                  ltac:(apply list_elem_of_here))
    as (ev & ok & _ & Ha & Hc & Hm).
  exists ev, ok. auto.
Defined.

(** ** The persisted history only grows *)

Lemma stored_messages_load (id ch : string) (fs : FS) (th : Thread) :
  load_or_fresh id ch fs = Some th -> stored_messages id fs = Some (messages th).
Proof.
  unfold stored_messages, load_or_fresh.
  destruct (loadThread id fs) as [[]|]; intros H; try (rewrite H; reflexivity);
    now injection H as <-.
Qed.

Lemma stored_messages_saved (id : string) (t : Thread) (dev : Disk) (fs fs' : FS) :
  saveThread id t dev fs = Ok fs' ->
  stored_messages id fs' = Some (messages t)
  ∧ forall id', id' ≠ id -> stored_messages id' fs' = stored_messages id' fs.
Proof.
  intros Hsave. split.
  - pose proof Hsave as Hs. apply saveThread_ok in Hs as [-> _].
    destruct (save_then_load_core id "" t fs) as (fs1 & H1 & H2).
    rewrite Hsave in H1. injection H1 as <-. unfold stored_messages. now rewrite H2.
  - intros id' Hne. unfold stored_messages, load_or_fresh.
    now rewrite (loadThread_saved_other id id' t dev fs fs' Hne Hsave).
Qed.













(** ** No message is lost when no round fails *)

Lemma texts_app (a b : list MessageParam) : texts (a ++ b) = texts a ++ texts b.
Proof. apply List.filter_app. Qed.

Lemma texts_round (ch ts : string) (msgs : list MessageParam) (content : list ContentBlock)
    (outside : nat -> Outside) :
  texts (msgs ++ {| role := assistant; content := Blocks content |}
              :: (if decide (tool_uses content = []) then []
                  else [ {| role := user;
                            content := Blocks (tool_results (toolsByName (createTools ch ts))
                                                            outside 0 content) |} ]))
  = texts msgs.
Proof.
  rewrite texts_app. destruct (decide _); simpl; now rewrite app_nil_r.
Qed.

Lemma find_task_None (l : list Task) (id : string) :
  id ∉ map task_threadTs l ->
  List.find (fun t => bool_decide (task_threadTs t = id)) l = None.
Proof.
  induction l as [|t l IH]; [reflexivity|]. intros H. cbn [map] in H.
  apply not_elem_of_cons in H as [Hne H]. cbn [List.find].
  rewrite bool_decide_eq_false_2 by congruence. now apply IH.
Qed.

Lemma find_task_snoc (l : list Task) (t : Task) :
  task_threadTs t ∉ map task_threadTs l ->
  List.find (fun x => bool_decide (task_threadTs x = task_threadTs t)) (l ++ [t]) = Some t.
Proof.
  induction l as [|x l IH]; intros H.
  - cbn. now rewrite bool_decide_eq_true_2.
  - cbn [map] in H. apply not_elem_of_cons in H as [Hne H]. cbn [app List.find].
    rewrite bool_decide_eq_false_2 by congruence. now apply IH.
Qed.

Lemma find_task_lookup (l : list Task) (k : nat) (t : Task) :
  NoDup (map task_threadTs l) -> l !! k = Some t ->
  List.find (fun x => bool_decide (task_threadTs x = task_threadTs t)) l = Some t.
Proof.
  revert k. induction l as [|x l IH]; intros k Hnd Hk; [discriminate|].
  cbn [map] in Hnd. apply NoDup_cons in Hnd as [Hx Hnd]. cbn [List.find].
  destruct k as [|k]; simpl in Hk.
  - injection Hk as ->. now rewrite bool_decide_eq_true_2.
  - rewrite bool_decide_eq_false_2; [now apply (IH k)|].
    intros E. apply Hx. rewrite E. apply list_elem_of_fmap_2.
    eapply list_elem_of_lookup_2. exact Hk.
Qed.

Lemma find_filter_head {A : Type} (P : A -> bool) (l : list A) :
  List.find P l = head (List.filter P l).
Proof.
  induction l as [|x l IH]; [reflexivity|]. simpl. destruct (P x); [reflexivity | exact IH].
Qed.

Lemma stored_messages_record (id : string) (fs fs' : FS) :
  files fs !! thread_file fs id = files fs' !! thread_file fs' id ->
  stored_messages id fs = stored_messages id fs'.
Proof.
  intros H. unfold stored_messages, load_or_fresh, loadThread. now rewrite H.
Qed.

Lemma history_view (id : string) (st st' : State) :
  view id st' = view id st -> history id st' = history id st.
Proof.
  intros H. unfold history, task_of. rewrite !find_filter_head.
  assert (Ht : view_tasks (view id st') = view_tasks (view id st)) by now rewrite H.
  assert (Hp : view_pending (view id st') = view_pending (view id st)) by now rewrite H.
  assert (Hr : view_record (view id st') = view_record (view id st)) by now rewrite H.
  cbn in Ht, Hp, Hr. rewrite Ht, Hp. now rewrite (stored_messages_record id _ _ Hr).
Qed.

Lemma history_idle (id : string) (st : State) (h : list MessageParam) :
  single_flight st -> id ∉ activeThreadLoops st -> history id st = Some h ->
  exists base, stored_messages id (disk st) = Some base
               ∧ h = base ++ default [] (pendingUserMessages st !! id).
Proof.
  intros [_ Hact] Hidle H. unfold history, task_of in H.
  rewrite find_task_None in H by (now rewrite <- Hact).
  destruct (stored_messages id (disk st)) as [base|]; [|discriminate].
  injection H as <-. eauto.
Qed.

(** The loop starts on an idle conversation: what the program holds of the
    conversation is the same before and after. *)
Lemma history_loop_start (id ch : string) (st st' : State) (o : Outcome)
    (base : list MessageParam) :
  id ∉ map task_threadTs (awaiting st) ->
  inbound_only (pendingUserMessages st) ->
  stored_messages id (disk st) = Some base ->
  loop_from_head id ch st = Some (st', o) ->
  history id st' = Some (base ++ default [] (pendingUserMessages st !! id)).
Proof.
  set (pend := default [] (pendingUserMessages st !! id)).
  intros Hfree Hin Hbase H.
  apply loop_from_head_cases in H as (stored & Hl & H). cbv zeta in H.
  pose proof (stored_messages_load _ _ _ _ Hl) as Hs. rewrite Hbase in Hs.
  injection Hs as Hs. rewrite <- Hs in H. fold pend in H.
  assert (Hq : forall x, x ∈ pend -> exists ev, x = inbound ev).
  { intros x Hx. subst pend. destruct (pendingUserMessages st !! id) as [q|] eqn:Eq.
    - exact (Hin id q x Eq Hx).
    - now apply not_elem_of_nil in Hx. }
  assert (Hdone : forall m, last (base ++ pend) = Some m -> loop_done m = true -> pend = []).
  { intros m Hm Hd.
    apply last_merged_inbound in Hm as [[Hq' _]|[ev ->]]; [exact Hq'|discriminate|exact Hq]. }
  unfold history, task_of.
  destruct H as [(Hnone & -> & _)|[(m & Hm & Hd & -> & _)|(m & Hm & Hd & -> & _)]].
  - cbn. rewrite find_task_None by exact Hfree. rewrite Hbase, lookup_delete_eq. cbn.
    apply last_None in Hnone. apply app_eq_nil in Hnone as [-> ->]. reflexivity.
  - cbn. rewrite find_task_None by exact Hfree. rewrite Hbase, lookup_delete_eq. cbn.
    now rewrite (Hdone m Hm Hd).
  - cbn [awaiting pendingUserMessages].
    pose proof (find_task_snoc (awaiting st)
                  {| task_threadTs := id; task_channel := ch;
                     task_thread := with_messages (base ++ pend) stored |} Hfree) as Hf.
    cbn [task_threadTs] in Hf. rewrite Hf, lookup_delete_eq. cbn. now rewrite app_nil_r.
Qed.

Lemma arrivals_cons (uid : option string) (id : string) (e : Event) (events : list Event) :
  arrivals uid id (e :: events) = arrivals uid id [e] ++ arrivals uid id events.
Proof. unfold arrivals. cbn [flat_map]. now rewrite app_nil_r. Qed.

Lemma step_history (e : Event) (st st' : State) (id : string) (h : list MessageParam) :
  single_flight st ->
  inbound_only (pendingUserMessages st) ->
  no_failure e ->
  step e st = Some st' ->
  history id st = Some h ->
  exists h', history id st' = Some h'
             ∧ texts h' = texts h ++ arrivals (SLACK_USER_ID st) id [e].
Proof.
  intros Hsf Hin Hok H Hh.
  destruct (decide (event_thread e st = Some id)) as [Hev|Hev].
  2:{ exists h. split.
      - rewrite (history_view id st st'); [exact Hh|]. exact (step_frame e st st' id H Hev).
      - destruct e as [ev ok| |]; try (simpl; now rewrite app_nil_r).
        unfold arrivals. cbn [flat_map]. simpl in Hev.
        rewrite (bool_decide_eq_false_2 (conversation ev = id))
          by (intros E; apply Hev; unfold conversation in E; now rewrite E).
        rewrite andb_false_r. simpl. now rewrite app_nil_r. }
  destruct e as [ev ok|id0 ch|k reply outside dev]; simpl in H, Hev.
  - injection Hev as Hev. change (conversation ev = id) in Hev.
    unfold arrivals. cbn [flat_map].
    rewrite on_message_cases in H. rewrite (bool_decide_eq_true_2 _ Hev), andb_true_r.
    destruct (accepted _ _ _) eqn:Ea.
    2:{ injection H as <-. exists h. split; [exact Hh|]. simpl. now rewrite app_nil_r. }
    destruct (runThreadLoop _ _ _) as [[s o]|] eqn:E; [|discriminate]. injection H as <-.
    rewrite Hev in E. unfold runThreadLoop in E. cbn [activeThreadLoops set_pending] in E.
    exists (h ++ [inbound ev]). rewrite texts_app. split; [|now rewrite app_nil_r].
    destruct (decide (id ∈ activeThreadLoops st)) as [Hact|Hidle].
    + injection E as <- _. unfold history, task_of in *.
      cbn [awaiting disk pendingUserMessages set_pending]. unfold enqueue.
      rewrite lookup_insert_eq. change (default [] (Some ?x)) with x.
      destruct (match List.find _ (awaiting st) with Some t => _ | None => _ end) as [base|];
        [|discriminate].
      cbn in *. injection Hh as <-. now rewrite app_assoc.
    + destruct (history_idle id st h Hsf Hidle Hh) as (base & Hbase & ->).
      destruct Hsf as [_ Hact].
      rewrite (fun a b c => history_loop_start _ _ _ _ _ base a b c E).
      * cbn [pendingUserMessages set_active set_pending]. unfold enqueue.
        rewrite lookup_insert_eq.
        change (default [] (Some ?x)) with x. now rewrite app_assoc.
      * cbn. now rewrite <- Hact.
      * cbn. now apply inbound_only_enqueue.
      * exact Hbase.
  - injection Hev as ->.
    destruct (runThreadLoop _ _ _) as [[s o]|] eqn:E; [|discriminate]. injection H as <-.
    exists h. split; [|simpl; now rewrite app_nil_r].
    unfold runThreadLoop in E.
    destruct (decide (id ∈ activeThreadLoops st)) as [Hact|Hidle];
      [now injection E as <- _|].
    destruct (history_idle id st h Hsf Hidle Hh) as (base & Hbase & ->).
    destruct Hsf as [_ Hact].
    rewrite (fun a b c => history_loop_start _ _ _ _ _ base a b c E);
      [reflexivity| |exact Hin|exact Hbase].
    cbn. now rewrite <- Hact.
  - destruct (awaiting st !! k) as [t|] eqn:Ek; [|discriminate]. injection Hev as <-.
    destruct (resume_at _ _ _ _ _) as [[s o]|] eqn:E; [|discriminate]. injection H as <-.
    destruct Hsf as [Hnd Hact].
    unfold history, task_of in Hh. rewrite (find_task_lookup _ k t Hnd Ek) in Hh.
    cbn in Hh. injection Hh as <-.
    destruct (task_ids_delete st k t Hnd Ek) as (_ & Hfree & _).
    unfold resume_at in E. rewrite Ek in E.
    destruct reply as [content|msg]; [|contradiction]. destruct dev; [|contradiction].
    unfold resume in E. rewrite generateMessages_responded in E.
    destruct (saveThread _ _ DiskOk _) as [fs|msg] eqn:Hs;
      [|now rewrite saveThread_DiskOk in Hs].
    destruct (stored_messages_saved _ _ _ _ _ Hs) as [Hsaved _].
    eapply history_loop_start in E; [|exact Hfree|exact Hin|exact Hsaved].
    eexists. split; [exact E|].
    cbn [pendingUserMessages set_disk set_awaiting messages with_messages].
    rewrite (texts_app (_ ++ _ :: _)), texts_round, <- texts_app.
    simpl. now rewrite app_nil_r.
Qed.

Lemma run_history (events : list Event) :
  forall (st st' : State) (id : string) (h : list MessageParam),
    single_flight st ->
    inbound_only (pendingUserMessages st) ->
    Forall no_failure events ->
    run events st = Some st' ->
    history id st = Some h ->
    exists h', history id st' = Some h'
               ∧ texts h' = texts h ++ arrivals (SLACK_USER_ID st) id events.
Proof.
  induction events as [|e events IH]; intros st st' id h Hsf Hin Hok H Hh; simpl in H.
  - injection H as <-. exists h. split; [exact Hh|]. simpl. now rewrite app_nil_r.
  - destruct (step e st) as [s|] eqn:E; [|discriminate]. simpl in H.
    apply Forall_cons in Hok as [Hok1 Hok].
    destruct (step_history e st s id h Hsf Hin Hok1 E Hh) as (mid & Hmid & Hm).
    destruct (IH s st' id mid) as (h' & Hh' & Ht); [| |exact Hok|exact H|exact Hmid|].
    + eapply step_single_flight; eauto.
    + eapply step_inbound_only; eauto.
    + exists h'. split; [exact Hh'|].
      rewrite Ht, Hm, (step_user_id _ _ _ E), (arrivals_cons _ _ e events).
      now rewrite app_assoc.
Qed.

(** X12.  No message is lost or duplicated while no round fails.  Take any
    run from start-up in which no provider call is rejected and no write of
    a record fails.  What the program then holds of a conversation (the
    thread of its suspended loop if it has one, the stored record otherwise,
    followed by its mailbox) has as plain-text messages exactly the ones
    stored at start-up followed by the messages the handler accepted for
    that conversation, each once and in order of arrival; everything a round
    adds is a block list. *)
Theorem accepted_messages_are_kept (uid : option string) (fs : FS) (events : list Event)
    (st : State) (id : string) (before : list MessageParam) :
  Forall no_failure events ->
  run events (boot uid fs) = Some st ->
  stored_messages id fs = Some before ->
  exists h, history id st = Some h
            ∧ texts h = texts before ++ arrivals uid id events.
Proof.
  intros Hok Hrun Hb.
  apply (run_history events (boot uid fs) st id before); try assumption.
  - apply boot_single_flight.
  - intros i q m Hq. simpl in Hq. now rewrite lookup_empty in Hq.
  - unfold history, task_of. simpl. rewrite Hb. simpl. now rewrite app_nil_r.
Qed.

Lemma accepted_messages_are_kept_witness :
  exists st h,
    run [Message hello true;
         Message again true;
         Settle 0 (Responded [ToolUseBlock "t1" "send_slack_message" (JObj [("text", JStr "hi")])])
                (fun _ => quiet) DiskOk]
        (boot (Some "U1") bot_home) = Some st
    ∧ history "17.5" st = Some h
    ∧ texts h = [inbound hello; inbound again].
Proof.
  destruct (run_defined
              [Message hello true;
               Message again true;
               Settle 0 (Responded [ToolUseBlock "t1" "send_slack_message" (JObj [("text", JStr "hi")])])
                      (fun _ => quiet) DiskOk]
              (boot (Some "U1") bot_home) (empty_disk_readable _ _)) as [st Hst].
  assert (Hok : Forall no_failure
                  [Message hello true;
                   Message again true;
                   Settle 0 (Responded [ToolUseBlock "t1" "send_slack_message" (JObj [("text", JStr "hi")])])
                          (fun _ => quiet) DiskOk]).
  { repeat constructor. }
  assert (Hb : stored_messages "17.5" bot_home = Some []) by reflexivity.
  destruct (accepted_messages_are_kept _ _ _ st "17.5" [] Hok Hst Hb) as (h & Hh & Ht).
  exists st, h. split; [exact Hst|]. split; [exact Hh|]. exact Ht.
Defined.

(** ** A finished conversation is on the disk *)

Lemma loop_from_head_idle_mailbox (id ch : string) (st st' : State) (o : Outcome) :
  (forall x, x ≠ id -> x ∉ activeThreadLoops st -> pendingUserMessages st !! x = None) ->
  loop_from_head id ch st = Some (st', o) ->
  idle_mailbox_empty st'.
Proof.
  intros Hinv H x Hx.
  apply loop_from_head_effect in H as (_ & _ & -> & Hcases).
  destruct (decide (x = id)) as [->|Hne]; [apply lookup_delete_eq|].
  rewrite lookup_delete_ne by congruence. apply Hinv; [exact Hne|].
  intros Hact. apply Hx.
  destruct Hcases as [(_ & -> & _)|(_ & -> & _)]; [exact Hact|].
  apply elem_of_difference. split; [exact Hact|]. now rewrite elem_of_singleton.
Qed.

Lemma step_idle_mailbox (e : Event) (st st' : State) :
  idle_mailbox_empty st -> no_failure e -> step e st = Some st' -> idle_mailbox_empty st'.
Proof.
  intros Hinv Hok H. destruct e as [ev ok|id ch|k reply outside dev]; simpl in H.
  - rewrite on_message_cases in H.
    destruct (accepted _ _ _); [|now injection H as <-].
    destruct (runThreadLoop _ _ _) as [[s o]|] eqn:E; [|discriminate]. injection H as <-.
    unfold runThreadLoop in E. cbn [activeThreadLoops set_pending] in E.
    destruct (decide (conversation ev ∈ activeThreadLoops st)) as [Hact|Hidle].
    + injection E as <- _. intros x Hx. cbn in Hx |- *. unfold enqueue.
      rewrite lookup_insert_ne by (intros Heq; apply Hx; now rewrite <- Heq).
      now apply Hinv.
    + eapply loop_from_head_idle_mailbox; [|exact E].
      intros x Hne Hx. cbn in Hx |- *. unfold enqueue.
      rewrite lookup_insert_ne by congruence. apply Hinv.
      intros Hact. apply Hx. now apply elem_of_union_r.
  - destruct (runThreadLoop _ _ _) as [[s o]|] eqn:E; [|discriminate]. injection H as <-.
    unfold runThreadLoop in E.
    destruct (decide (id ∈ activeThreadLoops st)) as [Hact|Hidle]; [now injection E as <- _|].
    eapply loop_from_head_idle_mailbox; [|exact E].
    intros x Hne Hx. cbn in Hx |- *. apply Hinv.
    intros Hact. apply Hx. now apply elem_of_union_r.
  - destruct (resume_at _ _ _ _ _) as [[s o]|] eqn:E; [|discriminate]. injection H as <-.
    unfold resume_at in E. destruct (awaiting st !! k) as [t|] eqn:Ek;
      [|now injection E as <- _].
    destruct reply as [content|msg]; [|contradiction]. destruct dev; [|contradiction].
    unfold resume in E. rewrite generateMessages_responded, saveThread_DiskOk in E.
    eapply loop_from_head_idle_mailbox; [|exact E].
    intros x _ Hx. now apply Hinv.
Qed.

Lemma run_idle_mailbox (events : list Event) :
  forall st st', idle_mailbox_empty st -> Forall no_failure events ->
                 run events st = Some st' -> idle_mailbox_empty st'.
Proof.
  induction events as [|e events IH]; intros st st' Hinv Hok H; simpl in H.
  - now injection H as <-.
  - destruct (step e st) as [s|] eqn:E; [|discriminate]. simpl in H.
    apply Forall_cons in Hok as [Hok1 Hok].
    eapply IH; [|exact Hok|exact H]. eapply step_idle_mailbox; eauto.
Qed.

Lemma boot_history (uid : option string) (fs : FS) (id : string) (before : list MessageParam) :
  stored_messages id fs = Some before -> history id (boot uid fs) = Some before.
Proof.
  intros Hb. unfold history, task_of. simpl. rewrite Hb. simpl. now rewrite app_nil_r.
Qed.

Lemma boot_inbound_only (uid : option string) (fs : FS) :
  inbound_only (pendingUserMessages (boot uid fs)).
Proof. intros i q m Hq. simpl in Hq. now rewrite lookup_empty in Hq. Qed.

(** X13.  Once the loop of a conversation has ended, its record holds every
    accepted message.  In a run from start-up without a rejected provider
    call or a failed write, a conversation that has no active loop at the
    end has on the disk, as its plain-text messages, exactly the ones that
    were stored at start-up followed by the messages the handler accepted
    for it, each once and in order of arrival: none is still in the mailbox
    and none was dropped between rounds. *)
Theorem finished_conversation_is_stored (uid : option string) (fs : FS) (events : list Event)
    (st : State) (id : string) (before : list MessageParam) :
  Forall no_failure events ->
  run events (boot uid fs) = Some st ->
  stored_messages id fs = Some before ->
  id ∉ activeThreadLoops st ->
  pendingUserMessages st !! id = None
  ∧ exists after, stored_messages id (disk st) = Some after
                  ∧ texts after = texts before ++ arrivals uid id events.
Proof.
  intros Hok Hrun Hb Hidle.
  assert (Hempty : pendingUserMessages st !! id = None).
  { refine (run_idle_mailbox events (boot uid fs) st _ Hok Hrun id Hidle).
    intros x _. apply lookup_empty. }
  split; [exact Hempty|].
  destruct (run_history events (boot uid fs) st id before (boot_single_flight uid fs)
              (boot_inbound_only uid fs) Hok Hrun (boot_history uid fs id before Hb))
    as (h & Hh & Ht).
  destruct (history_idle id st h (run_single_flight events _ _ (boot_single_flight uid fs) Hrun)
              Hidle Hh) as (base & Hbase & ->).
  exists base. split; [exact Hbase|].
  rewrite Hempty in Ht. simpl in Ht. rewrite app_nil_r in Ht. exact Ht.
Qed.

Lemma finished_conversation_is_stored_witness :
  exists st after,
    run [Message hello true;
         Settle 0 (Responded [TextBlock "Hi."]) (fun _ => quiet) DiskOk]
        (boot (Some "U1") bot_home) = Some st
    ∧ stored_messages "17.5" (disk st) = Some after
    ∧ texts after = [inbound hello].
Proof.
  destruct (run_defined
              [Message hello true;
               Settle 0 (Responded [TextBlock "Hi."]) (fun _ => quiet) DiskOk]
              (boot (Some "U1") bot_home) (empty_disk_readable _ _)) as [st Hrun].
  assert (Hok : Forall no_failure
                  [Message hello true;
                   Settle 0 (Responded [TextBlock "Hi."]) (fun _ => quiet) DiskOk]).
  { repeat constructor. }
  assert (Hb : stored_messages "17.5" bot_home = Some []) by reflexivity.
  assert (Hidle : "17.5" ∉ activeThreadLoops st).
  { pose proof Hrun as Hc. vm_compute in Hc. injection Hc as <-.
    intros Hin. apply (bool_decide_pack _) in Hin. vm_compute in Hin. exact Hin. }
  destruct (finished_conversation_is_stored _ _ _ st "17.5" [] Hok Hrun Hb Hidle)
    as (_ & after & Ha & Ht).
  exists st, after. split; [exact Hrun|]. split; [exact Ha | exact Ht].
Defined.

(** ** The handler without a loop *)

Lemma direct_start_accepted (uid : option string) (ev : SlackEvent) (ok : bool) (fs : FS)
    (before : list MessageParam) :
  accepted uid ev ok = true ->
  stored_messages (conversation ev) fs = Some before ->
  exists c, Direct.on_message_start uid ev ok fs = Some (Some c)
            ∧ Direct.call_threadTs c = conversation ev
            ∧ Direct.call_messages c = before ++ [inbound ev].
Proof.
  unfold accepted, Direct.on_message_start, stored_messages. intros Ha Hb.
  apply andb_prop in Ha as [Ha ->]. apply andb_prop in Ha as [Ha ->].
  apply andb_prop in Ha as [Hs ->]. apply negb_true_iff in Hs. rewrite Hs.
  cbn [negb orb]. fold (conversation ev).
  destruct (load_or_fresh (conversation ev) "" fs) as [th|] eqn:El; [|discriminate].
  injection Hb as <-.
  assert (exists th', load_or_fresh (conversation ev) (ev_channel ev) fs = Some th'
                      ∧ messages th' = messages th) as (th' & -> & <-).
  { revert El. unfold load_or_fresh.
    destruct (loadThread _ _) as [[]|]; intros [= <-] || intros ->; eauto. }
  eexists. split; [reflexivity|]. split; reflexivity.
Qed.

Lemma direct_finish_stored (c : Direct.Call) (content : list ContentBlock)
    (outside : nat -> Outside) (fs : FS) :
  exists fs' after,
    Direct.on_message_finish c (Responded content) outside DiskOk fs = Ok fs'
    ∧ stored_messages (Direct.call_threadTs c) fs' = Some after
    ∧ Direct.call_messages c `prefix_of` after
    ∧ texts after = texts (Direct.call_messages c).
Proof.
  unfold Direct.on_message_finish, Direct.generateMessages. cbv zeta.
  set (results := tool_results _ _ _ _).
  set (out := if (0 <? length results)%nat then _ else _).
  destruct (saveThread (Direct.call_threadTs c) (with_messages out (Direct.call_thread c))
                       DiskOk fs) as [fs'|msg] eqn:Hs;
    [|now rewrite saveThread_DiskOk in Hs].
  exists fs', out. split; [reflexivity|].
  split; [exact (proj1 (stored_messages_saved _ _ _ _ _ Hs))|].
  subst out. destruct (0 <? length results)%nat.
  - split; [rewrite <- app_assoc; now apply prefix_app_r|].
    rewrite !texts_app. simpl. now rewrite !app_nil_r.
  - split; [now apply prefix_app_r|]. rewrite texts_app. simpl. now rewrite app_nil_r.
Qed.



(** X15.  Without overlap the handler without a loop keeps both messages.
    When the second handler loads the record after the first has saved and
    both rounds succeed, the plain-text messages of the record are the ones
    stored before followed by the first and the second message, and the
    record the first round saved is a prefix of the final one. *)
Theorem direct_in_turn_keeps_both (uid : option string) (ev1 ev2 : SlackEvent)
    (fs : FS) (before : list MessageParam) (content1 content2 : list ContentBlock)
    (outside1 outside2 : nat -> Outside) :
  accepted uid ev1 true = true ->
  accepted uid ev2 true = true ->
  conversation ev1 = conversation ev2 ->
  stored_messages (conversation ev1) fs = Some before ->
  exists c1 fs1 mid c2 fs2 after,
    Direct.on_message_start uid ev1 true fs = Some (Some c1)
    ∧ Direct.on_message_finish c1 (Responded content1) outside1 DiskOk fs = Ok fs1
    ∧ stored_messages (conversation ev1) fs1 = Some mid
    ∧ Direct.on_message_start uid ev2 true fs1 = Some (Some c2)
    ∧ Direct.on_message_finish c2 (Responded content2) outside2 DiskOk fs1 = Ok fs2
    ∧ stored_messages (conversation ev1) fs2 = Some after
    ∧ mid `prefix_of` after
    ∧ texts after = texts before ++ [inbound ev1; inbound ev2].
Proof.
  intros Ha1 Ha2 Hsame Hb.
  destruct (direct_start_accepted uid ev1 true fs before Ha1 Hb) as (c1 & H1 & Hid1 & Hm1).
  destruct (direct_finish_stored c1 content1 outside1 fs) as (fs1 & mid & F1 & Hs1 & _ & Ht1).
  rewrite Hid1 in Hs1. pose proof Hs1 as Hb2. rewrite Hsame in Hb2.
  destruct (direct_start_accepted uid ev2 true fs1 mid Ha2 Hb2) as (c2 & H2 & Hid2 & Hm2).
  destruct (direct_finish_stored c2 content2 outside2 fs1)
    as (fs2 & after & F2 & Hs2 & Hp2 & Ht2).
  exists c1, fs1, mid, c2, fs2, after. rewrite Hsame, <- Hid2.
  rewrite Hsame in Hs1.  rewrite <- Hid2 in Hs1.
  repeat split; try assumption.
  - etransitivity; [|exact Hp2]. rewrite Hm2. now apply prefix_app_r.
  - rewrite Ht2, Hm2, texts_app, Ht1, Hm1, texts_app, <- app_assoc. reflexivity.
Qed.

Lemma direct_in_turn_keeps_both_witness :
  exists c1 fs1 c2 fs2 after,
    Direct.on_message_start (Some "U1") hello true bot_home = Some (Some c1)
    ∧ Direct.on_message_finish c1 (Responded [TextBlock "Hi."]) (fun _ => quiet) DiskOk
                               bot_home = Ok fs1
    ∧ Direct.on_message_start (Some "U1") again true fs1 = Some (Some c2)
    ∧ Direct.on_message_finish c2 (Responded [TextBlock "Yes."]) (fun _ => quiet) DiskOk fs1
      = Ok fs2
    ∧ stored_messages "17.5" fs2 = Some after
    ∧ texts after = [inbound hello; inbound again].
Proof.
  assert (Hb : stored_messages (conversation hello) bot_home = Some []) by reflexivity.
  destruct (direct_in_turn_keeps_both (Some "U1") hello again bot_home []
              [TextBlock "Hi."] [TextBlock "Yes."] (fun _ => quiet) (fun _ => quiet)
              eq_refl eq_refl eq_refl Hb)
    as (c1 & fs1 & mid & c2 & fs2 & after & H1 & F1 & _ & H2 & F2 & Hs & _ & Ht).
  exists c1, fs1, c2, fs2, after. auto 10.
Defined.
